(** * iGibson object states: a shallow embedding of the state factory,
      the particle-driven states, the Inside predicate and the simulator step.

    Sources embedded here:
    - gibson2/object_states/factory.py
    - gibson2/object_states/dirty.py, stained.py
    - gibson2/object_states/inside.py, contact_bodies.py
    - gibson2/scenes/igibson_indoor_scene.py (the state index)
    - gibson2/simulator.py (step, step_vr, _non_physics_step)

    Conventions.
    - Python floats are modelled by exact rationals [Q]; a remark at the end
      of the particle section checks the one float boundary that matters.
    - A Python [set] is modelled by the list of its elements in iteration
      order.  That order is not fixed by the language, so functions that
      iterate over a set take the order as an argument and theorems
      quantify over every order.
    - Python exceptions are values of [exn]; a call that may raise returns
      a [result]. *)

From Stdlib Require Import String ZArith QArith Lia Bool Arith Floats.
From Stdlib Require Import Lqa Relation_Operators Permutation List.
Import ListNotations.
Open Scope string_scope.
Open Scope list_scope.
Open Scope nat_scope.

(* ===================================================================== *)
(** * Part I. Definitions                                                 *)
(* ===================================================================== *)

(** ** Exceptions and results *)

Inductive exn : Type :=
| AssertionError
| KeyError
| TypeError
| AttributeError
| NotImplementedError
| ZeroDivisionError
| RuntimeError
| NetworkXUnfeasible.

Inductive result (A : Type) : Type :=
| Ok (a : A)
| Raise (e : exn).
Arguments Ok {A} a.
Arguments Raise {A} e.

Definition bind {A B : Type} (r : result A) (k : A -> result B) : result B :=
  match r with
  | Ok a => k a
  | Raise e => Raise e
  end.

Notation "x <- r ;; k" := (bind r (fun x => k))
  (at level 61, r at next level, right associativity).

Fixpoint mapM {A B : Type} (f : A -> result B) (l : list A) : result (list B) :=
  match l with
  | [] => Ok []
  | a :: l' =>
      b <- f a ;;
      bs <- mapM f l' ;;
      Ok (b :: bs)
  end.

(** ** State classes and dictionary keys *)

(** The classes imported at the top of factory.py. *)
Inductive state_class : Type :=
| Pose | AABB | ContactBodies | OnTop | Open | Inside | NextTo | Under
| Touching | ToggledOn | Soaked | Dirty | Stained | WaterSource
| CleaningTool | HeatSource | Temperature | MaxTemperature | Burnt | Cooked
| DummyState.

(** Keys used for state dictionaries in this code base: factory.py and
    dirty.py use name strings, stained.py and inside.py use the class
    objects themselves.  A string and a class object are never equal. *)
Inductive state_key : Type :=
| Name (s : string)
| Class (c : state_class).

Definition state_class_eq_dec (a b : state_class) : {a = b} + {a <> b}.
Proof. decide equality. Defined.

Definition state_key_eq_dec (a b : state_key) : {a = b} + {a <> b}.
Proof. decide equality; [apply string_dec | apply state_class_eq_dec]. Defined.

Definition key_eqb (a b : state_key) : bool :=
  if state_key_eq_dec a b then true else false.

Definition mem (k : state_key) (l : list state_key) : bool :=
  existsb (key_eqb k) l.

(** ** Python dictionaries: insertion-ordered association lists *)

Section Dict.
Context {K V : Type} (eqb : K -> K -> bool).

Definition dict : Type := list (K * V).

Fixpoint dict_get (k : K) (d : dict) : option V :=
  match d with
  | [] => None
  | (k', v) :: d' => if eqb k k' then Some v else dict_get k d'
  end.

Definition dict_mem (k : K) (d : dict) : bool :=
  match dict_get k d with Some _ => true | None => false end.

(** [d[k] = v]: overwrite in place, or append a new key. *)
Fixpoint dict_set (k : K) (v : V) (d : dict) : dict :=
  match d with
  | [] => [(k, v)]
  | (k', v') :: d' =>
      if eqb k k' then (k', v) :: d' else (k', v') :: dict_set k v d'
  end.

(** [del d[k]] for a key that is present. *)
Fixpoint dict_del (k : K) (d : dict) : dict :=
  match d with
  | [] => []
  | (k', v') :: d' => if eqb k k' then d' else (k', v') :: dict_del k d'
  end.

Definition dict_keys (d : dict) : list K := map fst d.
End Dict.

Arguments dict K V : clear implicits.

Definition str_eqb (a b : string) : bool := String.eqb a b.

(** ** factory.py *)

(** Keyword arguments handed to a state constructor. *)
Inductive pyvalue : Type :=
| PInt (z : Z)
| PFloat (q : Q)
| PBool (b : bool)
| PStr (s : string).

Definition kwargs : Type := dict string pyvalue.

Definition _STATE_NAME_TO_CLASS_MAPPING : dict state_key state_class :=
  [ (Name "pose", Pose);
    (Name "aabb", AABB);
    (Name "contact_bodies", ContactBodies);
    (Name "onTop", OnTop);
    (Name "open", Open);
    (Name "inside", Inside);
    (Name "nextTo", NextTo);
    (Name "under", Under);
    (Name "touching", Touching);
    (Name "toggled_on", ToggledOn);
    (Name "soaked", Soaked);
    (Name "dirty", Dirty);
    (Name "stained", Stained);
    (Name "water_source", WaterSource);
    (Name "cleaning_tool", CleaningTool);
    (Name "heatSource", HeatSource);
    (Name "temperature", Temperature);
    (Name "maxTemperature", MaxTemperature);
    (Name "burnt", Burnt);
    (Name "cooked", Cooked) ].

Definition _ABILITY_TO_STATE_MAPPING : dict string (list state_key) :=
  [ ("cookable", [Name "cooked"]);
    ("soakable", [Name "soaked"]);
    ("dustable", [Name "dirty"]);
    ("scrubbable", [Name "stained"]);
    ("water_source", [Name "water_source"]);
    ("cleaning_tool", [Name "cleaning_tool"]);
    ("toggleable", [Name "toggled_on"]);
    ("burnable", [Name "burnt"]);
    ("heatSource", [Name "heatSource"]) ].

Definition _DEFAULT_STATE_SET : list state_key :=
  [ Name "onTop"; Name "inside"; Name "nextTo"; Name "under";
    Name "touching"; Name "open" ].

Arguments _STATE_NAME_TO_CLASS_MAPPING : simpl never.
Arguments _ABILITY_TO_STATE_MAPPING : simpl never.
Arguments _DEFAULT_STATE_SET : simpl never.

(** The state classes other than Dirty, Stained and ContactBodies are defined
    in files that are not part of the sources at hand.  What the factory
    needs from each class is collected in a table that the definitions below
    take as a parameter. *)
Record class_table : Type := {
  (** [get_dependencies()] of the classes whose file is absent *)
  other_dependencies : state_class -> list state_key;
  (** [get_optional_dependencies()] of the classes whose file is absent *)
  other_optional_dependencies : state_class -> list state_key;
  (** whether [cls(obj, **params)] of an absent class accepts the keywords *)
  other_accepts : state_class -> kwargs -> bool
}.

(** dirty.py:58 and stained.py:77 fix two rows of the table. *)
Definition get_dependencies (T : class_table) (c : state_class)
  : list state_key :=
  match c with
  | Dirty => [Name "aabb"]
  | Stained => [Class AABB]
  | _ => other_dependencies T c
  end.

(** dirty.py:62 and stained.py:81. *)
Definition get_optional_dependencies (T : class_table) (c : state_class)
  : list state_key :=
  match c with
  | Dirty => [Name "cleaning_tool"]
  | Stained => [Class Soaked; Class CleaningTool]
  | _ => other_optional_dependencies T c
  end.

(** [Dirty.__init__(self, obj)] and [Stained.__init__(self, obj)] take no
    keyword: any keyword argument is a TypeError. *)
Definition accepts (T : class_table) (c : state_class) (params : kwargs)
  : bool :=
  match c with
  | Dirty | Stained =>
      match params with [] => true | _ => false end
  | _ => other_accepts T c params
  end.

(** [set(_DEFAULT_STATE_SET)], as the list of its elements in the order
    [iter] in which the set is iterated; the theorems take [iter] to be a
    permutation of [_DEFAULT_STATE_SET]. *)
Definition get_default_state_names (iter : list state_key) : list state_key :=
  iter.

(** [set(_STATE_NAME_TO_CLASS_MAPPING.keys())], in the same way; the
    theorems take [iter] to be a permutation of the keys of the table. *)
Definition get_all_state_names (iter : list state_key) : list state_key :=
  iter.

Definition get_state_names_for_ability (ability : string)
  : result (list state_key) :=
  match dict_get str_eqb ability _ABILITY_TO_STATE_MAPPING with
  | Some names => Ok names
  | None => Raise KeyError
  end.

(** A constructed state object: its class and the keywords it was built
    with. *)
Record state_instance : Type := {
  inst_class : state_class;
  inst_params : kwargs
}.

Definition get_object_state_instance (T : class_table)
    (state_name : state_key) (obj : string)
    (params : option kwargs) (online : bool) : result state_instance :=
  match dict_get key_eqb state_name _STATE_NAME_TO_CLASS_MAPPING with
  | None => Raise AssertionError
  | Some state_class =>
      if negb online then
        Ok {| inst_class := DummyState; inst_params := [] |}
      else
        let params := match params with Some p => p | None => [] end in
        if accepts T state_class params then
          Ok {| inst_class := state_class; inst_params := params |}
        else Raise TypeError
  end.

(** An element of [state_names_and_params]. *)
Definition entry : Type := (state_key * kwargs)%type.

(** [dependency == item] for an item of [state_names_and_params]: the left
    operand is a string or a class object and the right one a tuple, so the
    comparison is False whatever the two values are. *)
Definition key_equals_entry (dependency : state_key) (item : entry) : bool :=
  false.

(** [dependency in state_names_and_params] *)
Definition in_worklist (dependency : state_key) (worklist : list entry)
  : bool :=
  existsb (key_equals_entry dependency) worklist.

(** The inner loop of factory.py:144-146. *)
Definition add_dependencies (deps : list state_key) (worklist : list entry)
  : list entry :=
  fold_left
    (fun wl dependency =>
       if negb (in_worklist dependency wl)
       then wl ++ [(dependency, [])]
       else wl)
    deps worklist.

(** The first loop of factory.py:136-137, over [abilities.items()]. *)
Fixpoint extend_with_abilities (worklist : list entry)
    (abilities : list (string * kwargs)) : result (list entry) :=
  match abilities with
  | [] => Ok worklist
  | (ability, params) :: rest =>
      names <- get_state_names_for_ability ability ;;
      extend_with_abilities
        (worklist ++ map (fun state_name => (state_name, params)) names) rest
  end.

(** The loop of factory.py:140-146.  The list is iterated by position while
    it grows; [i] is the position of the iterator.  [None] means that the
    fuel ran out before the iterator reached the end of the list. *)
Fixpoint prepare_loop (T : class_table) (fuel : nat) (obj : string)
    (i : nat) (worklist : list entry)
    (states : dict state_key state_instance)
  : option (result (dict state_key state_instance)) :=
  match fuel with
  | O => None
  | S fuel' =>
      match nth_error worklist i with
      | None => Some (Ok states)
      | Some (state_name, params) =>
          (* note: [online] is not forwarded, the default True applies *)
          match get_object_state_instance T state_name obj (Some params) true
          with
          | Raise e => Some (Raise e)
          | Ok inst =>
              let states' := dict_set key_eqb state_name inst states in
              let worklist' :=
                add_dependencies (get_dependencies T (inst_class inst))
                                 worklist in
              prepare_loop T fuel' obj (S i) worklist' states'
          end
      end
  end.

(** [prepare_object_states(obj, abilities, online)]; the result is the
    dictionary left in [obj.states].  [default_iter] is the iteration order
    of the set returned by [get_default_state_names()]. *)
Definition prepare_object_states (T : class_table) (fuel : nat)
    (default_iter : list state_key) (obj : string)
    (abilities : option (list (string * kwargs))) (online : bool)
  : option (result (dict state_key state_instance)) :=
  let abilities := match abilities with Some a => a | None => [] end in
  let state_names_and_params : list entry :=
    map (fun state_name => (state_name, []))
        (get_default_state_names default_iter) in
  match extend_with_abilities state_names_and_params abilities with
  | Raise e => Some (Raise e)
  | Ok worklist => prepare_loop T fuel obj 0 worklist []
  end.

(** ** The dependency graph (factory.py:149-165) *)

(** A [networkx.DiGraph] restricted to what the factory uses: the successor
    dictionary, in node insertion order. *)
Definition digraph : Type := dict state_key (list state_key).

Definition nodes (G : digraph) : list state_key := dict_keys G.

Definition successors (G : digraph) (u : state_key) : list state_key :=
  match dict_get key_eqb u G with
  | Some nbrs => nbrs
  | None => []
  end.

Definition add_node (G : digraph) (n : state_key) : digraph :=
  if dict_mem key_eqb n G then G else G ++ [(n, [])].

Definition add_edge (G : digraph) (u v : state_key) : digraph :=
  let G := add_node G u in
  let G := add_node G v in
  if mem v (successors G u) then G
  else dict_set key_eqb u (successors G u ++ [v]) G.

(** [nx.DiGraph(d)] for a dictionary of lists: all keys become nodes first,
    then one edge per listed neighbour. *)
Definition from_dict_of_lists (d : dict state_key (list state_key))
  : digraph :=
  let G := fold_left add_node (dict_keys d) [] in
  fold_left (fun G e => add_edge G (fst e) (snd e))
    (flat_map (fun item => map (pair (fst item)) (snd item)) d) G.

Definition in_degree (G : digraph) (v : state_key) : nat :=
  length (filter (fun u => mem v (successors G u)) (nodes G)).

(** [zero_indegree.pop()] in networkx 2.5 takes the last element; the later
    releases walk the list front to back, generation after generation. *)
Definition pop {A : Type} (lifo : bool) (l : list A) : option (A * list A) :=
  match l with
  | [] => None
  | x :: l' => if lifo then Some (last l x, removelast l) else Some (x, l')
  end.

(** The loop over the children of an emitted node. *)
Fixpoint relax (children : list state_key) (indegree_map : dict state_key nat)
    (zero_indegree : list state_key)
  : result (dict state_key nat * list state_key) :=
  match children with
  | [] => Ok (indegree_map, zero_indegree)
  | child :: rest =>
      match dict_get key_eqb child indegree_map with
      | None => Raise RuntimeError
      | Some d =>
          let indegree_map := dict_set key_eqb child (d - 1) indegree_map in
          if (d - 1 =? 0)%nat then
            relax rest (dict_del key_eqb child indegree_map)
                  (zero_indegree ++ [child])
          else relax rest indegree_map zero_indegree
      end
  end.

Fixpoint kahn (lifo : bool) (G : digraph) (fuel : nat)
    (indegree_map : dict state_key nat) (zero_indegree : list state_key)
    (emitted : list state_key) : option (result (list state_key)) :=
  match fuel with
  | O => None
  | S fuel' =>
      match pop lifo zero_indegree with
      | None =>
          match indegree_map with
          | [] => Some (Ok emitted)
          | _ :: _ => Some (Raise NetworkXUnfeasible)
          end
      | Some (node, zero_indegree') =>
          match relax (successors G node) indegree_map zero_indegree' with
          | Raise e => Some (Raise e)
          | Ok (indegree_map', zero_indegree'') =>
              kahn lifo G fuel' indegree_map' zero_indegree''
                   (emitted ++ [node])
          end
      end
  end.

(** Modelled from the spec: [networkx.algorithms.topological_sort] is not
    part of the sources.  The spec asks for an order in which, for every
    edge, the source comes before the target, and for a failure when the
    graph is not a DAG; networkx computes it with Kahn's algorithm, which is
    what is written here (in-degree map, list of nodes of in-degree zero,
    NetworkXUnfeasible when nodes are left over).  [None] is fuel
    exhaustion, which [topological_sort_total] rules out. *)
Definition topological_sort (lifo : bool) (G : digraph)
  : option (result (list state_key)) :=
  let indegree_map :=
    flat_map (fun v => if (in_degree G v =? 0)%nat then []
                       else [(v, in_degree G v)]) (nodes G) in
  let zero_indegree :=
    filter (fun v => (in_degree G v =? 0)%nat) (nodes G) in
  kahn lifo G (S (length G)) indegree_map zero_indegree [].

(** [all_iter] is the iteration order of [get_all_state_names()]. *)
Definition get_state_dependency_graph (T : class_table)
    (all_iter : list state_key) : result digraph :=
  dependencies <-
    mapM (fun state_name =>
            match dict_get key_eqb state_name _STATE_NAME_TO_CLASS_MAPPING with
            | None => Raise KeyError
            | Some cls =>
                Ok (state_name,
                    get_dependencies T cls ++ get_optional_dependencies T cls)
            end)
         (get_all_state_names all_iter) ;;
  Ok (from_dict_of_lists dependencies).

Definition get_states_by_dependency_order (lifo : bool) (T : class_table)
    (all_iter : list state_key) : option (result (list state_key)) :=
  match get_state_dependency_graph T all_iter with
  | Raise e => Some (Raise e)
  | Ok G =>
      match topological_sort lifo G with
      | None => None
      | Some (Raise e) => Some (Raise e)
      | Some (Ok order) => Some (Ok (rev order))
      end
  end.

(** [l.index(k)]: the first position of [k] in [l] ([length l] when
    absent). *)
Fixpoint index (k : state_key) (l : list state_key) : nat :=
  match l with
  | [] => 0
  | x :: l' => if key_eqb k x then 0 else S (index k l')
  end.

(** [a] appears strictly before [b] in [l]. *)
Definition before (a b : state_key) (l : list state_key) : Prop :=
  In a l /\ In b l /\ index a l < index b l.

(** ** Scene objects and the state index (igibson_indoor_scene.py) *)

Definition vec3 : Type := (Q * Q * Q)%type.
Definition coord_x (p : vec3) : Q := fst (fst p).
Definition coord_y (p : vec3) : Q := snd (fst p).
Definition coord_z (p : vec3) : Q := snd p.

(** An axis-aligned bounding box [(lower, upper)]. *)
Definition aabb : Type := (vec3 * vec3)%type.

(** What [get_value()] of a state attached to an object currently returns. *)
Inductive state_val : Type :=
| BoolVal (b : bool)
| BoxVal (box : aabb)
| NoVal.

Record sim_object : Type := {
  obj_name : string;
  obj_states : dict state_key state_val
}.

(** The two indexes of the scene that the states consult.  The index by
    state holds references to the objects, here their names. *)
Record scene : Type := {
  objects_by_name : dict string sim_object;
  objects_by_state : dict state_key (list string)
}.

Definition empty_scene : scene :=
  {| objects_by_name := []; objects_by_state := [] |}.

(** The part of [add_object] that maintains the two indexes
    (igibson_indoor_scene.py:413-423); names are assumed checked. *)
Definition add_object (obj : sim_object) (sc : scene) : scene :=
  {| objects_by_name :=
       dict_set str_eqb (obj_name obj) obj (objects_by_name sc);
     objects_by_state :=
       fold_left
         (fun idx state =>
            let idx :=
              if negb (dict_mem key_eqb state idx)
              then dict_set key_eqb state [] idx else idx in
            match dict_get key_eqb state idx with
            | Some l => dict_set key_eqb state (l ++ [obj_name obj]) idx
            | None => idx
            end)
         (dict_keys (obj_states obj)) (objects_by_state sc) |}.

Definition get_objects (sc : scene) : list sim_object :=
  map snd (objects_by_name sc).

Definition deref (sc : scene) (names : list string) : list sim_object :=
  flat_map (fun n => match dict_get str_eqb n (objects_by_name sc) with
                     | Some o => [o]
                     | None => []
                     end) names.

Definition get_objects_with_state (sc : scene) (state : state_key)
  : list sim_object :=
  match dict_get key_eqb state (objects_by_state sc) with
  | Some names => deref sc names
  | None => []
  end.

(** ** Particle systems *)

Definition Qltb (a b : Q) : bool := negb (Qle_bool b a).

Record particle : Type := {
  position : vec3;
  active : bool
}.

(** Modelled from the spec: gibson2/objects/particles.py is absent.  A
    population is a fixed collection of particles, each with a position and
    an [active] flag; particles are never destroyed, only deactivated
    ("stashed") and reactivated. *)
Definition particle_system : Type := list particle.

Definition get_num (ps : particle_system) : nat := length ps.

Definition get_active_particles (ps : particle_system) : list particle :=
  filter active ps.

Definition get_num_active (ps : particle_system) : nat :=
  length (get_active_particles ps).

Definition stash_particle (p : particle) : particle :=
  {| position := position p; active := false |}.

Definition activate (p : particle) : particle :=
  {| position := position p; active := true |}.

(** Modelled from the spec: the constructors and the placement routines of
    particles.py, which the states call but whose code is absent.  [Dirt_new]
    is the population that [Dirt(obj)] allocates; [randomize] and [attach]
    reposition a population on the object. *)
Record particle_env : Type := {
  Dirt_new : particle_system;
  randomize : particle_system -> particle_system;
  attach : particle_system -> particle_system
}.

Definition CLEAN_THRESHOLD : Q := 9 # 10.

(** The six assignments under "# inflate aabb", for one axis.  The second
    assignment reads the minimum that the first one has just moved. *)
Definition inflate_axis (amin amax : Q) : Q * Q :=
  let amin := (amin - (amax - amin) * (1 # 10))%Q in
  let amax := (amax + (amax - amin) * (1 # 10))%Q in
  (amin, amax).

Definition inflate (box : aabb) : aabb :=
  let '(lower, upper) := box in
  let '(xmin, xmax) := inflate_axis (coord_x lower) (coord_x upper) in
  let '(ymin, ymax) := inflate_axis (coord_y lower) (coord_y upper) in
  let '(zmin, zmax) := inflate_axis (coord_z lower) (coord_z upper) in
  ((xmin, ymin, zmin), (xmax, ymax, zmax)).

(** The test that guards [stash_particle], on the inflated box. *)
Definition strictly_within (pos : vec3) (box : aabb) : bool :=
  let '(lower, upper) := box in
  Qltb (coord_x lower) (coord_x pos) && Qltb (coord_x pos) (coord_x upper) &&
  Qltb (coord_y lower) (coord_y pos) && Qltb (coord_y pos) (coord_y upper) &&
  Qltb (coord_z lower) (coord_z pos) && Qltb (coord_z pos) (coord_z upper).

(** [object.states[key].get_value()] read as a box. *)
Definition get_aabb_value (key : state_key) (object : sim_object)
  : result aabb :=
  match dict_get key_eqb key (obj_states object) with
  | None => Raise KeyError
  | Some (BoxVal box) => Ok box
  | Some _ => Raise TypeError
  end.

(** The body of the loop over particles, for one cleaning object.  [visit]
    selects the particles the loop iterates over. *)
Definition sweep (key : state_key) (visit : particle -> bool)
    (object : sim_object) (ps : particle_system) : result particle_system :=
  mapM (fun particle =>
          if visit particle then
            box <- get_aabb_value key object ;;
            if strictly_within (position particle) (inflate box)
            then Ok (stash_particle particle)
            else Ok particle
          else Ok particle) ps.

Fixpoint sweep_all (key : state_key) (visit : particle -> bool)
    (objects : list sim_object) (ps : particle_system)
  : result particle_system :=
  match objects with
  | [] => Ok ps
  | object :: rest =>
      ps' <- sweep key visit object ps ;;
      sweep_all key visit rest ps'
  end.

(** [num_active > num * CLEAN_THRESHOLD] *)
Definition above_threshold (ps : particle_system) : bool :=
  Qltb (inject_Z (Z.of_nat (get_num ps)) * CLEAN_THRESHOLD)
       (inject_Z (Z.of_nat (get_num_active ps))).

(** ** dirty.py *)

Record Dirty_state : Type := {
  dirty_value : bool;
  dust : particle_system
}.

Definition Dirty_get_value (self : Dirty_state) : bool := dirty_value self.

Definition Dirty_set_value (env : particle_env) (new_value : bool)
    (self : Dirty_state) : Dirty_state :=
  if new_value then
    {| dirty_value := true; dust := map activate (attach env (dust self)) |}
  else
    {| dirty_value := false; dust := map stash_particle (dust self) |}.

Definition Dirty_update (sc : scene) (self : Dirty_state)
  : result Dirty_state :=
  let cleaning_tools := get_objects_with_state sc (Name "cleaning_tool") in
  dust' <- sweep_all (Name "aabb") (fun _ => true) cleaning_tools (dust self) ;;
  Ok {| dirty_value := above_threshold dust'; dust := dust' |}.

(** ** stained.py *)

Record Stained_state : Type := {
  prev_value : bool;
  stained_value : bool;
  stain : option particle_system
}.

Definition Stained_init : Stained_state :=
  {| prev_value := false; stained_value := false; stain := None |}.

Definition Stained_get_value (self : Stained_state) : bool :=
  stained_value self.

(** The assignment to [self.value] is done before the loop is entered, so
    the state is returned together with the outcome. *)
Definition Stained_set_value (new_value : bool) (self : Stained_state)
  : result unit * Stained_state :=
  let self := {| prev_value := prev_value self;
                 stained_value := new_value;
                 stain := stain self |} in
  if negb (stained_value self) then
    match stain self with
    | None => (Raise AttributeError, self)
    | Some ps =>
        (Ok tt, {| prev_value := prev_value self;
                   stained_value := stained_value self;
                   stain := Some (map stash_particle ps) |})
    end
  else (Ok tt, self).

(** [truthiness] of a state value. *)
Definition truthy (v : state_val) : bool :=
  match v with
  | BoolVal b => b
  | BoxVal _ => true
  | NoVal => false
  end.

Definition is_wet (tool : sim_object) : bool :=
  match dict_get key_eqb (Class Soaked) (obj_states tool) with
  | Some v => truthy v
  | None => false
  end.

(** [simulator.import_particle_system(self.stain)] hands the new population
    to the renderer; it changes nothing that the state reads and is left
    out. *)
Definition Stained_update (env : particle_env) (sc : scene)
    (self : Stained_state) : result Stained_state :=
  if negb (stained_value self) then Ok self
  else
    let stain0 := match stain self with
                  | None => Dirt_new env
                  | Some ps => ps
                  end in
    let stain1 := if stained_value self && negb (prev_value self)
                  then randomize env stain0 else stain0 in
    let cleaning_tools := get_objects_with_state sc (Class CleaningTool) in
    let cleaning_tools_wet := filter is_wet cleaning_tools in
    stain2 <- sweep_all (Class AABB) active cleaning_tools_wet stain1 ;;
    Ok {| prev_value := stained_value self;
          stained_value := above_threshold stain2;
          stain := Some stain2 |}.

(** ** inside.py *)

(** Modelled from the spec: the four helpers imported from
    gibson2/external/pybullet_tools/utils.py, which is absent: the centre
    of a box, its extents, its volume, and whether a point lies within it
    (bounds included). *)
Definition get_aabb_center (box : aabb) : vec3 :=
  let '(lower, upper) := box in
  (((coord_x lower + coord_x upper) / 2)%Q,
   ((coord_y lower + coord_y upper) / 2)%Q,
   ((coord_z lower + coord_z upper) / 2)%Q).

Definition get_aabb_extent (box : aabb) : vec3 :=
  let '(lower, upper) := box in
  ((coord_x upper - coord_x lower)%Q,
   (coord_y upper - coord_y lower)%Q,
   (coord_z upper - coord_z lower)%Q).

Definition get_aabb_volume (box : aabb) : Q :=
  let e := get_aabb_extent box in
  (coord_x e * coord_y e * coord_z e)%Q.

Definition aabb_contains_point (point : vec3) (container : aabb) : bool :=
  let '(lower, upper) := container in
  (Qle_bool (coord_x lower) (coord_x point) &&
   Qle_bool (coord_y lower) (coord_y point) &&
   Qle_bool (coord_z lower) (coord_z point)) &&
  (Qle_bool (coord_x point) (coord_x upper) &&
   Qle_bool (coord_y point) (coord_y upper) &&
   Qle_bool (coord_z point) (coord_z upper)).

Definition b2n (b : bool) : nat := if b then 1 else 0.

(** [np.sum(np.less_equal(extentA, extentB))] *)
Definition count_less_equal (a b : vec3) : nat :=
  b2n (Qle_bool (coord_x a) (coord_x b)) +
  b2n (Qle_bool (coord_y a) (coord_y b)) +
  b2n (Qle_bool (coord_z a) (coord_z b)).

(** The computation of inside.py:30-35 on the two boxes. *)
Definition inside_of_boxes (aabbA aabbB : aabb) : bool :=
  let center_inside := aabb_contains_point (get_aabb_center aabbA) aabbB in
  let volume_lesser := Qltb (get_aabb_volume aabbA) (get_aabb_volume aabbB) in
  let extentA := get_aabb_extent aabbA in
  let extentB := get_aabb_extent aabbB in
  let two_dimensions_lesser := 2 <=? count_less_equal extentA extentB in
  let above := center_inside && Qle_bool (coord_z (snd aabbB))
                                         (coord_z (fst aabbA)) in
  (center_inside && volume_lesser && two_dimensions_lesser) || above.

Definition Inside_get_value (obj other : sim_object) : result bool :=
  let objA_states := obj_states obj in
  let objB_states := obj_states other in
  if negb (dict_mem key_eqb (Class AABB) objA_states) then Raise AssertionError
  else if negb (dict_mem key_eqb (Class AABB) objB_states)
  then Raise AssertionError
  else
    aabbA <- get_aabb_value (Class AABB) obj ;;
    aabbB <- get_aabb_value (Class AABB) other ;;
    Ok (inside_of_boxes aabbA aabbB).

(** ** contact_bodies.py *)

(** The cached value of a caching-enabled state; [None] when the cache is
    clear.  A contact point is kept abstract. *)
Record ContactBodies_state : Type := {
  cached_value : option (list Z)
}.

(** A method that may raise and may change the state. *)
Definition method (S A : Type) : Type := S -> result A * S.

Definition raise {S A : Type} (e : exn) : method S A :=
  fun s => (Raise e, s).

Definition ContactBodies_set_value (new_value : list Z)
  : method ContactBodies_state unit :=
  raise NotImplementedError.

(** ** simulator.py *)

(** The fields of [Simulator] that a step reads, for a simulator whose
    scene has been loaded ([self.scene] is not None, which [step_vr]
    asserts). *)
Record simulator : Type := {
  can_access_vr_context : bool;
  render_timestep : Q;
  physics_timestep : Q;
  num_phys_steps : nat;
  object_state_names : list state_key;
  sim_scene : scene
}.

(** What a step does, in order.  One [NonPhysicsStep] is one call of
    [_non_physics_step]; it carries the [update] calls it makes, each as the
    state identifier and the name of the object.  The calls are recorded,
    not run: the trace of a step is that of a step whose calls all return,
    and an exception raised inside one of them would end the step there. *)
Inductive event : Type :=
| StepSimulation
| NonPhysicsStep (updates : list (state_key * string))
| Sync
| SyncVrCompositor
| PollVrEvents
| FixEyeTrackingValue
| PerformVrStartPosMove
| UpdateVrData.

Definition _non_physics_step (self : simulator) : event :=
  NonPhysicsStep
    (flat_map
       (fun state_name =>
          flat_map
            (fun obj =>
               if dict_mem key_eqb state_name (obj_states obj)
               then [(state_name, obj_name obj)] else [])
            (get_objects (sim_scene self)))
       (object_state_names self)).

(** [for _ in range(n): p.stepSimulation(); self._non_physics_step()] *)
Fixpoint physics_loop (self : simulator) (n : nat) : list event :=
  match n with
  | O => []
  | S n' => StepSimulation :: _non_physics_step self :: physics_loop self n'
  end.

Definition step_vr (self : simulator) : list event :=
  physics_loop self (num_phys_steps self) ++
  [Sync; SyncVrCompositor; PollVrEvents; FixEyeTrackingValue;
   PerformVrStartPosMove; UpdateVrData].

(** [int(x)]: truncation towards zero. *)
Definition int_of_Q (x : Q) : Z := Z.quot (Qnum x) (Zpos (Qden x)).

(** [forced_timestep if forced_timestep else
     max(1, int(self.render_timestep / self.physics_timestep))].
    The timesteps are exact rationals, so of the exceptions of the
    expression only the division by zero is modelled: on floats the
    quotient is rounded before it is truncated, and it can be infinite or
    nan, on which [int] raises OverflowError or ValueError. *)
Definition physics_timestep_num (self : simulator) (forced_timestep : option Z)
  : result Z :=
  match forced_timestep with
  | Some n => if (n =? 0)%Z then
                if Qeq_bool (physics_timestep self) 0 then Raise ZeroDivisionError
                else Ok (Z.max 1 (int_of_Q (render_timestep self /
                                            physics_timestep self)))
              else Ok n
  | None => if Qeq_bool (physics_timestep self) 0 then Raise ZeroDivisionError
            else Ok (Z.max 1 (int_of_Q (render_timestep self /
                                        physics_timestep self)))
  end.

Definition step (self : simulator) (forced_timestep : option Z)
  : result (list event) :=
  if can_access_vr_context self then Ok (step_vr self)
  else
    n <- physics_timestep_num self forced_timestep ;;
    Ok (physics_loop self (Z.to_nat n) ++ [Sync]).

(** ** Vocabulary of the statements *)

Definition class_of (k : state_key) : option state_class :=
  dict_get key_eqb k _STATE_NAME_TO_CLASS_MAPPING.

(** The required dependencies declared for an identifier. *)
Definition required_of (T : class_table) (k : state_key) : list state_key :=
  match class_of k with
  | Some c => get_dependencies T c
  | None => []
  end.

(** Required and optional dependencies declared for an identifier. *)
Definition declared_of (T : class_table) (k : state_key) : list state_key :=
  match class_of k with
  | Some c => get_dependencies T c ++ get_optional_dependencies T c
  | None => []
  end.

(** The identifiers a prepared object is expected to carry: the default
    states, the states implied by a declared ability, and the required
    dependencies of an expected identifier. *)
Inductive expected_key (T : class_table) (abilities : list (string * kwargs))
  : state_key -> Prop :=
| expected_default k :
    In k _DEFAULT_STATE_SET -> expected_key T abilities k
| expected_ability a p names k :
    In (a, p) abilities ->
    dict_get str_eqb a _ABILITY_TO_STATE_MAPPING = Some names ->
    In k names ->
    expected_key T abilities k
| expected_required k d :
    expected_key T abilities k ->
    In d (required_of T k) ->
    expected_key T abilities d.

(** Everything reachable from [start] along required dependencies. *)
Inductive reach (T : class_table) (start : list state_key)
  : state_key -> Prop :=
| reach_start k : In k start -> reach T start k
| reach_step k d : reach T start k -> In d (required_of T k) -> reach T start d.

(** A request that the factory can serve.  [allowed] is a set of registered
    identifiers that holds the default states and the states of every
    declared ability and is closed under required dependencies, and [rank]
    decreases along every required dependency.  Every declared ability is a
    key of the ability table, and every constructor takes the keywords it
    is called with: none for a default state and for a required dependency,
    the keywords of the ability for a state of that ability. *)
Record servable (T : class_table) (abilities : list (string * kwargs))
    (allowed : list state_key) (rank : state_key -> nat) : Prop := {
  servable_closed :
    forall k, In k allowed ->
      exists c, class_of k = Some c /\
                forall d, In d (get_dependencies T c) ->
                          In d allowed /\ rank d < rank k /\
                          exists cd, class_of d = Some cd /\
                                     accepts T cd [] = true;
  servable_defaults :
    forall k, In k _DEFAULT_STATE_SET ->
      In k allowed /\
      exists c, class_of k = Some c /\ accepts T c [] = true;
  servable_abilities :
    forall a p, In (a, p) abilities ->
      exists names,
        dict_get str_eqb a _ABILITY_TO_STATE_MAPPING = Some names /\
        forall k, In k names ->
          In k allowed /\
          exists c, class_of k = Some c /\ accepts T c p = true
}.

(** An edge of the registered dependency relation: [k] is registered and
    declares [d], as a required or as an optional dependency. *)
Definition depends_on (T : class_table) (k d : state_key) : Prop :=
  In k (dict_keys _STATE_NAME_TO_CLASS_MAPPING) /\ In d (declared_of T k).

(** A table used to exercise the statements: the two rows of the sources plus
    a plausible filling of the absent ones. *)
Definition sample_table : class_table :=
  {| other_dependencies :=
       fun c => match c with
                | AABB => [Name "pose"]
                | OnTop | Inside | NextTo | Under =>
                    [Name "pose"; Name "aabb"; Name "contact_bodies"]
                | Touching => [Name "contact_bodies"]
                | CleaningTool => [Name "aabb"]
                | Cooked | Burnt => [Name "maxTemperature"]
                | MaxTemperature => [Name "temperature"]
                | _ => []
                end;
     other_optional_dependencies :=
       fun c => match c with
                | Temperature => [Name "heatSource"]
                | Soaked => [Name "water_source"]
                | _ => []
                end;
     other_accepts := fun _ _ => true |}.

(** A table with an artificial cycle: pose requires aabb and aabb requires
    pose. *)
Definition cyclic_table : class_table :=
  {| other_dependencies :=
       fun c => match c with
                | Pose => [Name "aabb"]
                | AABB => [Name "pose"]
                | _ => []
                end;
     other_optional_dependencies := fun _ => [];
     other_accepts := fun _ _ => true |}.

(** ** Vocabulary of the proofs and sample data *)

(** The entry appended for a dependency: the identifier with empty
    keywords. *)
Definition dep_entry (d : state_key) : entry := (d, []).

(** The entries that the declared abilities contribute. *)
Definition ability_entries (abilities : list (string * kwargs)) : list entry :=
  flat_map
    (fun ap => match dict_get str_eqb (fst ap) _ABILITY_TO_STATE_MAPPING with
               | Some names => map (fun n => (n, snd ap)) names
               | None => []
               end) abilities.

(** An entry of the work list whose constructor call succeeds. *)
Definition buildable (T : class_table) (e : entry) : Prop :=
  exists c, class_of (fst e) = Some c /\ accepts T c (snd e) = true.

(** The instance that the factory builds for an entry. *)
Definition built (e : entry) : state_instance :=
  match class_of (fst e) with
  | Some c => {| inst_class := c; inst_params := snd e |}
  | None => {| inst_class := DummyState; inst_params := [] |}
  end.

(** [obj.states[state_name] = instance] for an entry. *)
Definition store (states : dict state_key state_instance) (e : entry)
  : dict state_key state_instance :=
  dict_set key_eqb (fst e) (built e) states.

(** The request used to exercise the theorem: a dustable object. *)
Definition dustable_allowed : list state_key :=
  [ Name "onTop"; Name "inside"; Name "nextTo"; Name "under";
    Name "touching"; Name "open"; Name "dirty"; Name "pose"; Name "aabb";
    Name "contact_bodies" ].

Definition dustable_rank (k : state_key) : nat :=
  if key_eqb k (Name "pose") then 0
  else if key_eqb k (Name "contact_bodies") then 0
  else if key_eqb k (Name "aabb") then 1
  else 2.

(** A table in which a heat source cannot be built without keywords. *)
Definition heater_table : class_table :=
  {| other_dependencies := other_dependencies sample_table;
     other_optional_dependencies := other_optional_dependencies sample_table;
     other_accepts :=
       fun c p => match c, p with
                  | HeatSource, [] => false
                  | _, _ => true
                  end |}.

(** A dustable heat source with its temperature. *)
Definition heater_abilities : list (string * kwargs) :=
  [ ("heatSource", [("temperature", PInt 200)]); ("dustable", []) ].

Definition heater_allowed : list state_key :=
  dustable_allowed ++ [Name "heatSource"].

(** The successor lists have no repetition and stay within the nodes, which
    are themselves pairwise distinct. *)
Definition graph_wf (G : digraph) : Prop :=
  NoDup (nodes G) /\
  forall u, NoDup (successors G u) /\
            forall v, In v (successors G u) -> In v (nodes G).

Definition edge_list (d : dict state_key (list state_key))
  : list (state_key * state_key) :=
  flat_map (fun item => map (pair (fst item)) (snd item)) d.

(** The predecessors of [v] that have not been emitted yet. *)
Definition pending (G : digraph) (out : list state_key) (v : state_key) : nat :=
  length (filter (fun u => mem v (successors G u) && negb (mem u out))
                 (nodes G)).

(** The entry of [child] is about to reach zero. *)
Definition last_pending (m : dict state_key nat) (child : state_key) : bool :=
  match dict_get key_eqb child m with
  | Some 1 => true
  | _ => false
  end.

(** The entry of [v] after one decrement; it is deleted when it reaches
    zero. *)
Definition decremented (m : dict state_key nat) (v : state_key) : option nat :=
  match dict_get key_eqb v m with
  | Some (S (S d)) => Some (S d)
  | _ => None
  end.

(** The loop invariant: [out] has been emitted, [zero] waits, and the map
    holds, for every other node, how many of its predecessors are still to
    be emitted. *)
Record kahn_inv (G : digraph) (m : dict state_key nat)
    (zero out : list state_key) : Prop := {
  inv_nodup : NoDup (out ++ zero);
  inv_nodes : forall v, In v (out ++ zero) -> In v (nodes G);
  inv_map_nodup : NoDup (dict_keys m);
  inv_map : forall v,
      dict_get key_eqb v m =
      if pending G out v =? 0 then None else Some (pending G out v);
  inv_zero : forall v, In v (nodes G) ->
                       (In v (out ++ zero) <-> pending G out v = 0);
  inv_order : forall u v, In v (successors G u) -> In v out -> before u v out
}.

(** A topological order of [G]: every node once, every edge forwards. *)
Definition topological_order (G : digraph) (order : list state_key) : Prop :=
  NoDup order /\
  (forall v, In v order <-> In v (nodes G)) /\
  forall u v, In v (successors G u) -> before u v order.

(** What the run ends with: a topological order, or NetworkXUnfeasible with
    a node left over although no remaining node is free of pending
    predecessors. *)
Definition kahn_outcome (G : digraph) (r : option (result (list state_key)))
  : Prop :=
  (exists order, r = Some (Ok order) /\ topological_order G order) \/
  (r = Some (Raise NetworkXUnfeasible) /\
   exists out v,
     (forall x, In x (nodes G) -> (In x out <-> pending G out x = 0)) /\
     pending G out v <> 0).

Definition dependency_dict (T : class_table) (all_iter : list state_key)
  : dict state_key (list state_key) :=
  map (fun n => (n, declared_of T n)) all_iter.

Definition origin : vec3 := (0%Q, 0%Q, 0%Q).

(** A population of 100 particles, 90 of them active. *)
Definition ninety_of_hundred : particle_system :=
  repeat {| position := origin; active := true |} 90 ++
  repeat {| position := origin; active := false |} 10.

Definition plain_env : particle_env :=
  {| Dirt_new := []; randomize := fun ps => ps; attach := fun ps => ps |}.

(** Every key of the index by state is a name string. *)
Definition name_keyed (sc : scene) : Prop :=
  forall k, In k (dict_keys (objects_by_state sc)) -> exists s, k = Name s.

Definition cube (lo hi : Q) : aabb := ((lo, lo, lo), (hi, hi, hi)).

Definition speck (pos : vec3) : particle :=
  {| position := pos; active := true |}.

(** A wet cleaning tool as the factory prepares it: its states are stored
    under their names. *)
Definition sponge : sim_object :=
  {| obj_name := "sponge";
     obj_states :=
       [ (Name "onTop", NoVal); (Name "inside", NoVal);
         (Name "nextTo", NoVal); (Name "under", NoVal);
         (Name "touching", NoVal); (Name "open", NoVal);
         (Name "cleaning_tool", NoVal);
         (Name "soaked", BoolVal true);
         (Name "aabb", BoxVal (cube (-1) 1)) ] |}.

Definition kitchen : scene := add_object sponge empty_scene.

(** The same tool with its states stored under the class objects, which is
    what stained.py looks up. *)
Definition sponge_by_class : sim_object :=
  {| obj_name := "sponge";
     obj_states :=
       [ (Class CleaningTool, NoVal);
         (Class Soaked, BoolVal true);
         (Class AABB, BoxVal (cube (-1) 1)) ] |}.

(** The inflation as the specification words it: minimum and maximum each move
    outwards by 10% of the original extent. *)
Definition inflate_axis_by_tenth (amin amax : Q) : Q * Q :=
  ((amin - (1 # 10) * (amax - amin))%Q, (amax + (1 # 10) * (amax - amin))%Q).

Definition mop : sim_object :=
  {| obj_name := "mop";
     obj_states := [ (Name "cleaning_tool", NoVal);
                     (Name "aabb", BoxVal (cube 0 10)) ] |}.

(** Some box of the list, once inflated, strictly contains the position. *)
Definition hit (boxes : list aabb) (p : particle) : bool :=
  existsb (fun box => strictly_within (position p) (inflate box)) boxes.

Definition within (lo x hi : Q) : Prop := (lo <= x)%Q /\ (x <= hi)%Q.

(** The centre of [a] lies within [b], bounds included. *)
Definition center_within (a b : aabb) : Prop :=
  let c := get_aabb_center a in
  within (coord_x (fst b)) (coord_x c) (coord_x (snd b)) /\
  within (coord_y (fst b)) (coord_y c) (coord_y (snd b)) /\
  within (coord_z (fst b)) (coord_z c) (coord_z (snd b)).

(** The centre of [a] lies within the footprint of [b]: the x and y ranges
    only. *)
Definition center_in_footprint (a b : aabb) : Prop :=
  let c := get_aabb_center a in
  within (coord_x (fst b)) (coord_x c) (coord_x (snd b)) /\
  within (coord_y (fst b)) (coord_y c) (coord_y (snd b)).

Definition volume_smaller (a b : aabb) : Prop :=
  (get_aabb_volume a < get_aabb_volume b)%Q.

(** At least two of the three extents of [a] are at most those of [b]. *)
Definition two_extents_fit (a b : aabb) : Prop :=
  let ea := get_aabb_extent a in
  let eb := get_aabb_extent b in
  ((coord_x ea <= coord_x eb)%Q /\ (coord_y ea <= coord_y eb)%Q) \/
  ((coord_x ea <= coord_x eb)%Q /\ (coord_z ea <= coord_z eb)%Q) \/
  ((coord_y ea <= coord_y eb)%Q /\ (coord_z ea <= coord_z eb)%Q).

(** The bottom of [a] is at or above the top of [b]. *)
Definition bottom_above_top (a b : aabb) : Prop :=
  (coord_z (snd b) <= coord_z (fst a))%Q.

(** The relation as C7 words it. *)
Definition claimed_inside (a b : aabb) : Prop :=
  (center_within a b /\ volume_smaller a b /\ two_extents_fit a b) \/
  (center_in_footprint a b /\ bottom_above_top a b).

(** The relation that the code computes: in the second case too the centre
    has to lie within the whole box. *)
Definition computed_inside (a b : aabb) : Prop :=
  (center_within a b /\ volume_smaller a b /\ two_extents_fit a b) \/
  (center_within a b /\ bottom_above_top a b).

Definition boxed (name : string) (box : aabb) : sim_object :=
  {| obj_name := name; obj_states := [(Class AABB, BoxVal box)] |}.

Definition unit_cube : aabb := cube 0 1.

(** A unit cube standing on top of the unit cube. *)
Definition cube_on_top : aabb := ((0, 0, 1)%Q, (1, 1, 2)%Q).

(** An object whose box is stored under the name "aabb", as the factory
    stores it. *)
Definition boxed_by_name (name : string) (box : aabb) : sim_object :=
  {| obj_name := name; obj_states := [(Name "aabb", BoxVal box)] |}.

Definition is_pass (e : event) : bool :=
  match e with NonPhysicsStep _ => true | _ => false end.

Definition is_substep (e : event) : bool :=
  match e with StepSimulation => true | _ => false end.

Definition count_passes (tr : list event) : nat := length (filter is_pass tr).

Definition count_substeps (tr : list event) : nat :=
  length (filter is_substep tr).

(** The number of physics substeps of a call of [step]. *)
Definition substeps (self : simulator) (forced_timestep : option Z) : nat :=
  if can_access_vr_context self then num_phys_steps self
  else match physics_timestep_num self forced_timestep with
       | Ok n => Z.to_nat n
       | Raise _ => 0
       end.

(** The step as C8 words it: all the physics substeps, then one pass, then
    the renderer sync. *)
Definition one_pass_after_physics (tr : list event) : Prop :=
  exists n updates rest,
    tr = repeat StepSimulation n ++ NonPhysicsStep updates :: Sync :: rest.

(** What the code does: every substep is followed by a pass of its own. *)
Definition pass_after_each_substep (self : simulator) (n : nat)
  : list event :=
  concat (repeat [StepSimulation; _non_physics_step self] n).

(** A simulator with the default timesteps of [Simulator.__init__]: 1/120
    for the physics and 1/30 for the rendering. *)
Definition default_simulator : simulator :=
  {| can_access_vr_context := false;
     render_timestep := 1 # 30;
     physics_timestep := 1 # 120;
     num_phys_steps := 1;
     object_state_names := [Name "aabb"; Name "soaked"; Name "cleaning_tool"];
     sim_scene := kitchen |}.

(** [b] is a required dependency declared for [a]. *)
Definition requires (T : class_table) (a b : state_key) : Prop :=
  In b (required_of T a).

(** A chain of [n] required dependencies starts at [k]. *)
Inductive chain_from (T : class_table) : state_key -> nat -> Prop :=
| chain_end k : chain_from T k 0
| chain_next k d n :
    requires T k d -> chain_from T d n -> chain_from T k (S n).

(** A rank for the sample table: every declared dependency ranks below the
    state that declares it. *)
Definition sample_rank (k : state_key) : nat :=
  match k with
  | Class _ => 0
  | Name s =>
      if existsb (String.eqb s)
           ["pose"; "contact_bodies"; "heatSource"; "water_source";
            "open"; "toggled_on"]
      then 0
      else if existsb (String.eqb s) ["aabb"; "temperature"; "soaked";
                                      "stained"; "touching"]
      then 1
      else if existsb (String.eqb s) ["maxTemperature"; "cleaning_tool"]
      then 2
      else 3
  end.

(** A table in which cooked requires heatSource. *)
Definition stove_table : class_table :=
  {| other_dependencies :=
       fun c => match c with
                | Cooked => [Name "heatSource"]
                | _ => []
                end;
     other_optional_dependencies := fun _ => [];
     other_accepts := fun _ _ => true |}.

(** An object that is a heat source, with a temperature, and cookable. *)
Definition stove_abilities : list (string * kwargs) :=
  [ ("heatSource", [("temperature", PInt 200)]); ("cookable", []) ].

Definition stove_allowed : list state_key :=
  [ Name "onTop"; Name "inside"; Name "nextTo"; Name "under";
    Name "touching"; Name "open"; Name "cooked"; Name "heatSource" ].

Definition stove_rank (k : state_key) : nat :=
  if key_eqb k (Name "heatSource") then 0 else 1.

(** [state in obj.states] *)
Definition carries (k : state_key) (o : sim_object) : bool :=
  dict_mem key_eqb k (obj_states o).

(** The scene obtained by adding the objects one after the other. *)
Definition populate (objs : list sim_object) : scene :=
  fold_left (fun sc o => add_object o sc) objs empty_scene.

Definition by_name (objs : list sim_object) : dict string sim_object :=
  map (fun o => (obj_name o, o)) objs.

(** The entry of the index by state for [k] when the scene holds [objs]. *)
Definition index_entry (k : state_key) (objs : list sim_object)
  : option (list string) :=
  match filter (carries k) objs with
  | [] => None
  | l => Some (map obj_name l)
  end.

(** The default simulator with its physics timestep set to zero. *)
Definition stalled_simulator : simulator :=
  {| can_access_vr_context := false;
     render_timestep := render_timestep default_simulator;
     physics_timestep := 0;
     num_phys_steps := num_phys_steps default_simulator;
     object_state_names := object_state_names default_simulator;
     sim_scene := sim_scene default_simulator |}.

(** The [update] calls of one pass, in the order they are made. *)
Definition pass_updates (self : simulator) : list (state_key * string) :=
  match _non_physics_step self with
  | NonPhysicsStep updates => updates
  | _ => []
  end.

(** The calls made for one state identifier. *)
Definition updates_of (objects : list sim_object) (state_name : state_key)
  : list (state_key * string) :=
  flat_map (fun obj => if dict_mem key_eqb state_name (obj_states obj)
                       then [(state_name, obj_name obj)] else [])
           objects.


(** The dependency order of the sample table. *)
Definition sample_order : list state_key :=
  match get_states_by_dependency_order true sample_table
          (dict_keys _STATE_NAME_TO_CLASS_MAPPING) with
  | Some (Ok order) => order
  | _ => []
  end.

Definition scheduled_simulator : simulator :=
  {| can_access_vr_context := false;
     render_timestep := 1 # 30;
     physics_timestep := 1 # 120;
     num_phys_steps := 1;
     object_state_names := sample_order;
     sim_scene := populate [sponge; mop] |}.

(** [p'] is [p] left alone or stashed. *)
Definition settled (p p' : particle) : Prop :=
  p' = p \/ p' = stash_particle p.

(** A cleaning tool that carries no "aabb" state. *)
Definition rag : sim_object :=
  {| obj_name := "rag"; obj_states := [(Name "cleaning_tool", NoVal)] |}.

(** A cleaning tool that is not soaked, stored under the class objects. *)
Definition dry_cloth : sim_object :=
  {| obj_name := "cloth";
     obj_states :=
       [ (Class CleaningTool, NoVal);
         (Class Soaked, BoolVal false);
         (Class AABB, BoxVal (cube 4 6)) ] |}.

(* ===================================================================== *)
(** * Part II. Properties                                                 *)
(* ===================================================================== *)

(** ** Keys and dictionaries *)

Lemma key_eqb_true (a b : state_key) : key_eqb a b = true <-> a = b.
Proof.
  unfold key_eqb. destruct (state_key_eq_dec a b); split; congruence.
Qed.

Lemma key_eqb_false (a b : state_key) : key_eqb a b = false <-> a <> b.
Proof.
  unfold key_eqb. destruct (state_key_eq_dec a b); split; congruence.
Qed.

Lemma key_eqb_refl (a : state_key) : key_eqb a a = true.
Proof. now apply key_eqb_true. Qed.

Lemma mem_In (k : state_key) (l : list state_key) : mem k l = true <-> In k l.
Proof.
  unfold mem. rewrite existsb_exists. split.
  - intros [x [Hx He]]. apply key_eqb_true in He. now subst.
  - intros H. exists k. split; [assumption | apply key_eqb_refl].
Qed.

Lemma mem_false (k : state_key) (l : list state_key) :
  mem k l = false <-> ~ In k l.
Proof.
  rewrite <- mem_In. destruct (mem k l); split; congruence.
Qed.

Section KeyDict.
Context {V : Type}.
Implicit Types (d : dict state_key V) (k : state_key) (v : V).

Lemma dict_get_set_same d k v :
  dict_get key_eqb k (dict_set key_eqb k v d) = Some v.
Proof.
  induction d as [|[k' v'] d IH]; simpl.
  - now rewrite key_eqb_refl.
  - destruct (key_eqb k k') eqn:E; simpl; rewrite E; auto.
Qed.

Lemma dict_get_set_other d k k' v :
  k' <> k ->
  dict_get key_eqb k' (dict_set key_eqb k v d) = dict_get key_eqb k' d.
Proof.
  intros Hne. induction d as [|[k0 v0] d IH]; simpl.
  - apply key_eqb_false in Hne. now rewrite Hne.
  - destruct (key_eqb k k0) eqn:E; simpl.
    + apply key_eqb_true in E. subst k0.
      apply key_eqb_false in Hne. now rewrite Hne.
    + destruct (key_eqb k' k0); auto.
Qed.

Lemma dict_keys_set d k v k' :
  In k' (dict_keys (dict_set key_eqb k v d)) <->
  k' = k \/ In k' (dict_keys d).
Proof.
  induction d as [|[k0 v0] d IH]; simpl.
  - intuition.
  - destruct (key_eqb k k0) eqn:E; simpl.
    + apply key_eqb_true in E. subst k0. intuition.
    + rewrite IH. intuition.
Qed.

Lemma dict_keys_set_NoDup d k v :
  NoDup (dict_keys d) -> NoDup (dict_keys (dict_set key_eqb k v d)).
Proof.
  induction d as [|[k0 v0] d IH]; simpl; intros Hnd.
  - constructor; [intros [] | constructor].
  - inversion Hnd as [|? ? Hnotin Hnd']; subst.
    destruct (key_eqb k k0) eqn:E; simpl.
    + constructor; assumption.
    + constructor; [| now apply IH].
      intros Hin. apply dict_keys_set in Hin as [->|Hin].
      * now rewrite key_eqb_refl in E.
      * now apply Hnotin.
Qed.

Lemma dict_get_None d k :
  dict_get key_eqb k d = None <-> ~ In k (dict_keys d).
Proof.
  induction d as [|[k0 v0] d IH]; simpl.
  - intuition.
  - destruct (key_eqb k k0) eqn:E.
    + apply key_eqb_true in E. subst. split; [discriminate | intuition].
    + apply key_eqb_false in E. rewrite IH. intuition.
Qed.

Lemma dict_get_In d k v :
  dict_get key_eqb k d = Some v -> In (k, v) d.
Proof.
  induction d as [|[k0 v0] d IH]; simpl; [discriminate|].
  destruct (key_eqb k k0) eqn:E.
  - apply key_eqb_true in E. subst. intros [= ->]. now left.
  - intros H. right. now apply IH.
Qed.

Lemma dict_get_NoDup_In d k v :
  NoDup (dict_keys d) -> In (k, v) d -> dict_get key_eqb k d = Some v.
Proof.
  induction d as [|[k0 v0] d IH]; simpl; intros Hnd Hin; [contradiction|].
  inversion Hnd as [|? ? Hnotin Hnd']; subst.
  destruct Hin as [[= -> ->]|Hin].
  - now rewrite key_eqb_refl.
  - destruct (key_eqb k k0) eqn:E.
    + apply key_eqb_true in E. subst. exfalso. apply Hnotin.
      change k0 with (fst (k0, v)). now apply in_map.
    + now apply IH.
Qed.

Lemma dict_get_del_same d k :
  NoDup (dict_keys d) -> dict_get key_eqb k (dict_del key_eqb k d) = None.
Proof.
  induction d as [|[k0 v0] d IH]; simpl; intros Hnd; [reflexivity|].
  inversion Hnd as [|? ? Hnotin Hnd']; subst.
  destruct (key_eqb k k0) eqn:E; simpl.
  - apply key_eqb_true in E. subst. now apply dict_get_None.
  - rewrite E. now apply IH.
Qed.

Lemma dict_get_del_other d k k' :
  k' <> k ->
  dict_get key_eqb k' (dict_del key_eqb k d) = dict_get key_eqb k' d.
Proof.
  intros Hne. induction d as [|[k0 v0] d IH]; simpl; [reflexivity|].
  destruct (key_eqb k k0) eqn:E; simpl.
  - apply key_eqb_true in E. subst k0.
    apply key_eqb_false in Hne. now rewrite Hne.
  - destruct (key_eqb k' k0); auto.
Qed.

Lemma dict_keys_del_NoDup d k :
  NoDup (dict_keys d) -> NoDup (dict_keys (dict_del key_eqb k d)).
Proof.
  induction d as [|[k0 v0] d IH]; simpl; intros Hnd; [constructor|].
  inversion Hnd as [|? ? Hnotin Hnd']; subst.
  destruct (key_eqb k k0) eqn:E; simpl; [assumption|].
  constructor; [| now apply IH].
  intros Hin. apply Hnotin.
  clear - Hin. induction d as [|[k1 v1] d IH]; simpl in *; [assumption|].
  destruct (key_eqb k k1); simpl in *; intuition.
Qed.
End KeyDict.

(** ** prepare_object_states *)

(** The membership test of factory.py:145 never finds the dependency. *)
Lemma in_worklist_false (dependency : state_key) (worklist : list entry) :
  in_worklist dependency worklist = false.
Proof.
  unfold in_worklist. induction worklist; simpl; auto.
Qed.

Lemma add_dependencies_app (deps : list state_key) (worklist : list entry) :
  add_dependencies deps worklist = worklist ++ map dep_entry deps.
Proof.
  unfold add_dependencies. revert worklist.
  induction deps as [|d deps IH]; intros wl; simpl.
  - now rewrite app_nil_r.
  - rewrite in_worklist_false. simpl. rewrite IH, <- app_assoc. reflexivity.
Qed.

Lemma extend_with_abilities_known (abilities : list (string * kwargs)) :
  (forall a p, In (a, p) abilities ->
     dict_get str_eqb a _ABILITY_TO_STATE_MAPPING <> None) ->
  forall worklist,
    extend_with_abilities worklist abilities =
    Ok (worklist ++ ability_entries abilities).
Proof.
  induction abilities as [|[a p] rest IH]; intros Hk wl.
  - cbn. now rewrite app_nil_r.
  - unfold ability_entries.
    cbn [extend_with_abilities flat_map fst snd].
    unfold get_state_names_for_ability.
    destruct (dict_get str_eqb a _ABILITY_TO_STATE_MAPPING) eqn:E.
    + cbn [bind]. rewrite IH.
      * now rewrite <- app_assoc.
      * intros a' p' Hin. apply (Hk a' p'). now right.
    + exfalso. apply (Hk a p); [now left | assumption].
Qed.

Lemma extend_with_abilities_unknown (abilities : list (string * kwargs))
    (a : string) (p : kwargs) :
  In (a, p) abilities ->
  dict_get str_eqb a _ABILITY_TO_STATE_MAPPING = None ->
  forall worklist, extend_with_abilities worklist abilities = Raise KeyError.
Proof.
  induction abilities as [|[a' p'] rest IH]; intros Hin Hnone wl.
  - contradiction.
  - cbn [extend_with_abilities]. unfold get_state_names_for_ability.
    destruct (dict_get str_eqb a' _ABILITY_TO_STATE_MAPPING) eqn:E;
      cbn [bind].
    + destruct Hin as [[= -> ->]|Hin]; [congruence|]. now apply IH.
    + reflexivity.
Qed.

Section Prepare.
Variable T : class_table.
Variable obj : string.

Lemma instance_of_buildable (e : entry) :
  buildable T e ->
  get_object_state_instance T (fst e) obj (Some (snd e)) true =
  Ok (built e) /\
  get_dependencies T (inst_class (built e)) = required_of T (fst e).
Proof.
  intros [c [Hc Ha]]. unfold get_object_state_instance, built, required_of.
  unfold class_of in *. rewrite Hc. simpl. rewrite Ha. auto.
Qed.

(** One generation: the iterator walks over [q] and leaves the required
    dependencies of its entries at the end of the list. *)
Lemma prepare_loop_generation (q : list entry) :
  Forall (buildable T) q ->
  forall pre r states fuel,
    prepare_loop T (length q + fuel) obj (length pre) (pre ++ q ++ r) states
    = prepare_loop T fuel obj (length pre + length q)
        (pre ++ q ++ r ++
           map dep_entry (flat_map (fun e => required_of T (fst e)) q))
        (fold_left store q states).
Proof.
  induction q as [|[k p] q IH]; intros Hq pre r states fuel.
  - simpl. now rewrite Nat.add_0_r, app_nil_r.
  - inversion Hq as [|? ? Hb Hq']; subst.
    destruct (instance_of_buildable (k, p) Hb) as [Hi Hd]. simpl in Hi.
    cbn [length Nat.add prepare_loop].
    rewrite nth_error_app2 by lia. rewrite Nat.sub_diag. cbn [app nth_error].
    rewrite Hi. cbv zeta. rewrite Hd. cbn [fst].
    rewrite add_dependencies_app.
    transitivity
      (prepare_loop T (length q + fuel) obj (length (pre ++ [(k, p)]))
         ((pre ++ [(k, p)]) ++ q ++ (r ++ map dep_entry (required_of T k)))
         (dict_set key_eqb k (built (k, p)) states)).
    { f_equal.
      - rewrite length_app. simpl. lia.
      - repeat rewrite <- app_assoc. simpl.
        repeat rewrite <- app_assoc. reflexivity. }
    rewrite (IH Hq' (pre ++ [(k, p)])
               (r ++ map dep_entry (required_of T k))
               (dict_set key_eqb k (built (k, p)) states) fuel).
    f_equal.
    + rewrite length_app. simpl. lia.
    + repeat rewrite <- app_assoc. simpl. rewrite map_app.
      repeat rewrite <- app_assoc. reflexivity.
Qed.

Lemma prepare_loop_more_fuel (fuel : nat) :
  forall i worklist states r,
    prepare_loop T fuel obj i worklist states = Some r ->
    forall extra,
      prepare_loop T (fuel + extra) obj i worklist states = Some r.
Proof.
  induction fuel as [|fuel IH]; intros i wl st r H extra; simpl in *.
  - discriminate.
  - destruct (nth_error wl i) as [[k p]|]; [|assumption].
    destruct (get_object_state_instance T k obj (Some p) true);
      [|assumption].
    now apply IH.
Qed.

Lemma keys_fold_store (q : list entry) :
  forall states k,
    In k (dict_keys (fold_left store q states)) <->
    In k (dict_keys states) \/ In k (map fst q).
Proof.
  induction q as [|e q IH]; intros states k; simpl.
  - intuition.
  - rewrite IH. unfold store at 1. rewrite dict_keys_set. intuition.
Qed.

Lemma NoDup_fold_store (q : list entry) :
  forall states,
    NoDup (dict_keys states) -> NoDup (dict_keys (fold_left store q states)).
Proof.
  induction q as [|e q IH]; intros states Hnd; simpl; [assumption|].
  apply IH. now apply dict_keys_set_NoDup.
Qed.

Lemma reach_unfold (start : list state_key) (k : state_key) :
  reach T start k <->
  In k start \/ reach T (flat_map (required_of T) start) k.
Proof.
  split.
  - induction 1 as [k Hin | k d Hr IH Hd].
    + now left.
    + right. destruct IH as [Hin | Hr'].
      * apply reach_start. apply in_flat_map. now exists k.
      * now apply reach_step with k.
  - intros [Hin | Hr].
    + now apply reach_start.
    + induction Hr as [k Hin | k d Hr IH Hd].
      * apply in_flat_map in Hin as [k0 [Hk0 Hk]].
        apply reach_step with k0; [now apply reach_start | assumption].
      * now apply reach_step with k.
Qed.

Lemma reach_incl (s1 s2 : list state_key) (k : state_key) :
  (forall x, In x s1 -> In x s2) -> reach T s1 k -> reach T s2 k.
Proof.
  intros Hincl. induction 1 as [k Hin | k d Hr IH Hd].
  - apply reach_start. now apply Hincl.
  - now apply reach_step with k.
Qed.

Variable allowed : list state_key.
Variable rank : state_key -> nat.
Hypothesis closed :
  forall k, In k allowed ->
    exists c, class_of k = Some c /\
              forall d, In d (get_dependencies T c) ->
                        In d allowed /\ rank d < rank k /\
                        exists cd, class_of d = Some cd /\
                                   accepts T cd [] = true.

Lemma required_allowed (k d : state_key) :
  In k allowed -> In d (required_of T k) ->
  In d allowed /\ rank d < rank k /\ buildable T (dep_entry d).
Proof.
  intros Hk Hd. destruct (closed k Hk) as [c [Hc Hdeps]].
  unfold required_of in Hd. rewrite Hc in Hd. now apply Hdeps.
Qed.

(** The loop ends, and the dictionary it leaves holds the keys it had plus
    everything reachable from the entries still to be visited. *)
Lemma prepare_loop_terminates (n : nat) :
  forall q pre states,
    Forall (buildable T) q ->
    (forall e, In e q -> In (fst e) allowed /\ rank (fst e) < n) ->
    exists fuel states',
      prepare_loop T fuel obj (length pre) (pre ++ q) states =
      Some (Ok states') /\
      (NoDup (dict_keys states) -> NoDup (dict_keys states')) /\
      forall k, In k (dict_keys states') <->
                In k (dict_keys states) \/ reach T (map fst q) k.
Proof.
  induction n as [|n IH]; intros q pre states Hb Hq.
  - destruct q as [|e q].
    + exists 1, states. simpl. rewrite app_nil_r.
      replace (nth_error pre (length pre)) with (@None entry).
      2:{ symmetry. apply nth_error_None. lia. }
      split; [reflexivity|]. split; [auto|].
      intros k. split; [auto|]. intros [H|H]; [assumption|].
      exfalso. clear - H. induction H as [k Hin | k d Hr IHr Hd]; auto.
    + destruct (Hq e (or_introl eq_refl)) as [_ Hlt]. lia.
  - set (q' := map dep_entry (flat_map (fun e => required_of T (fst e)) q)).
    assert (Hb' : Forall (buildable T) q').
    { apply Forall_forall. intros e He. unfold q' in He.
      apply in_map_iff in He as [d [<- Hd]].
      apply in_flat_map in Hd as [e0 [He0 Hd]].
      destruct (Hq e0 He0) as [Ha _].
      now destruct (required_allowed _ _ Ha Hd) as [_ [_ Hbd]]. }
    assert (Hq' : forall e, In e q' -> In (fst e) allowed /\ rank (fst e) < n).
    { intros e He. unfold q' in He.
      apply in_map_iff in He as [d [<- Hd]].
      apply in_flat_map in Hd as [e0 [He0 Hd]].
      destruct (Hq e0 He0) as [Ha Hlt].
      destruct (required_allowed _ _ Ha Hd) as [Hda [Hr _]]. simpl.
      split; [assumption | lia]. }
    destruct (IH q' (pre ++ q) (fold_left store q states) Hb' Hq')
      as [fuel [states' [Hrun [Hnd Hkeys]]]].
    exists (length q + fuel), states'.
    split; [| split].
    + pose proof (prepare_loop_generation q Hb pre [] states fuel) as Hg.
      rewrite !app_nil_r in Hg. simpl in Hg. rewrite Hg.
      rewrite length_app, <- app_assoc in Hrun. exact Hrun.
    + intros H. apply Hnd. now apply NoDup_fold_store.
    + intros k. rewrite Hkeys, keys_fold_store.
      rewrite (reach_unfold (map fst q)).
      assert (Hfm : map fst q' = flat_map (required_of T) (map fst q)).
      { unfold q'. rewrite map_map. simpl. rewrite map_id.
        clear. induction q as [|e q IHq]; simpl; [reflexivity|].
        now rewrite IHq. }
      rewrite Hfm. tauto.
Qed.
End Prepare.

Lemma in_ability_entries (abilities : list (string * kwargs)) (e : entry) :
  In e (ability_entries abilities) <->
  exists a names,
    In (a, snd e) abilities /\
    dict_get str_eqb a _ABILITY_TO_STATE_MAPPING = Some names /\
    In (fst e) names.
Proof.
  unfold ability_entries. rewrite in_flat_map. split.
  - intros [[a p] [Hin He]]. cbn [fst snd] in He.
    destruct (dict_get str_eqb a _ABILITY_TO_STATE_MAPPING) as [names|] eqn:E;
      [|contradiction].
    apply in_map_iff in He as [n [<- Hn]]. exists a, names. auto.
  - intros [a [names [Hin [E Hn]]]]. exists (a, snd e). split; [assumption|].
    cbn [fst snd]. rewrite E. apply in_map_iff. exists (fst e).
    split; [now destruct e | assumption].
Qed.

Lemma reach_expected (T : class_table) (abilities : list (string * kwargs))
    (default_iter : list state_key) :
  Permutation default_iter _DEFAULT_STATE_SET ->
  forall k,
    reach T (map fst (map (fun n : state_key => (n, @nil (string * pyvalue)))
                          default_iter ++ ability_entries abilities)) k <->
    expected_key T abilities k.
Proof.
  intros Hperm k. split.
  - induction 1 as [k Hin | k d Hr IH Hd].
    + rewrite map_app, map_map in Hin. cbn [fst] in Hin. rewrite map_id in Hin.
      apply in_app_or in Hin as [Hin | Hin].
      * apply expected_default. now apply (Permutation_in _ Hperm).
      * apply in_map_iff in Hin as [e [<- He]].
        apply in_ability_entries in He as [a [names [Hin [E Hn]]]].
        now apply expected_ability with a (snd e) names.
    + now apply expected_required with k.
  - induction 1 as [k Hin | a p names k Hin E Hn | k d He IH Hd].
    + apply reach_start. rewrite map_app, map_map. cbn [fst]. rewrite map_id.
      apply in_or_app. left.
      now apply (Permutation_in _ (Permutation_sym Hperm)).
    + apply reach_start. rewrite map_app. apply in_or_app. right.
      apply in_map_iff. exists (k, p). split; [reflexivity|].
      apply in_ability_entries. exists a, names. auto.
    + now apply reach_step with k.
Qed.

Lemma servable_worklist (T : class_table) (abilities : list (string * kwargs))
    (allowed : list state_key) (rank : state_key -> nat)
    (default_iter : list state_key) :
  servable T abilities allowed rank ->
  Permutation default_iter _DEFAULT_STATE_SET ->
  let worklist := map (fun n : state_key => (n, @nil (string * pyvalue)))
                      default_iter ++ ability_entries abilities in
  Forall (buildable T) worklist /\
  forall e, In e worklist -> In (fst e) allowed.
Proof.
  intros [Hclosed Hdef Hab] Hperm worklist.
  assert (H : forall e, In e worklist -> buildable T e /\ In (fst e) allowed).
  { intros e He. unfold worklist in He. apply in_app_or in He as [He | He].
    - apply in_map_iff in He as [n [<- Hn]].
      apply (Permutation_in _ Hperm) in Hn.
      destruct (Hdef n Hn) as [Hal [c [Hc Hacc]]].
      split; [exists c; auto | assumption].
    - apply in_ability_entries in He as [a [names [Hin [E Hn]]]].
      destruct (Hab a (snd e) Hin) as [names' [E' Hall]].
      rewrite E in E'. injection E' as <-.
      destruct (Hall (fst e) Hn) as [Hal [c [Hc Hacc]]].
      split; [exists c; auto | assumption]. }
  split.
  - apply Forall_forall. intros e He. now apply H.
  - intros e He. now apply H.
Qed.

Lemma prepare_object_states_runs (T : class_table) (obj : string)
    (abilities : list (string * kwargs)) (allowed : list state_key)
    (rank : state_key -> nat) (default_iter : list state_key) (online : bool) :
  servable T abilities allowed rank ->
  Permutation default_iter _DEFAULT_STATE_SET ->
  exists fuel states,
    prepare_object_states T fuel default_iter obj (Some abilities) online =
    Some (Ok states) /\
    NoDup (dict_keys states) /\
    forall k, In k (dict_keys states) <-> expected_key T abilities k.
Proof.
  intros Hs Hperm.
  destruct (servable_worklist T abilities allowed rank default_iter Hs Hperm)
    as [Hb Hal].
  set (worklist := map (fun n : state_key => (n, @nil (string * pyvalue)))
                       default_iter ++ ability_entries abilities) in *.
  set (n := S (list_max (map (fun e : entry => rank (fst e)) worklist))).
  assert (Hrank : forall e, In e worklist ->
                            In (fst e) allowed /\ rank (fst e) < n).
  { intros e He. split; [now apply Hal|]. unfold n.
    assert (Hle : list_max (map (fun e : entry => rank (fst e)) worklist)
                  <= list_max (map (fun e : entry => rank (fst e)) worklist))
      by lia.
    rewrite list_max_le, Forall_forall in Hle.
    specialize (Hle (rank (fst e))).
    assert (In (rank (fst e)) (map (fun e : entry => rank (fst e)) worklist)).
    { apply in_map_iff. now exists e. }
    apply Hle in H. lia. }
  destruct Hs as [Hclosed Hdef Hab].
  destruct (prepare_loop_terminates T obj allowed rank Hclosed n worklist [] []
              Hb Hrank) as [fuel [states [Hrun [Hnd Hkeys]]]].
  exists fuel, states. split; [| split].
  - unfold prepare_object_states, get_default_state_names.
    rewrite extend_with_abilities_known.
    + exact Hrun.
    + intros a p Hin. destruct (Hab a p Hin) as [names [E _]]. congruence.
  - apply Hnd. constructor.
  - intros k. rewrite Hkeys. cbn [dict_keys map In].
    rewrite <- (reach_expected T abilities default_iter Hperm). tauto.
Qed.

Lemma prepare_object_states_more_fuel (T : class_table) (fuel : nat)
    (default_iter : list state_key) (obj : string)
    (abilities : option (list (string * kwargs))) (online : bool)
    (r : result (dict state_key state_instance)) (extra : nat) :
  prepare_object_states T fuel default_iter obj abilities online = Some r ->
  prepare_object_states T (fuel + extra) default_iter obj abilities online =
  Some r.
Proof.
  unfold prepare_object_states.
  destruct (extend_with_abilities _ _); [|auto].
  intros H. now apply prepare_loop_more_fuel.
Qed.

(** X24.  For a request that the factory can serve -- every declared
    ability is a key of the ability table, the identifiers involved are
    registered names whose required dependencies are acyclic, and every
    constructor takes the keywords it is called with --
    [prepare_object_states] returns, whatever the online flag and the
    iteration order of the default set; the keys of the dictionary it
    leaves are pairwise distinct and are exactly the default states, the
    states implied by the declared abilities and the transitive closure of
    the required dependencies; and every other run on the same abilities
    that returns has the same key set. *)
Theorem prepare_object_states_key_set
    (T : class_table) (obj : string) (abilities : list (string * kwargs))
    (allowed : list state_key) (rank : state_key -> nat)
    (default_iter : list state_key) (online : bool) :
  servable T abilities allowed rank ->
  Permutation default_iter _DEFAULT_STATE_SET ->
  exists fuel states,
    prepare_object_states T fuel default_iter obj (Some abilities) online =
    Some (Ok states) /\
    NoDup (dict_keys states) /\
    (forall k, In k (dict_keys states) <-> expected_key T abilities k) /\
    (forall fuel' iter' online' states',
        Permutation iter' _DEFAULT_STATE_SET ->
        prepare_object_states T fuel' iter' obj (Some abilities) online' =
        Some (Ok states') ->
        forall k, In k (dict_keys states') <-> In k (dict_keys states)).
Proof.
  intros Hs Hperm.
  destruct (prepare_object_states_runs T obj abilities allowed rank
              default_iter online Hs Hperm)
    as [fuel [states [Hrun [Hnd Hkeys]]]].
  exists fuel, states.
  split; [assumption|]. split; [assumption|]. split; [assumption|].
  intros fuel' iter' online' states' Hperm' Hrun' k.
  destruct (prepare_object_states_runs T obj abilities allowed rank
              iter' online' Hs Hperm')
    as [fuel2 [states2 [Hrun2 [_ Hkeys2]]]].
  apply (prepare_object_states_more_fuel _ _ _ _ _ _ _ fuel2) in Hrun'.
  apply (prepare_object_states_more_fuel _ _ _ _ _ _ _ fuel') in Hrun2.
  rewrite Nat.add_comm in Hrun2. rewrite Hrun2 in Hrun'.
  injection Hrun' as <-. rewrite Hkeys, Hkeys2. reflexivity.
Qed.

Lemma dustable_servable :
  servable sample_table [("dustable", [])] dustable_allowed dustable_rank.
Proof.
  constructor.
  - intros k Hk. unfold dustable_allowed in Hk. cbn [In] in Hk.
    repeat (destruct Hk as [<- | Hk];
            [ eexists; split; [reflexivity|];
              intros d Hd; cbn in Hd;
              repeat (destruct Hd as [<- | Hd];
                      [ split; [cbn; tauto|];
                        split; [vm_compute; lia|];
                        eexists; split; reflexivity |]);
              contradiction |]).
    contradiction.
  - intros k Hk. vm_compute in Hk. unfold dustable_allowed. cbn [In].
    repeat (destruct Hk as [<- | Hk];
            [ split; [tauto|]; eexists; split; reflexivity |]).
    contradiction.
  - intros a p [[= <- <-] | []].
    exists [Name "dirty"]. split; [reflexivity|].
    intros k [<- | []]. split.
    + unfold dustable_allowed. cbn [In]. tauto.
    + exists Dirty. split; reflexivity.
Qed.

Lemma heater_servable :
  servable heater_table heater_abilities heater_allowed dustable_rank.
Proof.
  constructor.
  - intros k Hk. unfold heater_allowed, dustable_allowed in Hk.
    cbn [In app] in Hk.
    repeat (destruct Hk as [<- | Hk];
            [ eexists; split; [reflexivity|];
              intros d Hd; cbn in Hd;
              repeat (destruct Hd as [<- | Hd];
                      [ split; [cbn; tauto|];
                        split; [vm_compute; lia|];
                        eexists; split; reflexivity |]);
              contradiction |]).
    contradiction.
  - intros k Hk. vm_compute in Hk.
    unfold heater_allowed, dustable_allowed. cbn [In app].
    repeat (destruct Hk as [<- | Hk];
            [ split; [tauto|]; eexists; split; reflexivity |]).
    contradiction.
  - intros a p [[= <- <-] | [[= <- <-] | []]].
    + exists [Name "heatSource"]. split; [reflexivity|].
      intros k [<- | []]. split.
      * unfold heater_allowed, dustable_allowed. cbn [In app]. tauto.
      * exists HeatSource. split; reflexivity.
    + exists [Name "dirty"]. split; [reflexivity|].
      intros k [<- | []]. split.
      * unfold heater_allowed, dustable_allowed. cbn [In app]. tauto.
      * exists Dirty. split; reflexivity.
Qed.

Lemma prepare_object_states_key_set_witness :
  accepts heater_table HeatSource [] = false /\
  exists fuel states,
    prepare_object_states heater_table fuel _DEFAULT_STATE_SET "stove"
      (Some heater_abilities) true = Some (Ok states) /\
    NoDup (dict_keys states) /\
    (forall k, In k (dict_keys states) <->
               expected_key heater_table heater_abilities k) /\
    (forall fuel' iter' online' states',
        Permutation iter' _DEFAULT_STATE_SET ->
        prepare_object_states heater_table fuel' iter' "stove"
          (Some heater_abilities) online' = Some (Ok states') ->
        forall k, In k (dict_keys states') <-> In k (dict_keys states)).
Proof.
  split; [reflexivity|].
  apply (prepare_object_states_key_set heater_table "stove"
           heater_abilities heater_allowed dustable_rank
           _DEFAULT_STATE_SET true).
  - exact heater_servable.
  - apply Permutation_refl.
Defined.

(** X25.  A declared ability that is not a key of the ability table makes
    [prepare_object_states] raise KeyError: the lookup of
    [get_state_names_for_ability] fails before any state is built,
    whatever the other abilities, the online flag and what the state
    classes declare. *)
Theorem unregistered_ability_raises_KeyError
    (T : class_table) (fuel : nat) (default_iter : list state_key)
    (obj : string) (abilities : list (string * kwargs)) (online : bool)
    (a : string) (p : kwargs) :
  In (a, p) abilities ->
  dict_get str_eqb a _ABILITY_TO_STATE_MAPPING = None ->
  prepare_object_states T fuel default_iter obj (Some abilities) online =
  Some (Raise KeyError).
Proof.
  intros Hin Hnone. unfold prepare_object_states.
  now rewrite (extend_with_abilities_unknown abilities a p Hin Hnone).
Qed.

Lemma unregistered_ability_raises_KeyError_witness :
  prepare_object_states sample_table 0 _DEFAULT_STATE_SET "cabinet"
    (Some [("dustable", []); ("flying", [])]) false = Some (Raise KeyError).
Proof.
  apply (unregistered_ability_raises_KeyError sample_table 0
           _DEFAULT_STATE_SET "cabinet" [("dustable", []); ("flying", [])]
           false "flying" []).
  - right. now left.
  - reflexivity.
Defined.

(** *** What a successful run implies *)

Lemma class_of_Class (c : state_class) : class_of (Class c) = None.
Proof. destruct c; reflexivity. Qed.

Lemma registered_is_name (k : state_key) :
  class_of k <> None -> exists s, k = Name s.
Proof.
  destruct k as [s|c]; [now exists s|].
  rewrite class_of_Class. congruence.
Qed.

Lemma instance_built (T : class_table) (k : state_key) (obj : string)
    (p : kwargs) (inst : state_instance) :
  get_object_state_instance T k obj (Some p) true = Ok inst ->
  class_of k = Some (inst_class inst).
Proof.
  unfold get_object_state_instance, class_of.
  destruct (dict_get key_eqb k _STATE_NAME_TO_CLASS_MAPPING) as [c|];
    [|discriminate].
  cbn [negb]. destruct (accepts T c p); [|discriminate].
  now intros [= <-].
Qed.

(** If the loop returns a dictionary, every entry it still had to visit is
    a registered identifier, and so is each of its required dependencies. *)
Lemma prepare_loop_visits_registered (T : class_table) (obj : string)
    (fuel : nat) :
  forall i worklist states states',
    prepare_loop T fuel obj i worklist states = Some (Ok states') ->
    forall e, In e (skipn i worklist) ->
      class_of (fst e) <> None /\
      forall d, In d (required_of T (fst e)) -> class_of d <> None.
Proof.
  induction fuel as [|fuel IH]; intros i wl st st' Hrun e He; [discriminate|].
  cbn [prepare_loop] in Hrun.
  destruct (nth_error wl i) as [[k p]|] eqn:Hnth.
  - destruct (get_object_state_instance T k obj (Some p) true) as [inst|]
      eqn:Hinst; [|discriminate].
    cbv zeta in Hrun. rewrite add_dependencies_app in Hrun.
    pose proof (instance_built _ _ _ _ _ Hinst) as Hc.
    assert (Hlen : i < length wl) by (apply nth_error_Some; congruence).
    assert (Hsplit : skipn i wl = (k, p) :: skipn (S i) wl).
    { clear - Hnth. revert i Hnth.
      induction wl as [|x wl IHwl]; intros [|i] H; simpl in *;
        try discriminate.
      - now injection H as ->.
      - now apply IHwl. }
    assert (Hlater : forall x,
               In x (skipn (S i) wl) \/
               In x (map dep_entry (get_dependencies T (inst_class inst))) ->
               In x (skipn (S i)
                       (wl ++ map dep_entry
                                (get_dependencies T (inst_class inst))))).
    { intros x Hx. rewrite skipn_app.
      replace (S i - length wl) with 0 by lia. cbn [skipn].
      apply in_or_app. exact Hx. }
    rewrite Hsplit in He. destruct He as [<- | He].
    + cbn [fst]. split; [congruence|].
      intros d Hd. unfold required_of in Hd. rewrite Hc in Hd.
      assert (Hin : In (dep_entry d)
                       (skipn (S i)
                          (wl ++ map dep_entry
                                   (get_dependencies T (inst_class inst))))).
      { apply Hlater. right. now apply in_map. }
      destruct (IH _ _ _ _ Hrun (dep_entry d) Hin) as [Hreg _]. exact Hreg.
    + apply (IH _ _ _ _ Hrun e). apply Hlater. now left.
  - apply nth_error_None in Hnth.
    rewrite skipn_all2 in He by assumption. contradiction.
Qed.

Lemma prepare_loop_keys_registered (T : class_table) (obj : string)
    (fuel : nat) :
  forall i worklist states states',
    prepare_loop T fuel obj i worklist states = Some (Ok states') ->
    (forall k, In k (dict_keys states) -> class_of k <> None) ->
    forall k, In k (dict_keys states') -> class_of k <> None.
Proof.
  induction fuel as [|fuel IH]; intros i wl st st' Hrun Hst; [discriminate|].
  cbn [prepare_loop] in Hrun.
  destruct (nth_error wl i) as [[k p]|].
  - destruct (get_object_state_instance T k obj (Some p) true) as [inst|]
      eqn:Hinst; [|discriminate].
    apply (IH _ _ _ _ Hrun). intros k' Hk'.
    apply dict_keys_set in Hk' as [-> | Hk']; [|now apply Hst].
    rewrite (instance_built _ _ _ _ _ Hinst). congruence.
  - injection Hrun as <-. exact Hst.
Qed.

(** Every key of a dictionary that the factory produced is a name string:
    no state is ever stored under a class object. *)
Lemma prepare_object_states_keys_are_names (T : class_table) (fuel : nat)
    (default_iter : list state_key) (obj : string)
    (abilities : option (list (string * kwargs))) (online : bool)
    (states : dict state_key state_instance) :
  prepare_object_states T fuel default_iter obj abilities online =
  Some (Ok states) ->
  forall k, In k (dict_keys states) -> exists s, k = Name s.
Proof.
  unfold prepare_object_states.
  destruct (extend_with_abilities _ _) as [wl|]; [|discriminate].
  intros Hrun k Hk. apply registered_is_name.
  apply (prepare_loop_keys_registered _ _ _ _ _ _ _ Hrun); [|assumption].
  intros k' [].
Qed.

(** A registered ability can fail too: the required dependency that Stained
    declares is the class object AABB, which is not a key of the name table,
    so building the states of a scrubbable object never returns a state map,
    whatever the absent classes declare. *)
Lemma prepare_object_states_scrubbable (T : class_table) (fuel : nat)
    (default_iter : list state_key) (obj : string) (online : bool)
    (states : dict state_key state_instance) :
  prepare_object_states T fuel default_iter obj
    (Some [("scrubbable", [])]) online <> Some (Ok states).
Proof.
  unfold prepare_object_states. intros Hrun.
  rewrite extend_with_abilities_known in Hrun.
  2:{ intros a p [[= <- <-] | []]. discriminate. }
  destruct (prepare_loop_visits_registered _ _ _ _ _ _ _ Hrun
              (Name "stained", [])) as [_ Hdeps].
  - cbn [skipn]. apply in_or_app. right. cbn. now left.
  - apply (Hdeps (Class AABB)); [cbn; now left | reflexivity].
Qed.

(** C2 (the code departs from it).  For a scrubbable sink the claim
    promises a state map that holds the default states, "stained" and the
    required dependencies of Stained.  [Stained.get_dependencies] returns
    the class object AABB where the factory works with names, so the call
    raises AssertionError on the dependency it has just appended, and no
    run returns a state map, whatever the absent classes declare.  The
    sibling Dirty names its dependency "aabb", and the same call for a
    dustable sink returns a map that holds "dirty" and "aabb". *)
Theorem prepare_object_states_fails_on_scrubbable :
  expected_key sample_table [("scrubbable", [])] (Name "stained") /\
  prepare_object_states sample_table 100 _DEFAULT_STATE_SET "sink"
    (Some [("scrubbable", [])]) true = Some (Raise AssertionError) /\
  (forall T fuel default_iter online states,
      prepare_object_states T fuel default_iter "sink"
        (Some [("scrubbable", [])]) online <> Some (Ok states)) /\
  exists states,
    prepare_object_states sample_table 100 _DEFAULT_STATE_SET "sink"
      (Some [("dustable", [])]) true = Some (Ok states) /\
    In (Name "dirty") (dict_keys states) /\
    In (Name "aabb") (dict_keys states).
Proof.
  split; [|split; [|split]].
  - apply expected_ability with "scrubbable" [] [Name "stained"];
      [now left | reflexivity | now left].
  - reflexivity.
  - intros T fuel default_iter online states.
    apply prepare_object_states_scrubbable.
  - eexists. split; [vm_compute; reflexivity|].
    split; vm_compute; tauto.
Qed.

(** Without a working membership test, a cycle among required dependencies
    keeps the list growing: here dirty requires aabb (dirty.py), and the
    table makes aabb and pose require each other. *)
Example prepare_object_states_cyclic_sample :
  prepare_object_states cyclic_table 500 _DEFAULT_STATE_SET "cabinet"
    (Some [("dustable", [])]) true = None.
Proof. vm_compute. reflexivity. Qed.

(** ** The dependency graph *)

Lemma dict_get_app {V : Type} (d1 d2 : dict state_key V) (k : state_key) :
  dict_get key_eqb k (d1 ++ d2) =
  match dict_get key_eqb k d1 with
  | Some v => Some v
  | None => dict_get key_eqb k d2
  end.
Proof.
  induction d1 as [|[k' v'] d1 IH]; simpl; [reflexivity|].
  destruct (key_eqb k k'); auto.
Qed.

Lemma successors_nonempty_node (G : digraph) (u v : state_key) :
  In v (successors G u) -> In u (nodes G).
Proof.
  unfold successors, nodes. intros H.
  destruct (dict_get key_eqb u G) eqn:E; [|contradiction].
  destruct (in_dec state_key_eq_dec u (dict_keys G)) as [Hin|Hnot];
    [assumption|].
  apply dict_get_None in Hnot. congruence.
Qed.

Lemma nodes_add_node (G : digraph) (n x : state_key) :
  In x (nodes (add_node G n)) <-> In x (nodes G) \/ x = n.
Proof.
  unfold add_node, dict_mem, nodes.
  destruct (dict_get key_eqb n G) eqn:E.
  - split; [auto|]. intros [H | ->]; [assumption|].
    destruct (in_dec state_key_eq_dec n (dict_keys G)) as [Hin|Hnot];
      [assumption|].
    apply dict_get_None in Hnot. congruence.
  - unfold dict_keys. rewrite map_app, in_app_iff. simpl. intuition.
Qed.

Lemma successors_add_node (G : digraph) (n u : state_key) :
  successors (add_node G n) u = successors G u.
Proof.
  unfold add_node, dict_mem, successors.
  destruct (dict_get key_eqb n G) eqn:E; [reflexivity|].
  rewrite dict_get_app. destruct (dict_get key_eqb u G) eqn:E'; [reflexivity|].
  simpl. destruct (key_eqb u n); reflexivity.
Qed.

Lemma NoDup_nodes_add_node (G : digraph) (n : state_key) :
  NoDup (nodes G) -> NoDup (nodes (add_node G n)).
Proof.
  unfold add_node, dict_mem, nodes. intros Hnd.
  destruct (dict_get key_eqb n G) eqn:E; [assumption|].
  unfold dict_keys. rewrite map_app. simpl.
  apply NoDup_app; [assumption | constructor; [intros [] | constructor] |].
  intros x Hx [<- | []]. apply dict_get_None in E. contradiction.
Qed.

Lemma graph_wf_add_node (G : digraph) (n : state_key) :
  graph_wf G -> graph_wf (add_node G n).
Proof.
  intros [Hnd Hs]. split; [now apply NoDup_nodes_add_node|].
  intros u. rewrite successors_add_node. destruct (Hs u) as [H1 H2].
  split; [assumption|]. intros v Hv. apply nodes_add_node. left. now apply H2.
Qed.

Lemma successors_add_edge (G : digraph) (u v a : state_key) :
  successors (add_edge G u v) a =
  if key_eqb a u
  then (if mem v (successors G u) then successors G u
        else successors G u ++ [v])
  else successors G a.
Proof.
  unfold add_edge. rewrite !successors_add_node.
  destruct (mem v (successors G u)) eqn:Em.
  - rewrite !successors_add_node.
    destruct (key_eqb a u) eqn:E; [|reflexivity].
    apply key_eqb_true in E. now subst.
  - unfold successors at 1.
    destruct (key_eqb a u) eqn:E.
    + apply key_eqb_true in E. subst a. now rewrite dict_get_set_same.
    + apply key_eqb_false in E. rewrite dict_get_set_other by assumption.
      fold (successors (add_node (add_node G u) v) a).
      now rewrite !successors_add_node.
Qed.

Lemma nodes_add_edge (G : digraph) (u v x : state_key) :
  In x (nodes (add_edge G u v)) <-> In x (nodes G) \/ x = u \/ x = v.
Proof.
  unfold add_edge. rewrite !successors_add_node.
  destruct (mem v (successors G u)).
  - rewrite !nodes_add_node. tauto.
  - unfold nodes at 1. rewrite dict_keys_set.
    fold (nodes (add_node (add_node G u) v)). rewrite !nodes_add_node. tauto.
Qed.

Lemma graph_wf_add_edge (G : digraph) (u v : state_key) :
  graph_wf G -> graph_wf (add_edge G u v).
Proof.
  intros Hwf. split.
  - unfold add_edge. rewrite !successors_add_node.
    pose proof (graph_wf_add_node _ v (graph_wf_add_node _ u Hwf)) as [Hnd _].
    destruct (mem v (successors G u)); [assumption|].
    now apply dict_keys_set_NoDup.
  - intros a. rewrite successors_add_edge. destruct Hwf as [Hnd Hs].
    destruct (key_eqb a u) eqn:E.
    + destruct (Hs u) as [H1 H2].
      destruct (mem v (successors G u)) eqn:Em.
      * split; [assumption|]. intros w Hw. apply nodes_add_edge. left.
        now apply H2.
      * split.
        -- apply NoDup_app; [assumption | constructor; [intros []|constructor]|].
           intros x Hx [<- | []]. apply mem_false in Em. contradiction.
        -- intros w Hw. apply nodes_add_edge.
           apply in_app_or in Hw as [Hw | [<- | []]]; [left; now apply H2|].
           right. now right.
    + destruct (Hs a) as [H1 H2]. split; [assumption|].
      intros w Hw. apply nodes_add_edge. left. now apply H2.
Qed.

Lemma in_successors_add_edge (G : digraph) (u v a b : state_key) :
  In b (successors (add_edge G u v) a) <->
  In b (successors G a) \/ (a = u /\ b = v).
Proof.
  rewrite successors_add_edge.
  destruct (key_eqb a u) eqn:E.
  - apply key_eqb_true in E. subst a.
    destruct (mem v (successors G u)) eqn:Em.
    + apply mem_In in Em. split; [auto|]. intros [H | [_ ->]]; assumption.
    + rewrite in_app_iff. simpl. intuition.
  - apply key_eqb_false in E. intuition.
Qed.

Lemma fold_add_node_spec (l : list state_key) :
  forall G, graph_wf G ->
    let G' := fold_left add_node l G in
    graph_wf G' /\
    (forall x, In x (nodes G') <-> In x (nodes G) \/ In x l) /\
    (forall u, successors G' u = successors G u).
Proof.
  induction l as [|n l IH]; intros G Hwf; simpl.
  - intuition.
  - destruct (IH (add_node G n) (graph_wf_add_node _ _ Hwf)) as [H1 [H2 H3]].
    split; [assumption|]. split.
    + intros x. rewrite H2, nodes_add_node. intuition.
    + intros u. now rewrite H3, successors_add_node.
Qed.

Lemma fold_add_edge_spec (es : list (state_key * state_key)) :
  forall G, graph_wf G ->
    let G' := fold_left (fun G e => add_edge G (fst e) (snd e)) es G in
    graph_wf G' /\
    (forall x, In x (nodes G') <->
               In x (nodes G) \/ In x (map fst es) \/ In x (map snd es)) /\
    (forall a b, In b (successors G' a) <->
                 In b (successors G a) \/ In (a, b) es).
Proof.
  induction es as [|[u v] es IH]; intros G Hwf; simpl.
  - intuition.
  - destruct (IH (add_edge G u v) (graph_wf_add_edge _ _ _ Hwf))
      as [H1 [H2 H3]].
    split; [assumption|]. split.
    + intros x. rewrite H2, nodes_add_edge. intuition.
    + intros a b. rewrite H3, in_successors_add_edge. split.
      * intros [[Hb | [-> ->]] | Hes]; auto.
      * intros [Hb | [[= -> ->] | Hes]]; auto.
Qed.

Lemma in_edge_list (d : dict state_key (list state_key)) (a b : state_key) :
  In (a, b) (edge_list d) <-> exists nbrs, In (a, nbrs) d /\ In b nbrs.
Proof.
  unfold edge_list. rewrite in_flat_map. split.
  - intros [[k nbrs] [Hin Hab]]. simpl in Hab.
    apply in_map_iff in Hab as [x [[= <- <-] Hx]]. now exists nbrs.
  - intros [nbrs [Hin Hb]]. exists (a, nbrs). split; [assumption|].
    simpl. now apply in_map.
Qed.

Lemma graph_wf_empty : graph_wf [].
Proof.
  split; [constructor|]. intros u. split; [constructor | intros v []].
Qed.

(** The graph built from a dictionary of lists has the keys and the listed
    neighbours as nodes and exactly the listed pairs as edges. *)
Lemma from_dict_of_lists_spec (d : dict state_key (list state_key)) :
  let G := from_dict_of_lists d in
  graph_wf G /\
  (forall x, In x (dict_keys d) -> In x (nodes G)) /\
  (forall a b, In b (successors G a) <->
               exists nbrs, In (a, nbrs) d /\ In b nbrs).
Proof.
  unfold from_dict_of_lists.
  destruct (fold_add_node_spec (dict_keys d) [] graph_wf_empty)
    as [Hwf0 [Hn0 Hs0]].
  destruct (fold_add_edge_spec (edge_list d) _ Hwf0) as [Hwf [Hn Hs]].
  fold (edge_list d). split; [assumption|]. split.
  - intros x Hx. apply Hn. left. apply Hn0. now right.
  - intros a b. rewrite Hs, Hs0, in_edge_list.
    unfold successors. simpl. tauto.
Qed.

(** ** Kahn's algorithm *)

Lemma relax_spec (cs : list state_key) :
  forall m z,
    NoDup cs -> NoDup (dict_keys m) ->
    (forall c, In c cs -> exists d, dict_get key_eqb c m = Some (S d)) ->
    exists m',
      relax cs m z = Ok (m', z ++ filter (last_pending m) cs) /\
      NoDup (dict_keys m') /\
      forall v, dict_get key_eqb v m' =
                if mem v cs then decremented m v else dict_get key_eqb v m.
Proof.
  induction cs as [|c cs IH]; intros m z Hcs Hm Hpos.
  - exists m. simpl. rewrite app_nil_r. auto.
  - inversion Hcs as [|? ? Hnotin Hcs']; subst.
    destruct (Hpos c (or_introl eq_refl)) as [d Hd].
    cbn [relax]. rewrite Hd. cbv zeta.
    replace (S d - 1) with d by lia.
    assert (Hstep : forall m1 : dict state_key nat,
               (forall v, v <> c -> dict_get key_eqb v m1 = dict_get key_eqb v m) ->
               (forall c', In c' cs ->
                           exists d', dict_get key_eqb c' m1 = Some (S d')) /\
               filter (last_pending m1) cs = filter (last_pending m) cs).
    { intros m1 Hm1. split.
      - intros c' Hc'. rewrite Hm1 by (intros ->; contradiction).
        apply Hpos. now right.
      - apply filter_ext_in. intros c' Hc'. unfold last_pending.
        now rewrite Hm1 by (intros ->; contradiction). }
    destruct d as [|d]; cbn [Nat.eqb].
    + set (m1 := dict_del key_eqb c (dict_set key_eqb c 0 m)).
      assert (Hm1 : forall v, v <> c ->
                              dict_get key_eqb v m1 = dict_get key_eqb v m).
      { intros v Hv. unfold m1.
        rewrite dict_get_del_other, dict_get_set_other by assumption.
        reflexivity. }
      assert (Hnd1 : NoDup (dict_keys m1)).
      { unfold m1. apply dict_keys_del_NoDup. now apply dict_keys_set_NoDup. }
      destruct (Hstep m1 Hm1) as [Hpos1 Hfil].
      destruct (IH m1 (z ++ [c]) Hcs' Hnd1 Hpos1) as [m' [Hrun [Hnd' Hget]]].
      exists m'. split; [| split; [assumption|]].
      * rewrite Hrun, Hfil. cbn [filter]. unfold last_pending at 2.
        rewrite Hd. now rewrite <- app_assoc.
      * intros v. rewrite Hget.
        change (mem v (c :: cs)) with (key_eqb v c || mem v cs).
        destruct (key_eqb v c) eqn:E; cbn [orb].
        -- apply key_eqb_true in E. subst v.
           rewrite (proj2 (mem_false c cs) Hnotin).
           unfold decremented. rewrite Hd. unfold m1.
           apply dict_get_del_same. now apply dict_keys_set_NoDup.
        -- apply key_eqb_false in E.
           unfold decremented. rewrite !Hm1 by assumption. reflexivity.
    + set (m1 := dict_set key_eqb c (S d) m).
      assert (Hm1 : forall v, v <> c ->
                              dict_get key_eqb v m1 = dict_get key_eqb v m).
      { intros v Hv. unfold m1. now rewrite dict_get_set_other. }
      assert (Hnd1 : NoDup (dict_keys m1)).
      { unfold m1. now apply dict_keys_set_NoDup. }
      destruct (Hstep m1 Hm1) as [Hpos1 Hfil].
      destruct (IH m1 z Hcs' Hnd1 Hpos1) as [m' [Hrun [Hnd' Hget]]].
      exists m'. split; [| split; [assumption|]].
      * rewrite Hrun, Hfil. cbn [filter]. unfold last_pending at 2.
        now rewrite Hd.
      * intros v. rewrite Hget.
        change (mem v (c :: cs)) with (key_eqb v c || mem v cs).
        destruct (key_eqb v c) eqn:E; cbn [orb].
        -- apply key_eqb_true in E. subst v.
           rewrite (proj2 (mem_false c cs) Hnotin).
           unfold decremented. rewrite Hd. unfold m1.
           apply dict_get_set_same.
        -- apply key_eqb_false in E.
           unfold decremented. rewrite !Hm1 by assumption. reflexivity.
Qed.

Lemma mem_app_single (u n : state_key) (out : list state_key) :
  mem u (out ++ [n]) = mem u out || key_eqb u n.
Proof.
  unfold mem. rewrite existsb_app. simpl. now rewrite orb_false_r.
Qed.

(** Emitting [n] removes it from the pending predecessors of its
    successors, and from those only. *)
Lemma pending_emit (G : digraph) (out : list state_key) (n v : state_key) :
  NoDup (nodes G) -> In n (nodes G) -> ~ In n out ->
  pending G out v =
  pending G (out ++ [n]) v + (if mem v (successors G n) then 1 else 0).
Proof.
  unfold pending. generalize (nodes G) as l.
  intros l Hnd Hin Hout. induction l as [|u l IH]; [contradiction|].
  inversion Hnd as [|? ? Hnotin Hnd']; subst.
  cbn [filter]. rewrite mem_app_single.
  destruct (state_key_eq_dec u n) as [->|Hne].
  - rewrite key_eqb_refl, orb_true_r. cbn [negb]. rewrite andb_false_r.
    replace (mem n out) with false by (symmetry; now apply mem_false).
    cbn [negb]. rewrite andb_true_r.
    assert (Hsame : filter (fun u => mem v (successors G u) && negb (mem u out)) l
                  = filter (fun u => mem v (successors G u) &&
                                     negb (mem u (out ++ [n]))) l).
    { apply filter_ext_in. intros u Hu. rewrite mem_app_single.
      replace (key_eqb u n) with false; [now rewrite orb_false_r|].
      symmetry. apply key_eqb_false. intros ->. contradiction. }
    rewrite Hsame. destruct (mem v (successors G n)); cbn [length]; lia.
  - replace (key_eqb u n) with false
      by (symmetry; now apply key_eqb_false).
    rewrite orb_false_r. destruct Hin as [Heq | Hin]; [contradiction|].
    specialize (IH Hnd' Hin).
    destruct (mem v (successors G u) && negb (mem u out)); cbn [length];
      rewrite IH; lia.
Qed.

Lemma pending_zero (G : digraph) (out : list state_key) (v : state_key) :
  pending G out v = 0 <->
  forall u, In v (successors G u) -> In u out.
Proof.
  unfold pending. split.
  - intros H u Hu.
    destruct (in_dec state_key_eq_dec u out) as [Hin|Hnot]; [assumption|].
    exfalso.
    assert (Hf : In u (filter (fun u => mem v (successors G u) &&
                                        negb (mem u out)) (nodes G))).
    { apply filter_In. split.
      - now apply successors_nonempty_node with v.
      - apply andb_true_iff. split; [now apply mem_In|].
        apply negb_true_iff. now apply mem_false. }
    apply length_zero_iff_nil in H. rewrite H in Hf. contradiction.
  - intros H. apply length_zero_iff_nil.
    destruct (filter _ (nodes G)) as [|u l] eqn:E; [reflexivity|].
    assert (Hf : In u (u :: l)) by now left.
    rewrite <- E in Hf. apply filter_In in Hf as [_ Hf].
    apply andb_true_iff in Hf as [H1 H2].
    apply mem_In in H1. apply H in H1.
    apply negb_true_iff, mem_false in H2. contradiction.
Qed.

Lemma index_app_left (k : state_key) (l1 l2 : list state_key) :
  In k l1 -> index k (l1 ++ l2) = index k l1.
Proof.
  induction l1 as [|x l1 IH]; intros Hin; [contradiction|].
  simpl. destruct (key_eqb k x) eqn:E; [reflexivity|].
  destruct Hin as [->|Hin]; [now rewrite key_eqb_refl in E|].
  now rewrite IH.
Qed.

Lemma index_app_right (k : state_key) (l1 l2 : list state_key) :
  ~ In k l1 -> index k (l1 ++ l2) = length l1 + index k l2.
Proof.
  induction l1 as [|x l1 IH]; intros Hnot; [reflexivity|].
  simpl. destruct (key_eqb k x) eqn:E.
  - apply key_eqb_true in E. subst. exfalso. apply Hnot. now left.
  - rewrite IH; [reflexivity|]. intros H. apply Hnot. now right.
Qed.

Lemma index_lt_length (k : state_key) (l : list state_key) :
  In k l -> index k l < length l.
Proof.
  induction l as [|x l IH]; intros Hin; [contradiction|].
  simpl. destruct (key_eqb k x) eqn:E; [lia|].
  destruct Hin as [->|Hin]; [now rewrite key_eqb_refl in E|].
  apply IH in Hin. lia.
Qed.

Lemma pop_spec {A : Type} (lifo : bool) (l : list A) (x : A) (l' : list A) :
  pop lifo l = Some (x, l') -> Permutation l (x :: l').
Proof.
  unfold pop. destruct l as [|a l]; [discriminate|].
  destruct lifo; intros [= <- <-]; [|apply Permutation_refl].
  rewrite (app_removelast_last a (l := a :: l)) at 1 by discriminate.
  apply Permutation_sym, Permutation_cons_append.
Qed.

Lemma pop_None {A : Type} (lifo : bool) (l : list A) :
  pop lifo l = None -> l = [].
Proof.
  unfold pop. destruct l; [reflexivity|]. destruct lifo; discriminate.
Qed.

Lemma kahn_step (G : digraph) (m : dict state_key nat)
    (zero out : list state_key) (n : state_key) (zero' : list state_key) :
  graph_wf G ->
  kahn_inv G m zero out ->
  Permutation zero (n :: zero') ->
  exists m' z',
    relax (successors G n) m zero' = Ok (m', z') /\
    kahn_inv G m' z' (out ++ [n]).
Proof.
  intros [Hnd Hsucc] [Inodup Inodes Imnd Imap Izero Iorder] Hperm.
  assert (Hall : Permutation (out ++ zero) ((out ++ [n]) ++ zero')).
  { rewrite <- app_assoc. apply Permutation_app_head. exact Hperm. }
  assert (Hn_zero : In n zero).
  { apply (Permutation_in _ (Permutation_sym Hperm)). now left. }
  assert (Hn_node : In n (nodes G)).
  { apply Inodes. apply in_or_app. now right. }
  assert (Hn_out : ~ In n out).
  { intros Hin. apply NoDup_app_remove_l in Inodup as Hz.
    clear - Inodup Hin Hn_zero.
    induction out as [|x out IH]; [contradiction|].
    simpl in Inodup. inversion Inodup as [|? ? Hx Hrest]; subst.
    destruct Hin as [->|Hin]; [|now apply IH].
    apply Hx. apply in_or_app. now right. }
  assert (Hn_pending : pending G out n = 0).
  { apply Izero; [assumption|]. apply in_or_app. now right. }
  assert (Hemit : forall v,
             pending G out v =
             pending G (out ++ [n]) v +
             (if mem v (successors G n) then 1 else 0)).
  { intros v. now apply pending_emit. }
  destruct (Hsucc n) as [Hcs_nd Hcs_nodes].
  assert (Hpos : forall c, In c (successors G n) ->
                           exists d, dict_get key_eqb c m = Some (S d)).
  { intros c Hc. exists (pending G (out ++ [n]) c).
    rewrite Imap, (Hemit c). rewrite (proj2 (mem_In c _) Hc).
    replace (pending G (out ++ [n]) c + 1) with (S (pending G (out ++ [n]) c))
      by lia.
    reflexivity. }
  destruct (relax_spec (successors G n) m zero' Hcs_nd Imnd Hpos)
    as [m' [Hrun [Hnd' Hget]]].
  exists m', (zero' ++ filter (last_pending m) (successors G n)).
  split; [assumption|].
  assert (Hfil : forall v, In v (filter (last_pending m) (successors G n)) <->
                           In v (successors G n) /\ pending G out v = 1).
  { intros v. rewrite filter_In. unfold last_pending. rewrite Imap.
    destruct (pending G out v) as [|[|p]]; simpl; intuition congruence. }
  assert (Hmem : forall v,
             In v ((out ++ [n]) ++ zero' ++
                   filter (last_pending m) (successors G n)) <->
             In v (out ++ zero) \/
             (In v (successors G n) /\ pending G out v = 1)).
  { intros v. rewrite app_assoc, in_app_iff, Hfil.
    split; intros [H | H]; auto; left.
    - now apply (Permutation_in _ (Permutation_sym Hall)).
    - now apply (Permutation_in _ Hall). }
  constructor.
  - rewrite app_assoc. apply NoDup_app.
    + now apply (Permutation_NoDup Hall).
    + now apply NoDup_filter.
    + intros v Hv Hf. apply Hfil in Hf as [Hc Hone].
      apply (Permutation_in _ (Permutation_sym Hall)) in Hv.
      apply Izero in Hv; [lia | now apply Inodes].
  - intros v Hv. apply Hmem in Hv as [Hv | [Hc _]].
    + now apply Inodes.
    + now apply Hcs_nodes.
  - assumption.
  - intros v. rewrite Hget. specialize (Hemit v).
    destruct (mem v (successors G n)).
    + unfold decremented. rewrite Imap.
      remember (pending G (out ++ [n]) v) as p' eqn:Ep.
      replace (pending G out v) with (S p') by lia.
      destruct p'; reflexivity.
    + rewrite Imap. replace (pending G (out ++ [n]) v) with (pending G out v)
        by lia.
      reflexivity.
  - intros v Hv. rewrite Hmem, (Izero v Hv). specialize (Hemit v).
    destruct (mem v (successors G n)) eqn:Em.
    + apply mem_In in Em. intuition lia.
    + apply mem_false in Em. intuition lia.
  - intros u v Huv Hv. apply in_app_or in Hv as [Hv | [<- | []]].
    + destruct (Iorder u v Huv Hv) as [Hu [_ Hlt]].
      split; [apply in_or_app; now left|].
      split; [apply in_or_app; now left|].
      now rewrite !index_app_left.
    + assert (Hu : In u out) by (apply (pending_zero G out n); assumption).
      split; [apply in_or_app; now left|].
      split; [apply in_or_app; right; now left|].
      rewrite index_app_left by assumption.
      rewrite index_app_right by assumption.
      pose proof (index_lt_length u out Hu). lia.
Qed.

Lemma kahn_runs (lifo : bool) (G : digraph) :
  graph_wf G ->
  forall fuel m zero out,
    kahn_inv G m zero out ->
    length (nodes G) < fuel + length out ->
    kahn_outcome G (kahn lifo G fuel m zero out).
Proof.
  intros Hwf. induction fuel as [|fuel IH]; intros m zero out Hinv Hfuel.
  - exfalso. destruct Hinv as [Inodup Inodes _ _ _ _].
    assert (Hle : length out <= length (nodes G)).
    { apply NoDup_incl_length.
      - now apply NoDup_app_remove_r in Inodup.
      - intros x Hx. apply Inodes. apply in_or_app. now left. }
    simpl in Hfuel. lia.
  - cbn [kahn]. destruct (pop lifo zero) as [[n zero']|] eqn:Hpop.
    + apply pop_spec in Hpop.
      destruct (kahn_step G m zero out n zero' Hwf Hinv Hpop)
        as [m' [z' [Hrun Hinv']]].
      rewrite Hrun. apply IH; [assumption|].
      rewrite length_app. simpl. lia.
    + apply pop_None in Hpop. subst zero.
      destruct Hinv as [Inodup Inodes Imnd Imap Izero Iorder].
      rewrite app_nil_r in *.
      destruct m as [|[k d] m].
      * left. exists out. split; [reflexivity|].
        assert (Hall : forall v, In v (nodes G) -> In v out).
        { intros v Hv. apply Izero; [assumption|].
          specialize (Imap v). simpl in Imap.
          destruct (pending G out v =? 0) eqn:E; [|discriminate].
          now apply Nat.eqb_eq. }
        split; [assumption|]. split.
        -- intros v. split; [apply Inodes | apply Hall].
        -- intros u v Huv. apply Iorder; [assumption|].
           apply Hall. destruct Hwf as [_ Hs]. now apply (Hs u).
      * right. split; [reflexivity|]. exists out, k. split.
        -- intros x Hx. exact (Izero x Hx).
        -- specialize (Imap k). simpl in Imap. rewrite key_eqb_refl in Imap.
           destruct (pending G out k =? 0) eqn:E; [discriminate|].
           now apply Nat.eqb_neq.
Qed.

Lemma pending_nil (G : digraph) (v : state_key) :
  pending G [] v = in_degree G v.
Proof.
  unfold pending, in_degree. f_equal. apply filter_ext.
  intros u. simpl. now rewrite andb_true_r.
Qed.

Lemma in_degree_outside (G : digraph) (v : state_key) :
  graph_wf G -> ~ In v (nodes G) -> in_degree G v = 0.
Proof.
  intros [_ Hs] Hnot. rewrite <- pending_nil. apply pending_zero.
  intros u Hu. exfalso. apply Hnot. now apply (Hs u).
Qed.

Lemma initial_map_get (G : digraph) (l : list state_key) (v : state_key) :
  dict_get key_eqb v
    (flat_map (fun v => if in_degree G v =? 0 then []
                        else [(v, in_degree G v)]) l) =
  if mem v l && negb (in_degree G v =? 0) then Some (in_degree G v) else None.
Proof.
  induction l as [|x l IH]; [reflexivity|].
  cbn [flat_map]. rewrite dict_get_app.
  change (mem v (x :: l)) with (key_eqb v x || mem v l).
  destruct (in_degree G x =? 0) eqn:Ex.
  - cbn [dict_get]. rewrite IH.
    destruct (key_eqb v x) eqn:E; [|reflexivity].
    apply key_eqb_true in E. subst. rewrite Ex.
    now rewrite !andb_false_r.
  - cbn [dict_get]. destruct (key_eqb v x) eqn:E.
    + apply key_eqb_true in E. subst. now rewrite Ex.
    + exact IH.
Qed.

Lemma initial_map_keys (G : digraph) (l : list state_key) :
  dict_keys (flat_map (fun v => if in_degree G v =? 0 then []
                                else [(v, in_degree G v)]) l) =
  filter (fun v => negb (in_degree G v =? 0)) l.
Proof.
  induction l as [|x l IH]; [reflexivity|].
  cbn [flat_map filter]. unfold dict_keys in *. rewrite map_app, IH.
  destruct (in_degree G x =? 0); reflexivity.
Qed.

Lemma kahn_inv_initial (G : digraph) :
  graph_wf G ->
  kahn_inv G
    (flat_map (fun v => if in_degree G v =? 0 then []
                        else [(v, in_degree G v)]) (nodes G))
    (filter (fun v => in_degree G v =? 0) (nodes G)) [].
Proof.
  intros Hwf. pose proof Hwf as [Hnd Hs]. constructor.
  - simpl. now apply NoDup_filter.
  - simpl. intros v Hv. now apply filter_In in Hv.
  - rewrite initial_map_keys. now apply NoDup_filter.
  - intros v. rewrite initial_map_get, pending_nil.
    destruct (in_degree G v =? 0) eqn:E.
    + now rewrite andb_false_r.
    + rewrite andb_true_r.
      destruct (mem v (nodes G)) eqn:Em; [reflexivity|].
      apply mem_false in Em. apply (in_degree_outside G v Hwf) in Em.
      apply Nat.eqb_neq in E. contradiction.
  - intros v Hv. simpl. rewrite pending_nil, filter_In, Nat.eqb_eq. tauto.
  - intros u v _ [].
Qed.

(** [topological_sort] never runs out of fuel: it returns a topological
    order or raises NetworkXUnfeasible. *)
Lemma topological_sort_outcome (lifo : bool) (G : digraph) :
  graph_wf G -> kahn_outcome G (topological_sort lifo G).
Proof.
  intros Hwf. unfold topological_sort.
  apply kahn_runs; [assumption | now apply kahn_inv_initial |].
  unfold nodes, dict_keys. rewrite length_map. simpl. lia.
Qed.

Lemma topological_sort_total (lifo : bool) (G : digraph) :
  graph_wf G -> topological_sort lifo G <> None.
Proof.
  intros Hwf. destruct (topological_sort_outcome lifo G Hwf)
    as [[order [-> _]] | [-> _]]; discriminate.
Qed.

(** On a graph whose edges all increase some rank, the sort succeeds. *)
Lemma topological_sort_acyclic (lifo : bool) (G : digraph)
    (rank : state_key -> nat) :
  graph_wf G ->
  (forall u v, In v (successors G u) -> rank u < rank v) ->
  exists order,
    topological_sort lifo G = Some (Ok order) /\ topological_order G order.
Proof.
  intros Hwf Hrank.
  destruct (topological_sort_outcome lifo G Hwf)
    as [Hok | [_ [out [v [Hout Hv]]]]]; [assumption|].
  exfalso.
  assert (Hall : forall k x, rank x < k -> In x (nodes G) -> In x out).
  { induction k as [|k IHk]; intros x Hx Hnode; [lia|].
    apply Hout; [assumption|]. apply pending_zero. intros u Hu.
    apply IHk.
    - specialize (Hrank u x Hu). lia.
    - now apply successors_nonempty_node with x. }
  apply Hv. apply pending_zero. intros u Hu.
  apply (Hall (S (rank u))); [lia|].
  now apply successors_nonempty_node with v.
Qed.

(** No topological order exists on a graph with a cycle. *)
Lemma topological_order_no_cycle (G : digraph) (order : list state_key) :
  topological_order G order ->
  forall k, ~ clos_trans state_key (fun u v => In v (successors G u)) k k.
Proof.
  intros [_ [_ Hedges]] k Hcycle.
  assert (Hlt : forall a b,
             clos_trans state_key (fun u v => In v (successors G u)) a b ->
             index a order < index b order).
  { induction 1 as [a b Hab | a b c _ IH1 _ IH2].
    - now destruct (Hedges a b Hab) as [_ [_ Hlt]].
    - lia. }
  specialize (Hlt k k Hcycle). lia.
Qed.

(** ** get_states_by_dependency_order *)

Lemma index_rev (l : list state_key) (x : state_key) :
  NoDup l -> In x l -> index x (rev l) + index x l + 1 = length l.
Proof.
  induction l as [|a l IH]; intros Hnd Hin; [contradiction|].
  inversion Hnd as [|? ? Hnotin Hnd']; subst.
  cbn [rev index length].
  destruct (key_eqb x a) eqn:E.
  - apply key_eqb_true in E. subst x.
    rewrite index_app_right by (rewrite <- in_rev; assumption).
    rewrite length_rev. simpl. rewrite key_eqb_refl. lia.
  - destruct Hin as [-> | Hin]; [now rewrite key_eqb_refl in E|].
    rewrite index_app_left by (rewrite <- in_rev; assumption).
    specialize (IH Hnd' Hin). lia.
Qed.

Lemma before_rev (l : list state_key) (u v : state_key) :
  NoDup l -> before u v l -> before v u (rev l).
Proof.
  intros Hnd [Hu [Hv Hlt]]. split; [now apply -> in_rev|].
  split; [now apply -> in_rev|].
  pose proof (index_rev l u Hnd Hu). pose proof (index_rev l v Hnd Hv). lia.
Qed.

Lemma dependency_dict_built (T : class_table) (all_iter : list state_key) :
  (forall n, In n all_iter -> class_of n <> None) ->
  get_state_dependency_graph T all_iter =
  Ok (from_dict_of_lists (dependency_dict T all_iter)).
Proof.
  intros Hreg. unfold get_state_dependency_graph, get_all_state_names.
  assert (H : mapM (fun state_name =>
                match dict_get key_eqb state_name _STATE_NAME_TO_CLASS_MAPPING
                with
                | None => Raise KeyError
                | Some cls =>
                    Ok (state_name,
                        get_dependencies T cls ++
                        get_optional_dependencies T cls)
                end) all_iter = Ok (dependency_dict T all_iter)).
  { induction all_iter as [|n l IH]; [reflexivity|].
    cbn [mapM dependency_dict map]. unfold declared_of at 1.
    specialize (Hreg n (or_introl eq_refl)) as Hn. unfold class_of in *.
    destruct (dict_get key_eqb n _STATE_NAME_TO_CLASS_MAPPING); [|congruence].
    cbn [bind]. rewrite IH; [reflexivity|].
    intros n' Hn'. apply Hreg. now right. }
  rewrite H. reflexivity.
Qed.

Lemma registered_keys (k : state_key) :
  In k (dict_keys _STATE_NAME_TO_CLASS_MAPPING) -> class_of k <> None.
Proof.
  intros Hin Hnone. unfold class_of in Hnone.
  apply dict_get_None in Hnone. contradiction.
Qed.

(** The edges of the graph are the registered dependency relation. *)
Lemma dependency_graph_edges (T : class_table) (all_iter : list state_key) :
  Permutation all_iter (dict_keys _STATE_NAME_TO_CLASS_MAPPING) ->
  let G := from_dict_of_lists (dependency_dict T all_iter) in
  get_state_dependency_graph T all_iter = Ok G /\
  graph_wf G /\
  forall a b, In b (successors G a) <-> depends_on T a b.
Proof.
  intros Hperm G.
  destruct (from_dict_of_lists_spec (dependency_dict T all_iter))
    as [Hwf [_ Hedges]].
  split; [| split; [assumption|]].
  - apply dependency_dict_built. intros n Hn. apply registered_keys.
    now apply (Permutation_in _ Hperm).
  - intros a b. fold G in Hedges. rewrite Hedges. unfold depends_on.
    unfold dependency_dict. split.
    + intros [nbrs [Hin Hb]]. apply in_map_iff in Hin as [n [[= -> <-] Hn]].
      split; [now apply (Permutation_in _ Hperm) | assumption].
    + intros [Ha Hb]. exists (declared_of T a). split; [|assumption].
      apply in_map_iff. exists a. split; [reflexivity|].
      now apply (Permutation_in _ (Permutation_sym Hperm)).
Qed.

Lemma clos_trans_incl {A : Type} (R R' : A -> A -> Prop) (a b : A) :
  (forall x y, R x y -> R' x y) -> clos_trans A R a b -> clos_trans A R' a b.
Proof.
  intros Hincl. induction 1 as [x y Hxy | x y z _ IH1 _ IH2].
  - apply t_step. now apply Hincl.
  - now apply t_trans with y.
Qed.

(** C3.  In the sequence returned by [get_states_by_dependency_order], every
    required or optional dependency declared by a registered state appears
    strictly before that state.  It holds for either popping discipline of
    the sort and for every iteration order of the set of state names. *)
Theorem dependency_order_respects_dependencies
    (lifo : bool) (T : class_table) (all_iter order : list state_key) :
  Permutation all_iter (dict_keys _STATE_NAME_TO_CLASS_MAPPING) ->
  get_states_by_dependency_order lifo T all_iter = Some (Ok order) ->
  forall state dep, depends_on T state dep -> before dep state order.
Proof.
  intros Hperm Hrun state dep Hdep.
  destruct (dependency_graph_edges T all_iter Hperm) as [HG [Hwf Hedges]].
  unfold get_states_by_dependency_order in Hrun. rewrite HG in Hrun.
  destruct (topological_sort_outcome lifo _ Hwf)
    as [[sorted [Hsort [Hnd [_ Hfwd]]]] | [Hsort _]];
    rewrite Hsort in Hrun; [|discriminate].
  injection Hrun as <-. apply before_rev; [assumption|].
  apply Hfwd. now apply Hedges.
Qed.

Lemma dependency_order_respects_dependencies_witness :
  exists order,
    get_states_by_dependency_order false sample_table
      (dict_keys _STATE_NAME_TO_CLASS_MAPPING) = Some (Ok order) /\
    before (Name "aabb") (Name "dirty") order /\
    before (Class Soaked) (Name "stained") order.
Proof.
  eexists. split; [vm_compute; reflexivity|].
  split.
  - apply (dependency_order_respects_dependencies false sample_table
             (dict_keys _STATE_NAME_TO_CLASS_MAPPING)).
    + apply Permutation_refl.
    + vm_compute. reflexivity.
    + split; vm_compute; tauto.
  - apply (dependency_order_respects_dependencies false sample_table
             (dict_keys _STATE_NAME_TO_CLASS_MAPPING)).
    + apply Permutation_refl.
    + vm_compute. reflexivity.
    + split; vm_compute; tauto.
Defined.

(** When the registered dependencies are acyclic the order is returned, and
    it lists every registered state once. *)
Lemma dependency_order_returned
    (lifo : bool) (T : class_table) (all_iter : list state_key)
    (rank : state_key -> nat) :
  Permutation all_iter (dict_keys _STATE_NAME_TO_CLASS_MAPPING) ->
  (forall state dep, depends_on T state dep -> rank dep < rank state) ->
  exists order,
    get_states_by_dependency_order lifo T all_iter = Some (Ok order) /\
    NoDup order /\
    forall k, In k all_iter -> In k order.
Proof.
  intros Hperm Hrank.
  destruct (dependency_graph_edges T all_iter Hperm) as [HG [Hwf Hedges]].
  set (G := from_dict_of_lists (dependency_dict T all_iter)) in *.
  set (top := list_max (map rank (nodes G))).
  assert (Hbound : forall u, In u (nodes G) -> rank u <= top).
  { intros u Hu.
    assert (Hle : list_max (map rank (nodes G)) <= top) by (unfold top; lia).
    rewrite list_max_le, Forall_forall in Hle. apply Hle.
    now apply in_map. }
  destruct (topological_sort_acyclic lifo G (fun k => top - rank k) Hwf)
    as [sorted [Hsort [Hnd [Hcover _]]]].
  { intros u v Huv.
    assert (Hu : In u (nodes G)) by now apply successors_nonempty_node with v.
    apply Hbound in Hu. apply Hedges, Hrank in Huv. lia. }
  exists (rev sorted). split; [| split].
  - unfold get_states_by_dependency_order. rewrite HG. fold G.
    now rewrite Hsort.
  - now apply NoDup_rev.
  - intros k Hk. apply -> in_rev. apply Hcover.
    destruct (from_dict_of_lists_spec (dependency_dict T all_iter))
      as [_ [Hkeys _]].
    apply Hkeys. unfold dependency_dict, dict_keys. rewrite map_map. simpl.
    now rewrite map_id.
Qed.

(** C4.  If the registered dependency relation contains a cycle, building
    the dependency order raises NetworkXUnfeasible (the CyclicDependencyError
    of the spec); no order, partial or complete, is returned. *)
Theorem cyclic_dependencies_rejected
    (lifo : bool) (T : class_table) (all_iter : list state_key) :
  Permutation all_iter (dict_keys _STATE_NAME_TO_CLASS_MAPPING) ->
  (exists k, clos_trans state_key (depends_on T) k k) ->
  get_states_by_dependency_order lifo T all_iter =
  Some (Raise NetworkXUnfeasible).
Proof.
  intros Hperm [k Hcycle].
  destruct (dependency_graph_edges T all_iter Hperm) as [HG [Hwf Hedges]].
  unfold get_states_by_dependency_order. rewrite HG.
  destruct (topological_sort_outcome lifo _ Hwf)
    as [[sorted [Hsort Htop]] | [Hsort _]]; rewrite Hsort; [|reflexivity].
  exfalso. apply (topological_order_no_cycle _ _ Htop k).
  apply clos_trans_incl with (R := depends_on T); [|assumption].
  intros x y Hxy. now apply Hedges.
Qed.

Lemma cyclic_dependencies_rejected_witness :
  get_states_by_dependency_order true cyclic_table
    (dict_keys _STATE_NAME_TO_CLASS_MAPPING) =
  Some (Raise NetworkXUnfeasible).
Proof.
  apply (cyclic_dependencies_rejected true cyclic_table).
  - apply Permutation_refl.
  - exists (Name "pose").
    apply t_trans with (Name "aabb"); apply t_step; split; vm_compute; tauto.
Defined.

(** ** Particle-driven states *)

Lemma Qltb_lt (a b : Q) : Qltb a b = true <-> (a < b)%Q.
Proof.
  unfold Qltb. rewrite negb_true_iff. split.
  - intros H. apply Qnot_le_lt. intros Hle.
    apply Qle_bool_iff in Hle. congruence.
  - intros H. destruct (Qle_bool b a) eqn:E; [|reflexivity].
    apply Qle_bool_iff in E. exfalso. now apply (Qlt_not_le a b).
Qed.

(** The threshold test in integers: more than nine tenths of the particles
    are active. *)
Lemma above_threshold_iff (ps : particle_system) :
  above_threshold ps = true <-> 9 * get_num ps < 10 * get_num_active ps.
Proof.
  unfold above_threshold, CLEAN_THRESHOLD. rewrite Qltb_lt.
  unfold Qlt, Qmult, inject_Z. simpl. lia.
Qed.

(** *** The inflation of a box *)

Lemma inflate_axis_lower (amin amax : Q) :
  (fst (inflate_axis amin amax) == amin - (1 # 10) * (amax - amin))%Q.
Proof. unfold inflate_axis. simpl. ring. Qed.

(** The maximum moves by 11% of the original extent: the second assignment
    measures the extent from the minimum that has already been moved. *)
Lemma inflate_axis_upper (amin amax : Q) :
  (snd (inflate_axis amin amax) == amax + (11 # 100) * (amax - amin))%Q.
Proof. unfold inflate_axis. simpl. ring. Qed.

(** *** Sweeps *)

Lemma mapM_length {A B : Type} (f : A -> result B) (l : list A) (l' : list B) :
  mapM f l = Ok l' -> length l' = length l.
Proof.
  revert l'. induction l as [|a l IH]; intros l' H; simpl in H.
  - now injection H as <-.
  - destruct (f a); [|discriminate]. simpl in H.
    destruct (mapM f l) as [bs|]; [|discriminate]. simpl in H.
    injection H as <-. simpl. now rewrite (IH bs).
Qed.

Lemma sweep_length (key : state_key) (visit : particle -> bool)
    (object : sim_object) (ps ps' : particle_system) :
  sweep key visit object ps = Ok ps' -> get_num ps' = get_num ps.
Proof. apply mapM_length. Qed.

Lemma sweep_all_length (key : state_key) (visit : particle -> bool)
    (objects : list sim_object) :
  forall ps ps',
    sweep_all key visit objects ps = Ok ps' -> get_num ps' = get_num ps.
Proof.
  induction objects as [|o objects IH]; intros ps ps' H; simpl in H.
  - now injection H as <-.
  - destruct (sweep key visit o ps) as [ps1|] eqn:E; [|discriminate].
    simpl in H. rewrite (IH _ _ H). now apply sweep_length with key visit o.
Qed.

(** A sweep goes through when every cleaning object carries a box under the
    key that is looked up. *)
Lemma sweep_all_returns (key : state_key) (visit : particle -> bool)
    (objects : list sim_object) :
  (forall o, In o objects -> exists box, get_aabb_value key o = Ok box) ->
  forall ps, exists ps', sweep_all key visit objects ps = Ok ps'.
Proof.
  induction objects as [|o objects IH]; intros Hbox ps; simpl.
  - now exists ps.
  - destruct (Hbox o (or_introl eq_refl)) as [box Hb].
    assert (Hs : exists ps1, sweep key visit o ps = Ok ps1).
    { unfold sweep. clear - Hb. induction ps as [|p ps IHp]; simpl.
      - now exists [].
      - destruct IHp as [ps1 ->]. rewrite Hb. simpl.
        destruct (visit p); [destruct (strictly_within _ _)|]; simpl;
          eexists; reflexivity. }
    destruct Hs as [ps1 ->]. simpl. apply IH.
    intros o' Ho'. apply Hbox. now right.
Qed.

(** *** C5 *)

(** C5.  After an update of a Dirty state, and after an update of a Stained
    state whose value was true, the value is the outcome of the strict test
    [active_count > total_count * 0.9] on the population left by the
    sweep; with 100 particles of which exactly 90 are active the value is
    false. *)
Theorem value_after_update_is_strict_threshold :
  (forall sc self self',
      Dirty_update sc self = Ok self' ->
      dirty_value self' = above_threshold (dust self') /\
      (dirty_value self' = true <->
       9 * get_num (dust self') < 10 * get_num_active (dust self')) /\
      (get_num (dust self') = 100 -> get_num_active (dust self') = 90 ->
       dirty_value self' = false)) /\
  (forall env sc self self',
      stained_value self = true ->
      Stained_update env sc self = Ok self' ->
      exists ps,
        stain self' = Some ps /\
        stained_value self' = above_threshold ps /\
        (stained_value self' = true <->
         9 * get_num ps < 10 * get_num_active ps) /\
        (get_num ps = 100 -> get_num_active ps = 90 ->
         stained_value self' = false)).
Proof.
  assert (Hboundary : forall ps, get_num ps = 100 -> get_num_active ps = 90 ->
                                 above_threshold ps = false).
  { intros ps Hn Ha. destruct (above_threshold ps) eqn:E; [|reflexivity].
    apply above_threshold_iff in E. lia. }
  split.
  - intros sc self self' H. unfold Dirty_update in H.
    destruct (sweep_all _ _ _ _) as [dust'|]; [|discriminate].
    simpl in H. injection H as <-. simpl.
    split; [reflexivity|]. split; [apply above_threshold_iff | apply Hboundary].
  - intros env sc self self' Hv H. unfold Stained_update in H.
    rewrite Hv in H. cbn [negb] in H.
    destruct (sweep_all _ _ _ _) as [stain2|]; [|discriminate].
    simpl in H. injection H as <-. simpl. exists stain2.
    split; [reflexivity|]. split; [reflexivity|].
    split; [apply above_threshold_iff | apply Hboundary].
Qed.

Lemma value_after_update_is_strict_threshold_witness :
  (exists self',
      Dirty_update empty_scene
        {| dirty_value := true; dust := ninety_of_hundred |} = Ok self' /\
      dirty_value self' = false) /\
  (exists self',
      Stained_update plain_env empty_scene
        {| prev_value := true; stained_value := true;
           stain := Some ninety_of_hundred |} = Ok self' /\
      stained_value self' = false).
Proof.
  destruct value_after_update_is_strict_threshold as [HD HS].
  split.
  - eexists. split; [vm_compute; reflexivity|].
    apply (HD empty_scene
              {| dirty_value := true; dust := ninety_of_hundred |}
              {| dirty_value := false; dust := ninety_of_hundred |});
      vm_compute; reflexivity.
  - eexists. split; [vm_compute; reflexivity|].
    destruct (HS plain_env empty_scene
                 {| prev_value := true; stained_value := true;
                    stain := Some ninety_of_hundred |}
                 {| prev_value := true; stained_value := false;
                    stain := Some ninety_of_hundred |})
      as [ps [Hps [_ [_ Hb]]]]; [reflexivity | vm_compute; reflexivity |].
    injection Hps as <-. apply Hb; vm_compute; reflexivity.
Defined.

(** The same boundary in binary64 arithmetic: [100 * 0.9] rounds to [90.0],
    so [90 > 100 * 0.9] is False for the floats of the source as it is for
    the rationals of the model.  The literal is 0.9 rounded to binary64. *)
Remark float_boundary :
  PrimFloat.ltb (PrimFloat.mul 100%float 0x1.ccccccccccccdp-1%float)
                90%float = false /\
  above_threshold ninety_of_hundred = false.
Proof. split; vm_compute; reflexivity. Qed.

(** *** The scene index and the keys of the states *)

Lemma name_keyed_empty : name_keyed empty_scene.
Proof. intros k []. Qed.

(** Adding an object whose states are stored under names, as the factory
    stores them, keeps the index keyed by names. *)
Lemma name_keyed_add_object (obj : sim_object) (sc : scene) :
  (forall k, In k (dict_keys (obj_states obj)) -> exists s, k = Name s) ->
  name_keyed sc -> name_keyed (add_object obj sc).
Proof.
  unfold name_keyed, add_object. cbn [objects_by_state].
  generalize (objects_by_state sc) as idx.
  induction (dict_keys (obj_states obj)) as [|state states IH];
    intros idx Hobj Hidx; cbn [fold_left]; [assumption|].
  apply IH; [intros k Hk; apply Hobj; now right|].
  assert (Hstate : exists s, state = Name s) by (apply Hobj; now left).
  assert (Hset : forall (l : list string) (d : dict state_key (list string)),
             (forall k, In k (dict_keys d) -> exists s, k = Name s) ->
             forall k, In k (dict_keys (dict_set key_eqb state l d)) ->
                       exists s, k = Name s).
  { intros l d Hd k Hk. apply dict_keys_set in Hk as [-> | Hk]; auto. }
  intros k Hk.
  destruct (negb (dict_mem key_eqb state idx));
    destruct (dict_get key_eqb state _) eqn:E;
    eauto using Hset.
Qed.

Lemma get_objects_with_state_Class (sc : scene) (c : state_class) :
  name_keyed sc -> get_objects_with_state sc (Class c) = [].
Proof.
  intros Hsc. unfold get_objects_with_state.
  destruct (dict_get key_eqb (Class c) (objects_by_state sc)) eqn:E;
    [|reflexivity].
  exfalso.
  destruct (in_dec state_key_eq_dec (Class c) (dict_keys (objects_by_state sc)))
    as [Hin | Hnot].
  - destruct (Hsc _ Hin) as [s Hs]. discriminate.
  - apply dict_get_None in Hnot. congruence.
Qed.

(** In a scene indexed by names the sweep of Stained finds no cleaning tool:
    the update leaves every particle as it was. *)
Lemma Stained_update_finds_no_tool (env : particle_env) (sc : scene)
    (prev : bool) (ps : particle_system) :
  name_keyed sc ->
  Stained_update env sc
    {| prev_value := prev; stained_value := true; stain := Some ps |} =
  Ok {| prev_value := true;
        stained_value :=
          above_threshold (if negb prev then randomize env ps else ps);
        stain := Some (if negb prev then randomize env ps else ps) |}.
Proof.
  intros Hsc. unfold Stained_update. cbn [stained_value prev_value stain negb].
  rewrite get_objects_with_state_Class by assumption.
  cbn [andb filter sweep_all bind]. reflexivity.
Qed.

(** *** C1: the sweep of Stained *)

(** C1 (the code departs from it).  The scene holds a wet cleaning tool
    whose inflated box strictly contains the only, active, stain particle.
    The update of the Stained state leaves the particle active and the
    value true; the update of a Dirty state on the same scene and the same
    particle stashes it. *)
Theorem Stained_update_misses_wet_tool :
  map obj_name (get_objects_with_state kitchen (Name "cleaning_tool")) =
    ["sponge"] /\
  dict_get key_eqb (Name "soaked") (obj_states sponge) = Some (BoolVal true) /\
  strictly_within origin (inflate (cube (-1) 1)) = true /\
  Stained_update plain_env kitchen
    {| prev_value := true; stained_value := true;
       stain := Some [speck origin] |} =
  Ok {| prev_value := true; stained_value := true;
        stain := Some [speck origin] |} /\
  Dirty_update kitchen {| dirty_value := true; dust := [speck origin] |} =
  Ok {| dirty_value := false; dust := [stash_particle (speck origin)] |}.
Proof. repeat split; vm_compute; reflexivity. Qed.

(** With the states stored under the class objects the sweep of Stained
    does find the tool and stashes the particle. *)
Example Stained_update_with_class_keys :
  Stained_update plain_env (add_object sponge_by_class empty_scene)
    {| prev_value := true; stained_value := true;
       stain := Some [speck origin] |} =
  Ok {| prev_value := true; stained_value := false;
        stain := Some [stash_particle (speck origin)] |}.
Proof. vm_compute. reflexivity. Qed.

(** *** C6: the amount of inflation *)

(** C6 (the code departs from it).  On the range [0, 10] the minimum moves
    to -1, which is 10% of the extent, but the maximum moves to 11.1
    instead of 11; a particle at x = 11.05 lies outside the box inflated by
    10% and is stashed all the same. *)
Theorem inflate_moves_maximum_too_far :
  (fst (inflate_axis 0 10) == -1)%Q /\
  (snd (inflate_axis 0 10) == 111 # 10)%Q /\
  (snd (inflate_axis_by_tenth 0 10) == 11)%Q /\
  ~ (snd (inflate_axis 0 10) == snd (inflate_axis_by_tenth 0 10))%Q /\
  Dirty_update (add_object mop empty_scene)
    {| dirty_value := true; dust := [speck (221 # 20, 5, 5)%Q] |} =
  Ok {| dirty_value := false;
        dust := [stash_particle (speck (221 # 20, 5, 5)%Q)] |}.
Proof.
  repeat split; try (vm_compute; reflexivity).
  intros H. vm_compute in H. discriminate.
Qed.

(** The departure is not particular to that range: whenever the extent is
    not zero the two maxima differ. *)
Lemma inflate_axis_not_by_tenth (amin amax : Q) :
  ~ (amax == amin)%Q ->
  ~ (snd (inflate_axis amin amax) ==
     snd (inflate_axis_by_tenth amin amax))%Q.
Proof.
  intros Hne H. apply Hne. rewrite inflate_axis_upper in H.
  unfold inflate_axis_by_tenth in H. cbn [snd] in H.
  assert (E : ((1 # 100) * (amax - amin) == 0)%Q).
  { assert (E' : ((11 # 100) * (amax - amin) == (1 # 10) * (amax - amin))%Q).
    { apply (Qplus_inj_l _ _ amax). exact H. }
    assert (E'' : ((1 # 100) * (amax - amin) ==
                   (11 # 100) * (amax - amin) - (1 # 10) * (amax - amin))%Q)
      by ring.
    rewrite E''. rewrite E'. ring. }
  apply Qmult_integral in E as [E | E]; [discriminate E|].
  assert (E2 : (amax == (amax - amin) + amin)%Q) by ring.
  rewrite E2, E. ring.
Qed.

(** *** C10: Stained.set_value(False) before any population exists *)

(** C10.  On a Stained state whose particle population is still None,
    [set_value(False)] raises (AttributeError, from reading [.particles] of
    None) instead of returning; the value has been assigned by then. *)
Theorem Stained_set_value_false_raises (prev value : bool) :
  Stained_set_value false
    {| prev_value := prev; stained_value := value; stain := None |} =
  (Raise AttributeError,
   {| prev_value := prev; stained_value := false; stain := None |}).
Proof. reflexivity. Qed.

(** While the value is false an update creates no population, so a state
    that was never set to true still has none. *)
Lemma Stained_update_inactive (env : particle_env) (sc : scene)
    (prev : bool) (stain : option particle_system) :
  Stained_update env sc
    {| prev_value := prev; stained_value := false; stain := stain |} =
  Ok {| prev_value := prev; stained_value := false; stain := stain |}.
Proof. reflexivity. Qed.

Example Stained_set_value_false_on_fresh_state :
  fst (Stained_set_value false Stained_init) = Raise AttributeError.
Proof. reflexivity. Qed.

(** Once the population exists the same call stashes every particle. *)
Lemma Stained_set_value_false_stashes (prev value : bool)
    (ps : particle_system) :
  Stained_set_value false
    {| prev_value := prev; stained_value := value; stain := Some ps |} =
  (Ok tt, {| prev_value := prev; stained_value := false;
             stain := Some (map stash_particle ps) |}).
Proof. reflexivity. Qed.

(** *** What a sweep does when the boxes are found *)

Lemma sweep_effect (key : state_key) (visit : particle -> bool)
    (object : sim_object) (box : aabb) (ps : particle_system) :
  get_aabb_value key object = Ok box ->
  sweep key visit object ps =
  Ok (map (fun p => if visit p && hit [box] p then stash_particle p else p) ps).
Proof.
  intros Hb. unfold sweep, hit. induction ps as [|p ps IH]; [reflexivity|].
  cbn [mapM map existsb]. rewrite IH, Hb. rewrite orb_false_r.
  destruct (visit p); cbn [bind andb]; [|reflexivity].
  destruct (strictly_within (position p) (inflate box)); reflexivity.
Qed.

(** Every visited particle that some inflated box strictly contains is
    stashed, and no other particle is touched. *)
Lemma sweep_all_effect (key : state_key) (visit : particle -> bool)
    (objects : list sim_object) :
  forall (boxes : list aabb) (ps : particle_system),
    map (get_aabb_value key) objects = map Ok boxes ->
    sweep_all key visit objects ps =
    Ok (map (fun p => if visit p && hit boxes p then stash_particle p else p)
            ps).
Proof.
  induction objects as [|o objects IH]; intros boxes ps Hb.
  - destruct boxes; [|discriminate]. cbn [sweep_all]. f_equal.
    induction ps as [|p ps IHp]; [reflexivity|].
    cbn [map]. rewrite <- IHp. unfold hit. cbn [existsb].
    now rewrite andb_false_r.
  - destruct boxes as [|box boxes]; [discriminate|].
    cbn [map] in Hb. injection Hb as Hbox Hrest.
    cbn [sweep_all]. rewrite (sweep_effect key visit o box ps Hbox).
    cbn [bind]. rewrite (IH boxes _ Hrest). f_equal.
    rewrite map_map. apply map_ext. intros p. unfold hit. cbn [existsb].
    rewrite orb_false_r.
    destruct (visit p) eqn:Ev; cbn [andb].
    + destruct (strictly_within (position p) (inflate box)); cbn [orb].
      * destruct (visit (stash_particle p) && _); reflexivity.
      * rewrite Ev. reflexivity.
    + rewrite Ev. reflexivity.
Qed.

(** ** Inside.get_value *)

Lemma aabb_contains_point_iff (a b : aabb) :
  aabb_contains_point (get_aabb_center a) b = true <-> center_within a b.
Proof.
  unfold aabb_contains_point, center_within, within.
  destruct b as [lower upper]. cbn [fst snd].
  rewrite !andb_true_iff, !Qle_bool_iff. tauto.
Qed.

Lemma two_dimensions_lesser_iff (a b : aabb) :
  (2 <=? count_less_equal (get_aabb_extent a) (get_aabb_extent b)) = true <->
  two_extents_fit a b.
Proof.
  unfold count_less_equal, two_extents_fit. cbv zeta.
  rewrite Nat.leb_le, <- !Qle_bool_iff.
  destruct (Qle_bool (coord_x _) (coord_x _));
    destruct (Qle_bool (coord_y _) (coord_y _));
    destruct (Qle_bool (coord_z _) (coord_z _));
    cbn [b2n Nat.add]; split; intros H;
    try lia; try tauto;
    try (destruct H as [[? ?] | [[? ?] | [? ?]]]; discriminate).
Qed.

Lemma inside_of_boxes_iff (a b : aabb) :
  inside_of_boxes a b = true <-> computed_inside a b.
Proof.
  unfold inside_of_boxes, computed_inside, volume_smaller, bottom_above_top.
  cbv zeta.
  rewrite orb_true_iff, !andb_true_iff, aabb_contains_point_iff,
    two_dimensions_lesser_iff, Qltb_lt, Qle_bool_iff.
  tauto.
Qed.

(** What [get_value] computes when both boxes are found under the class
    key: the test (a) on centre, volume and extents, or the test on the
    centre together with A's bottom being at or above B's top. *)
Lemma Inside_get_value_spec (obj other : sim_object) (a b : aabb) :
  dict_get key_eqb (Class AABB) (obj_states obj) = Some (BoxVal a) ->
  dict_get key_eqb (Class AABB) (obj_states other) = Some (BoxVal b) ->
  exists r,
    Inside_get_value obj other = Ok r /\ (r = true <-> computed_inside a b).
Proof.
  intros Ha Hb. exists (inside_of_boxes a b). split.
  - unfold Inside_get_value, dict_mem, get_aabb_value. rewrite Ha, Hb.
    reflexivity.
  - apply inside_of_boxes_iff.
Qed.

(** Case (b) of the code is met only by a box without height that lies in
    the plane of B's top. *)
Lemma above_case_is_flat (a b : aabb) :
  (coord_z (fst a) <= coord_z (snd a))%Q ->
  center_within a b -> bottom_above_top a b ->
  (coord_z (fst a) == coord_z (snd b))%Q /\
  (coord_z (snd a) == coord_z (snd b))%Q.
Proof.
  unfold center_within, bottom_above_top, within, get_aabb_center.
  destruct a as [[[ax ay] az] [[bx by_] bz]].
  destruct b as [lb [[ux uy] uz]]. cbn [fst snd coord_x coord_y coord_z].
  intros Hord [_ [_ [_ Hc]]] Habove.
  assert (Hc2 : (az + bz <= 2 * uz)%Q).
  { apply (Qmult_le_compat_r _ _ 2) in Hc; [|discriminate].
    assert (E : (((az + bz) / 2) * 2 == az + bz)%Q) by field.
    rewrite E in Hc. assert (E2 : (uz * 2 == 2 * uz)%Q) by ring.
    now rewrite E2 in Hc. }
  split; apply Qle_antisym; try assumption.
  - apply (Qplus_le_r _ _ az).
    apply Qle_trans with (az + bz)%Q; [now apply Qplus_le_r|].
    apply Qle_trans with (2 * uz)%Q; [assumption|].
    assert (E : (2 * uz == uz + uz)%Q) by ring. rewrite E.
    now apply Qplus_le_l.
  - apply (Qplus_le_r _ _ uz).
    apply Qle_trans with (az + bz)%Q; [now apply Qplus_le_l|].
    apply Qle_trans with (2 * uz)%Q; [assumption|].
    assert (E : (2 * uz == uz + uz)%Q) by ring. rewrite E. apply Qle_refl.
  - now apply Qle_trans with az.
Qed.

(** C7 (the code departs from it).  A unit cube standing on the unit cube
    has its centre within the footprint of the lower cube and its bottom at
    the top of it, so case (b) of the claim holds and the claim says True;
    [get_value] returns False.  The line
    [above = center_inside and aabbB[1][2] <= aabbA[0][2]] reuses the
    three-axis [center_inside] of case (a), which no box with a height can
    meet together with the second operand: for every box A with a positive
    height whose bottom is at or above B's top the result is False.  With
    the boxes stored under the name "aabb", as the factory stores them, the
    call does not even return: the first assertion fails. *)
Theorem Inside_get_value_misses_object_above :
  claimed_inside cube_on_top unit_cube /\
  Inside_get_value (boxed "upper" cube_on_top) (boxed "lower" unit_cube) =
  Ok false /\
  (forall a b : aabb,
      (coord_z (fst a) < coord_z (snd a))%Q ->
      bottom_above_top a b ->
      inside_of_boxes a b = false) /\
  Inside_get_value (boxed_by_name "upper" cube_on_top)
                   (boxed_by_name "lower" unit_cube) =
  Raise AssertionError.
Proof.
  split; [|split; [|split]].
  - right. unfold center_in_footprint, bottom_above_top, within. cbn.
    repeat split; unfold Qle; simpl; lia.
  - vm_compute. reflexivity.
  - intros a b Hheight Habove.
    destruct (inside_of_boxes a b) eqn:E; [|reflexivity]. exfalso.
    apply inside_of_boxes_iff in E.
    assert (Hc : center_within a b)
      by (destruct E as [[Hc _] | [Hc _]]; exact Hc).
    destruct (above_case_is_flat a b (Qlt_le_weak _ _ Hheight) Hc Habove)
      as [Hlo Hhi].
    rewrite Hlo, Hhi in Hheight. exact (Qlt_irrefl _ Hheight).
  - reflexivity.
Qed.

(** Keyed by name, as the factory stores it, the box is not found and the
    first assertion of [get_value] fails. *)
Example Inside_get_value_name_keys :
  Inside_get_value sponge sponge = Raise AssertionError.
Proof. reflexivity. Qed.

(** ** ContactBodies.set_value *)

(** C9.  Whatever the argument, [set_value] on the caching-enabled state
    ContactBodies raises NotImplementedError (the UnsupportedOperationError
    of the spec) and leaves the stored value as it was. *)
Theorem ContactBodies_set_value_unsupported
    (new_value : list Z) (self : ContactBodies_state) :
  ContactBodies_set_value new_value self = (Raise NotImplementedError, self).
Proof. reflexivity. Qed.

(** ** Simulator.step *)

Lemma physics_loop_interleaves (self : simulator) (n : nat) :
  physics_loop self n = pass_after_each_substep self n.
Proof.
  unfold pass_after_each_substep.
  induction n as [|n IH]; [reflexivity|]. simpl. now rewrite IH.
Qed.

Lemma physics_loop_counts (self : simulator) (n : nat) (rest : list event) :
  forallb (fun e => negb (is_pass e) && negb (is_substep e)) rest = true ->
  count_passes (physics_loop self n ++ rest) = n /\
  count_substeps (physics_loop self n ++ rest) = n.
Proof.
  intros Hrest. unfold count_passes, count_substeps.
  assert (H0 : filter is_pass rest = [] /\ filter is_substep rest = []).
  { induction rest as [|e rest IH]; [auto|].
    simpl in Hrest. apply andb_true_iff in Hrest as [He Hrest].
    apply andb_true_iff in He as [Hp Hs].
    apply negb_true_iff in Hp, Hs. simpl. rewrite Hp, Hs. now apply IH. }
  destruct H0 as [Hp Hs].
  induction n as [|n [IH1 IH2]]; simpl.
  - now rewrite Hp, Hs.
  - rewrite IH1, IH2. auto.
Qed.

(** The pass visits the state identifiers in the order of
    [object_state_names] and, for each, the objects of the scene that carry
    it, in the order of the scene. *)
Lemma non_physics_step_updates (self : simulator) :
  _non_physics_step self =
  NonPhysicsStep
    (flat_map
       (fun state_name =>
          map (fun obj => (state_name, obj_name obj))
              (filter (fun obj => dict_mem key_eqb state_name (obj_states obj))
                      (get_objects (sim_scene self))))
       (object_state_names self)).
Proof.
  unfold _non_physics_step. f_equal. apply flat_map_ext. intros k.
  induction (get_objects (sim_scene self)) as [|o l IH]; [reflexivity|].
  simpl. rewrite IH. destruct (dict_mem key_eqb k (obj_states o)); reflexivity.
Qed.

(** C8 (as amended).  A call of [step] that returns runs one scheduler pass
    after every physics substep -- as many passes as substeps, each one
    right after its substep -- and all of them before the renderer sync;
    nothing after the sync is a pass or a substep. *)
Theorem step_runs_pass_after_each_substep
    (self : simulator) (forced_timestep : option Z) (tr : list event) :
  step self forced_timestep = Ok tr ->
  exists rest,
    tr = pass_after_each_substep self (substeps self forced_timestep) ++
         Sync :: rest /\
    count_passes tr = substeps self forced_timestep /\
    count_substeps tr = substeps self forced_timestep /\
    forallb (fun e => negb (is_pass e) && negb (is_substep e)) rest = true.
Proof.
  unfold step, substeps, step_vr. intros H.
  destruct (can_access_vr_context self).
  - injection H as <-.
    exists [SyncVrCompositor; PollVrEvents; FixEyeTrackingValue;
            PerformVrStartPosMove; UpdateVrData].
    split; [now rewrite physics_loop_interleaves|].
    split; [|split; [|reflexivity]];
      now apply physics_loop_counts.
  - destruct (physics_timestep_num self forced_timestep) as [n|];
      [|discriminate].
    simpl in H. injection H as <-. exists [].
    split; [now rewrite physics_loop_interleaves|].
    split; [|split; [|reflexivity]];
      now apply physics_loop_counts.
Qed.

Lemma step_runs_pass_after_each_substep_witness :
  exists tr rest,
    step default_simulator (Some 2%Z) = Ok tr /\
    tr = pass_after_each_substep default_simulator 2 ++ Sync :: rest /\
    count_passes tr = 2.
Proof.
  destruct (step_runs_pass_after_each_substep default_simulator (Some 2%Z)
              (physics_loop default_simulator 2 ++ [Sync]))
    as [rest [Htr [Hp _]]]; [reflexivity|].
  exists (physics_loop default_simulator 2 ++ [Sync]), rest.
  split; [reflexivity|]. split; [exact Htr | exact Hp].
Defined.

(** C8, as stated, fails with the default timesteps: a step has four
    physics substeps and runs four passes, the first of them before the
    second substep. *)
Lemma step_default_runs_four_passes :
  exists tr,
    step default_simulator None = Ok tr /\
    count_substeps tr = 4 /\
    count_passes tr = 4 /\
    ~ one_pass_after_physics tr.
Proof.
  eexists. split; [vm_compute; reflexivity|].
  split; [reflexivity|]. split; [reflexivity|].
  intros [n [updates [rest H]]].
  destruct n as [|[|n]]; simpl in H; discriminate.
Qed.

(** With a single substep the pass does run exactly once, between the
    substep and the sync. *)
Lemma step_single_substep (self : simulator) :
  can_access_vr_context self = false ->
  step self (Some 1%Z) = Ok [StepSimulation; _non_physics_step self; Sync].
Proof. intros H. unfold step. rewrite H. reflexivity. Qed.

(* ===================================================================== *)
(** * Part III. Further properties of the code                            *)
(* ===================================================================== *)

(** ** The factory *)

Lemma dict_set_In {V : Type} (d : dict state_key V) (k k' : state_key)
    (v v' : V) :
  In (k', v') (dict_set key_eqb k v d) -> (k' = k /\ v' = v) \/ In (k', v') d.
Proof.
  induction d as [|[k0 v0] d IH]; simpl.
  - intros [[= <- <-] | []]. now left.
  - destruct (key_eqb k k0) eqn:E; simpl.
    + apply key_eqb_true in E. subst k0.
      intros [[= <- <-] | H]; [now left | right; now right].
    + intros [H | H]; [right; now left|].
      destruct (IH H) as [H' | H']; [now left | right; now right].
Qed.

Lemma DummyState_not_registered (k : state_key) :
  class_of k <> Some DummyState.
Proof.
  intros H. apply dict_get_In in H.
  unfold _STATE_NAME_TO_CLASS_MAPPING in H. cbn [In] in H.
  repeat (destruct H as [H | H]; [discriminate H|]). contradiction.
Qed.

Lemma prepare_loop_instances (T : class_table) (obj : string) (fuel : nat) :
  forall i worklist states states',
    prepare_loop T fuel obj i worklist states = Some (Ok states') ->
    (forall k inst, In (k, inst) states ->
                    class_of k = Some (inst_class inst)) ->
    forall k inst, In (k, inst) states' -> class_of k = Some (inst_class inst).
Proof.
  induction fuel as [|fuel IH]; intros i wl st st' Hrun Hst; [discriminate|].
  cbn [prepare_loop] in Hrun.
  destruct (nth_error wl i) as [[k p]|].
  - destruct (get_object_state_instance T k obj (Some p) true) as [inst|]
      eqn:Hinst; [|discriminate].
    apply (IH _ _ _ _ Hrun). intros k' inst' Hin.
    apply dict_set_In in Hin as [[-> ->] | Hin]; [|now apply Hst].
    now apply instance_built with T obj p.
  - injection Hrun as <-. exact Hst.
Qed.

(** X1.  Whatever the online flag, every entry of a state map that
    [prepare_object_states] produces is stored under a name string and
    holds an instance of the class registered for that name; in particular
    no entry is a DummyState, even when [online] is False. *)
Theorem prepared_states_follow_registry
    (T : class_table) (fuel : nat) (default_iter : list state_key)
    (obj : string) (abilities : option (list (string * kwargs)))
    (online : bool) (states : dict state_key state_instance) :
  prepare_object_states T fuel default_iter obj abilities online =
  Some (Ok states) ->
  forall k inst, In (k, inst) states ->
    (exists s, k = Name s) /\
    class_of k = Some (inst_class inst) /\
    inst_class inst <> DummyState.
Proof.
  unfold prepare_object_states.
  destruct (extend_with_abilities _ _) as [wl|]; [|discriminate].
  intros Hrun k inst Hin.
  assert (Hc : class_of k = Some (inst_class inst)).
  { apply (prepare_loop_instances _ _ _ _ _ _ _ Hrun); [|assumption].
    intros k' inst' []. }
  split; [|split; [assumption|]].
  - apply registered_is_name. congruence.
  - intros Hd. rewrite Hd in Hc. now apply DummyState_not_registered in Hc.
Qed.

Lemma prepared_states_follow_registry_witness :
  exists states,
    prepare_object_states sample_table 100 _DEFAULT_STATE_SET "cabinet"
      (Some [("dustable", [])]) false = Some (Ok states) /\
    forall k inst, In (k, inst) states ->
      (exists s, k = Name s) /\
      class_of k = Some (inst_class inst) /\
      inst_class inst <> DummyState.
Proof.
  eexists. split; [vm_compute; reflexivity|].
  apply (prepared_states_follow_registry sample_table 100 _DEFAULT_STATE_SET
           "cabinet" (Some [("dustable", [])]) false).
  vm_compute. reflexivity.
Defined.

Lemma extend_with_abilities_Ok (abilities : list (string * kwargs)) :
  forall worklist worklist',
    extend_with_abilities worklist abilities = Ok worklist' ->
    worklist' = worklist ++ ability_entries abilities.
Proof.
  induction abilities as [|[a p] rest IH]; intros wl wl' H.
  - cbn in H. injection H as <-. now rewrite app_nil_r.
  - unfold ability_entries. cbn [extend_with_abilities flat_map fst snd] in *.
    unfold get_state_names_for_ability in H.
    destruct (dict_get str_eqb a _ABILITY_TO_STATE_MAPPING) as [names|];
      [|discriminate].
    cbn [bind] in H. apply IH in H. rewrite H. now rewrite <- app_assoc.
Qed.

(** X2.  An object that declares the scrubbable ability cannot be prepared:
    the required dependency of Stained is the class object AABB, which the
    name table does not hold, so whatever else is declared, whatever the
    keywords and whatever the absent classes declare, no state map is
    produced. *)
Theorem scrubbable_is_never_prepared
    (T : class_table) (fuel : nat) (default_iter : list state_key)
    (obj : string) (abilities : list (string * kwargs)) (p : kwargs)
    (online : bool) (states : dict state_key state_instance) :
  In ("scrubbable", p) abilities ->
  prepare_object_states T fuel default_iter obj (Some abilities) online <>
  Some (Ok states).
Proof.
  intros Hin Hrun. unfold prepare_object_states in Hrun.
  destruct (extend_with_abilities _ abilities) as [wl|] eqn:Hext;
    [|discriminate].
  apply extend_with_abilities_Ok in Hext. subst wl.
  destruct (prepare_loop_visits_registered _ _ _ _ _ _ _ Hrun
              (Name "stained", p)) as [_ Hdeps].
  - cbn [skipn]. apply in_or_app. right. apply in_ability_entries.
    exists "scrubbable", [Name "stained"]. cbn [fst snd].
    split; [assumption|]. split; [reflexivity | now left].
  - apply (Hdeps (Class AABB)); [cbn; now left | reflexivity].
Qed.

Lemma scrubbable_is_never_prepared_witness :
  prepare_object_states sample_table 100 _DEFAULT_STATE_SET "sink"
    (Some [("dustable", []); ("scrubbable", [])]) true <> Some (Ok []).
Proof.
  apply (scrubbable_is_never_prepared sample_table 100 _DEFAULT_STATE_SET
           "sink" [("dustable", []); ("scrubbable", [])] []).
  right. now left.
Defined.

(** A run that returns has visited, for every entry, all the chains of
    required dependencies that start at it: their length is bounded by the
    number of iterations. *)
Lemma prepare_loop_bounds_chains (T : class_table) (obj : string)
    (fuel : nat) :
  forall i worklist states states',
    prepare_loop T fuel obj i worklist states = Some (Ok states') ->
    forall e, In e (skipn i worklist) ->
    forall n, chain_from T (fst e) n -> n < fuel.
Proof.
  induction fuel as [|fuel IH]; intros i wl st st' Hrun e He n Hchain;
    [discriminate|].
  cbn [prepare_loop] in Hrun.
  destruct (nth_error wl i) as [[k p]|] eqn:Hnth.
  - destruct (get_object_state_instance T k obj (Some p) true) as [inst|]
      eqn:Hinst; [|discriminate].
    cbv zeta in Hrun. rewrite add_dependencies_app in Hrun.
    pose proof (instance_built _ _ _ _ _ Hinst) as Hc.
    assert (Hlen : i < length wl) by (apply nth_error_Some; congruence).
    assert (Hsplit : skipn i wl = (k, p) :: skipn (S i) wl).
    { clear - Hnth. revert i Hnth.
      induction wl as [|x wl IHwl]; intros [|i] H; simpl in *;
        try discriminate.
      - now injection H as ->.
      - now apply IHwl. }
    assert (Hlater : forall x,
               In x (skipn (S i) wl) \/
               In x (map dep_entry (get_dependencies T (inst_class inst))) ->
               In x (skipn (S i)
                       (wl ++ map dep_entry
                                (get_dependencies T (inst_class inst))))).
    { intros x Hx. rewrite skipn_app.
      replace (S i - length wl) with 0 by lia. cbn [skipn].
      apply in_or_app. exact Hx. }
    rewrite Hsplit in He. destruct He as [<- | He].
    + cbn [fst] in Hchain.
      inversion Hchain as [k' | k' d n' Hreq Hrest]; subst; [lia|].
      unfold requires, required_of in Hreq. rewrite Hc in Hreq.
      assert (Hin : In (dep_entry d)
                       (skipn (S i)
                          (wl ++ map dep_entry
                                   (get_dependencies T (inst_class inst))))).
      { apply Hlater. right. now apply in_map. }
      pose proof (IH _ _ _ _ Hrun (dep_entry d) Hin n' Hrest). lia.
    + assert (Hin : In e (skipn (S i)
                            (wl ++ map dep_entry
                                     (get_dependencies T (inst_class inst)))))
        by (apply Hlater; now left).
      pose proof (IH _ _ _ _ Hrun e Hin n Hchain). lia.
  - apply nth_error_None in Hnth.
    rewrite skipn_all2 in He by assumption. contradiction.
Qed.

Lemma clos_trans_first {A : Type} (R : A -> A -> Prop) (x z : A) :
  clos_trans A R x z -> exists y, R x y /\ (y = z \/ clos_trans A R y z).
Proof.
  induction 1 as [x z Hxz | x y z _ [y' [Hxy' Hy']] Hyz _].
  - exists z. auto.
  - exists y'. split; [assumption|]. right.
    destruct Hy' as [-> | Hy']; [assumption|].
    now apply t_trans with y.
Qed.

Lemma chain_from_cycle (T : class_table) (k : state_key) :
  clos_trans state_key (requires T) k k ->
  forall n x, clos_trans state_key (requires T) x k -> chain_from T x n.
Proof.
  intros Hcycle. induction n as [|n IH]; intros x Hx; [constructor|].
  apply clos_trans_first in Hx as [y [Hxy Hy]].
  apply chain_next with y; [assumption|].
  apply IH. destruct Hy as [-> | Hy]; assumption.
Qed.

Lemma chain_from_reach (T : class_table) (start : list state_key)
    (k : state_key) :
  reach T start k ->
  (forall n, chain_from T k n) ->
  exists k0, In k0 start /\ forall n, chain_from T k0 n.
Proof.
  induction 1 as [k Hin | k d Hr IH Hd]; intros Hall.
  - now exists k.
  - apply IH. intros n.
    assert (Hc : chain_from T k (S n)) by (apply chain_next with d; auto).
    clear - Hc. revert k Hc.
    induction n as [|n IHn]; intros k Hc; [constructor|].
    inversion Hc as [|? d' ? Hreq Hrest]; subst.
    apply chain_next with d'; [assumption | now apply IHn].
Qed.

(** X3.  When an identifier that the object is expected to carry lies on a
    cycle of required dependencies, [prepare_object_states] never produces a
    state map: the membership test of the loop never finds a dependency in
    the list, so the list keeps growing (or a constructor call fails on the
    way). *)
Theorem cyclic_requirements_are_never_prepared
    (T : class_table) (fuel : nat) (default_iter : list state_key)
    (obj : string) (abilities : list (string * kwargs)) (online : bool)
    (states : dict state_key state_instance) (k : state_key) :
  Permutation default_iter _DEFAULT_STATE_SET ->
  expected_key T abilities k ->
  clos_trans state_key (requires T) k k ->
  prepare_object_states T fuel default_iter obj (Some abilities) online <>
  Some (Ok states).
Proof.
  intros Hperm Hexp Hcycle Hrun. unfold prepare_object_states in Hrun.
  destruct (extend_with_abilities _ abilities) as [wl|] eqn:Hext;
    [|discriminate].
  apply extend_with_abilities_Ok in Hext. subst wl.
  unfold get_default_state_names in Hrun.
  apply (reach_expected T abilities default_iter Hperm) in Hexp.
  destruct (chain_from_reach T _ k Hexp) as [k0 [Hk0 Hall]].
  { intros n. now apply chain_from_cycle with k. }
  apply in_map_iff in Hk0 as [e [<- He]].
  pose proof (prepare_loop_bounds_chains _ _ _ _ _ _ _ Hrun e He fuel
                (Hall fuel)).
  lia.
Qed.

Lemma cyclic_requirements_are_never_prepared_witness :
  prepare_object_states cyclic_table 1000 _DEFAULT_STATE_SET "cabinet"
    (Some [("dustable", [])]) true <> Some (Ok []).
Proof.
  apply (cyclic_requirements_are_never_prepared cyclic_table 1000
           _DEFAULT_STATE_SET "cabinet" [("dustable", [])] true []
           (Name "aabb")).
  - apply Permutation_refl.
  - apply expected_required with (Name "dirty").
    + apply expected_ability with "dustable" [] [Name "dirty"];
        [now left | reflexivity | now left].
    + cbn. now left.
  - apply t_trans with (Name "pose"); apply t_step; cbn; now left.
Defined.

(** The nodes of the graph built from a dictionary of lists are its keys
    and the listed neighbours, and nothing else. *)
Lemma from_dict_of_lists_nodes (d : dict state_key (list state_key))
    (x : state_key) :
  In x (nodes (from_dict_of_lists d)) <->
  In x (dict_keys d) \/ exists a nbrs, In (a, nbrs) d /\ In x nbrs.
Proof.
  unfold from_dict_of_lists.
  destruct (fold_add_node_spec (dict_keys d) [] graph_wf_empty)
    as [Hwf0 [Hn0 _]].
  destruct (fold_add_edge_spec (edge_list d) _ Hwf0) as [_ [Hn _]].
  fold (edge_list d). rewrite Hn, Hn0. cbn [nodes dict_keys map In]. split.
  - intros [[[] | Hk] | [Hf | Hs]].
    + now left.
    + left. apply in_map_iff in Hf as [[a b] [<- Hab]].
      apply in_edge_list in Hab as [nbrs [Hin _]].
      apply in_map_iff. now exists (a, nbrs).
    + right. apply in_map_iff in Hs as [[a b] [<- Hab]].
      apply in_edge_list in Hab as [nbrs [Hin Hb]]. now exists a, nbrs.
  - intros [Hk | [a [nbrs [Hin Hx]]]].
    + left. now right.
    + right. right. apply in_map_iff. exists (a, x). split; [reflexivity|].
      apply in_edge_list. now exists nbrs.
Qed.

(** X4.  When the registered dependencies, required and optional, are
    acyclic, [get_states_by_dependency_order] returns; the order has no
    repetition and lists exactly the registered names together with every
    identifier that some registered state declares as a dependency -- so
    also the class objects that Stained declares. *)
Theorem dependency_order_lists_every_identifier
    (lifo : bool) (T : class_table) (all_iter : list state_key)
    (rank : state_key -> nat) :
  Permutation all_iter (dict_keys _STATE_NAME_TO_CLASS_MAPPING) ->
  (forall state dep, depends_on T state dep -> rank dep < rank state) ->
  exists order,
    get_states_by_dependency_order lifo T all_iter = Some (Ok order) /\
    NoDup order /\
    forall k, In k order <->
              In k (dict_keys _STATE_NAME_TO_CLASS_MAPPING) \/
              exists state, depends_on T state k.
Proof.
  intros Hperm Hrank.
  destruct (dependency_graph_edges T all_iter Hperm) as [HG [Hwf Hedges]].
  set (G := from_dict_of_lists (dependency_dict T all_iter)) in *.
  set (top := list_max (map rank (nodes G))).
  assert (Hbound : forall u, In u (nodes G) -> rank u <= top).
  { intros u Hu.
    assert (Hle : list_max (map rank (nodes G)) <= top) by (unfold top; lia).
    rewrite list_max_le, Forall_forall in Hle. apply Hle.
    now apply in_map. }
  destruct (topological_sort_acyclic lifo G (fun k => top - rank k) Hwf)
    as [sorted [Hsort [Hnd [Hcover _]]]].
  { intros u v Huv.
    assert (Hu : In u (nodes G)) by now apply successors_nonempty_node with v.
    apply Hbound in Hu. apply Hedges, Hrank in Huv. lia. }
  exists (rev sorted). split; [| split].
  - unfold get_states_by_dependency_order. rewrite HG. fold G.
    now rewrite Hsort.
  - now apply NoDup_rev.
  - intros k. rewrite <- in_rev, Hcover. unfold G.
    rewrite from_dict_of_lists_nodes.
    assert (Hkeys : dict_keys (dependency_dict T all_iter) = all_iter).
    { unfold dependency_dict, dict_keys. rewrite map_map. simpl.
      apply map_id. }
    rewrite Hkeys. split.
    + intros [Hk | [a [nbrs [Hin Hx]]]].
      * left. now apply (Permutation_in _ Hperm).
      * right. exists a. apply Hedges.
        apply from_dict_of_lists_spec. now exists nbrs.
    + intros [Hk | [state Hdep]].
      * left. now apply (Permutation_in _ (Permutation_sym Hperm)).
      * right. apply Hedges in Hdep.
        apply from_dict_of_lists_spec in Hdep as [nbrs [Hin Hx]].
        now exists state, nbrs.
Qed.

Lemma sample_rank_decreases (state dep : state_key) :
  depends_on sample_table state dep -> sample_rank dep < sample_rank state.
Proof.
  intros [Hs Hd]. unfold _STATE_NAME_TO_CLASS_MAPPING in Hs.
  cbn [dict_keys map fst In] in Hs.
  repeat (destruct Hs as [<- | Hs];
          [ vm_compute in Hd;
            repeat (destruct Hd as [<- | Hd]; [vm_compute; lia|]);
            contradiction |]).
  contradiction.
Qed.

Lemma dependency_order_lists_every_identifier_witness :
  exists order,
    get_states_by_dependency_order true sample_table
      (dict_keys _STATE_NAME_TO_CLASS_MAPPING) = Some (Ok order) /\
    NoDup order /\
    forall k, In k order <->
              In k (dict_keys _STATE_NAME_TO_CLASS_MAPPING) \/
              exists state, depends_on sample_table state k.
Proof.
  apply (dependency_order_lists_every_identifier true sample_table
           (dict_keys _STATE_NAME_TO_CLASS_MAPPING) sample_rank).
  - apply Permutation_refl.
  - exact sample_rank_decreases.
Defined.

Lemma fold_store_get_other (q : list entry) :
  forall states k,
    ~ In k (map fst q) ->
    dict_get key_eqb k (fold_left store q states) = dict_get key_eqb k states.
Proof.
  induction q as [|e q IH]; intros states k Hk; [reflexivity|].
  cbn [fold_left]. rewrite IH by (intros H; apply Hk; now right).
  unfold store. apply dict_get_set_other. intros ->. apply Hk. now left.
Qed.

Lemma fold_store_get_in (q : list entry) :
  Forall (fun e => snd e = []) q ->
  forall states k,
    In k (map fst q) ->
    dict_get key_eqb k (fold_left store q states) = Some (built (k, [])).
Proof.
  induction q as [|e q IH]; intros Hall states k Hk; [contradiction|].
  inversion Hall as [|? ? He Hall']; subst. cbn [fold_left].
  destruct (in_dec state_key_eq_dec k (map fst q)) as [Hin | Hnot].
  - now apply IH.
  - rewrite fold_store_get_other by assumption.
    destruct Hk as [<- | Hk]; [|contradiction].
    unfold store. rewrite dict_get_set_same.
    destruct e as [k p]. cbn [snd] in He. now subst p.
Qed.

Section PrepareDependencies.
Variable T : class_table.
Variable obj : string.
Variable allowed : list state_key.
Variable rank : state_key -> nat.
Hypothesis closed :
forall k, In k allowed ->
  exists c, class_of k = Some c /\
            forall d, In d (get_dependencies T c) ->
                      In d allowed /\ rank d < rank k /\
                      exists cd, class_of d = Some cd /\
                                 accepts T cd [] = true.

(** From a list of entries without keywords, the loop ends with every
  identifier it reached stored as built without keywords, and every
  other key as it was. *)
Lemma prepare_loop_rebuilds_dependencies (n : nat) :
forall q pre states,
  Forall (buildable T) q ->
  Forall (fun e => snd e = []) q ->
  (forall e, In e q -> In (fst e) allowed /\ rank (fst e) < n) ->
  exists fuel states',
    prepare_loop T fuel obj (length pre) (pre ++ q) states =
    Some (Ok states') /\
    (forall k, dict_get key_eqb k states' = dict_get key_eqb k states \/
               dict_get key_eqb k states' = Some (built (k, []))) /\
    (forall k, reach T (map fst q) k ->
               dict_get key_eqb k states' = Some (built (k, []))).
Proof.
induction n as [|n IH]; intros q pre states Hb Hempty Hq.
- destruct q as [|e q].
  + exists 1, states. simpl. rewrite app_nil_r.
    replace (nth_error pre (length pre)) with (@None entry).
    2:{ symmetry. apply nth_error_None. lia. }
    split; [reflexivity|]. split; [now left|].
    intros k H. exfalso. clear - H.
    induction H as [k Hin | k d Hr IHr Hd]; auto.
  + destruct (Hq e (or_introl eq_refl)) as [_ Hlt]. lia.
- set (q' := map dep_entry (flat_map (fun e => required_of T (fst e)) q)).
  assert (Hb' : Forall (buildable T) q').
  { apply Forall_forall. intros e He. unfold q' in He.
    apply in_map_iff in He as [d [<- Hd]].
    apply in_flat_map in Hd as [e0 [He0 Hd]].
    destruct (Hq e0 He0) as [Ha _].
    now destruct (required_allowed T allowed rank closed _ _ Ha Hd)
      as [_ [_ Hbd]]. }
  assert (Hempty' : Forall (fun e => snd e = []) q').
  { apply Forall_forall. intros e He. unfold q' in He.
    now apply in_map_iff in He as [d [<- _]]. }
  assert (Hq' : forall e, In e q' -> In (fst e) allowed /\ rank (fst e) < n).
  { intros e He. unfold q' in He.
    apply in_map_iff in He as [d [<- Hd]].
    apply in_flat_map in Hd as [e0 [He0 Hd]].
    destruct (Hq e0 He0) as [Ha Hlt].
    destruct (required_allowed T allowed rank closed _ _ Ha Hd)
      as [Hda [Hr _]].
    simpl. split; [assumption | lia]. }
  destruct (IH q' (pre ++ q) (fold_left store q states) Hb' Hempty' Hq')
    as [fuel [states' [Hrun [Hkeep Hreach]]]].
  assert (Hfm : map fst q' = flat_map (required_of T) (map fst q)).
  { unfold q'. rewrite map_map. simpl. rewrite map_id.
    clear. induction q as [|e q IHq]; simpl; [reflexivity|].
    now rewrite IHq. }
  exists (length q + fuel), states'.
  split; [| split].
  + pose proof (prepare_loop_generation T obj q Hb pre [] states fuel)
      as Hg.
    rewrite !app_nil_r in Hg. simpl in Hg. rewrite Hg.
    rewrite length_app, <- app_assoc in Hrun. exact Hrun.
  + intros k. destruct (Hkeep k) as [Hk | Hk]; [|now right].
    rewrite Hk.
    destruct (in_dec state_key_eq_dec k (map fst q)) as [Hin | Hnot].
    * right. now apply fold_store_get_in.
    * left. now apply fold_store_get_other.
  + intros k Hk. apply reach_unfold in Hk as [Hin | Hlater].
    * destruct (Hkeep k) as [Hsame | Hnew]; [|assumption].
      rewrite Hsame. now apply fold_store_get_in.
    * apply Hreach. now rewrite Hfm.
Qed.
End PrepareDependencies.

Lemma reach_required (T : class_table) (start : list state_key)
    (k0 k : state_key) :
  reach T start k0 -> In k (required_of T k0) ->
  reach T (flat_map (required_of T) start) k.
Proof.
  intros Hr Hk. apply reach_unfold in Hr as [Hin | Hlater].
  - apply reach_start. apply in_flat_map. now exists k0.
  - now apply reach_step with k0.
Qed.

(** X5.  In the state map of a request that the factory can serve, every
    state that is a required dependency of a state of the object has been
    built without keywords: the dependency is appended with empty
    keywords and built after the states of the abilities, so the keywords
    that an ability gave to the same state are dropped. *)
Theorem required_dependencies_are_built_without_keywords
    (T : class_table) (fuel : nat) (default_iter : list state_key)
    (obj : string) (abilities : list (string * kwargs)) (online : bool)
    (allowed : list state_key) (rank : state_key -> nat)
    (states : dict state_key state_instance) :
  servable T abilities allowed rank ->
  Permutation default_iter _DEFAULT_STATE_SET ->
  prepare_object_states T fuel default_iter obj (Some abilities) online =
  Some (Ok states) ->
  forall k0 k,
    expected_key T abilities k0 -> In k (required_of T k0) ->
    exists c,
      class_of k = Some c /\
      dict_get key_eqb k states =
      Some {| inst_class := c; inst_params := [] |}.
Proof.
  intros Hs Hperm Hrun k0 k Hexp Hreq.
  destruct (servable_worklist T abilities allowed rank default_iter Hs Hperm)
    as [Hb Hal].
  set (wl := map (fun n : state_key => (n, @nil (string * pyvalue)))
                 default_iter ++ ability_entries abilities) in *.
  set (q' := map dep_entry (flat_map (fun e => required_of T (fst e)) wl)).
  destruct Hs as [Hclosed Hdef Hab].
  assert (Hfm : map fst q' = flat_map (required_of T) (map fst wl)).
  { unfold q'. rewrite map_map. simpl. rewrite map_id.
    clear. induction wl as [|e q IHq]; simpl; [reflexivity|].
    now rewrite IHq. }
  set (n := S (list_max (map (fun e : entry => rank (fst e)) q'))).
  assert (Hdep : forall e, In e q' ->
                            In (fst e) allowed /\ buildable T e).
  { intros e He. unfold q' in He. apply in_map_iff in He as [d [<- Hd]].
    apply in_flat_map in Hd as [e0 [He0 Hd]].
    destruct (required_allowed T allowed rank Hclosed (fst e0) d
                (Hal e0 He0) Hd) as [Hda [_ Hbd]].
    now split. }
  assert (Hq' : forall e, In e q' -> In (fst e) allowed /\ rank (fst e) < n).
  { intros e He. split.
    - now apply Hdep.
    - unfold n.
      assert (Hle : list_max (map (fun e : entry => rank (fst e)) q')
                    <= list_max (map (fun e : entry => rank (fst e)) q'))
        by lia.
      rewrite list_max_le, Forall_forall in Hle.
      assert (Hin : In (rank (fst e))
                       (map (fun e : entry => rank (fst e)) q')).
      { apply in_map_iff. now exists e. }
      apply Hle in Hin. lia. }
  assert (Hb' : Forall (buildable T) q').
  { apply Forall_forall. intros e He. now apply Hdep. }
  assert (Hempty' : Forall (fun e => snd e = []) q').
  { apply Forall_forall. intros e He. unfold q' in He.
    now apply in_map_iff in He as [d [<- _]]. }
  destruct (prepare_loop_rebuilds_dependencies T obj allowed rank Hclosed n
              q' wl (fold_left store wl []) Hb' Hempty' Hq')
    as [fuel2 [states2 [Hrun2 [_ Hreach]]]].
  assert (Hrun0 : prepare_object_states T (length wl + fuel2) default_iter
                    obj (Some abilities) online = Some (Ok states2)).
  { unfold prepare_object_states, get_default_state_names.
    rewrite extend_with_abilities_known.
    2:{ intros a p Hin. destruct (Hab a p Hin) as [names [E _]].
        congruence. }
    pose proof (prepare_loop_generation T obj wl Hb [] [] [] fuel2) as Hg.
    rewrite !app_nil_r in Hg. simpl in Hg.
    exact (eq_trans Hg Hrun2). }
  apply (prepare_object_states_more_fuel _ _ _ _ _ _ _ (length wl + fuel2))
    in Hrun.
  apply (prepare_object_states_more_fuel _ _ _ _ _ _ _ fuel) in Hrun0.
  rewrite Nat.add_comm in Hrun0. rewrite Hrun0 in Hrun.
  injection Hrun as <-.
  assert (Hget : dict_get key_eqb k states2 = Some (built (k, []))).
  { apply Hreach. rewrite Hfm. apply reach_required with k0; [|assumption].
    now apply (reach_expected T abilities default_iter Hperm). }
  assert (Hk : In k allowed /\ rank k < rank k0 /\ buildable T (dep_entry k)).
  { apply (required_allowed T allowed rank Hclosed k0 k); [|assumption].
    clear - Hexp Hclosed Hdef Hab.
    induction Hexp as [k Hin | a p names k Hin E Hn | k d He IH Hd].
    - now apply Hdef.
    - destruct (Hab a p Hin) as [names' [E' Hall]].
      rewrite E in E'. injection E' as <-. now apply Hall.
    - now apply (required_allowed T allowed rank Hclosed k d). }
  destruct Hk as [Hk _]. destruct (Hclosed k Hk) as [c [Hc _]].
  exists c. split; [assumption|]. rewrite Hget. unfold built.
  cbn [fst snd]. now rewrite Hc.
Qed.

Lemma stove_servable :
  servable stove_table stove_abilities stove_allowed stove_rank.
Proof.
  constructor.
  - intros k Hk. unfold stove_allowed in Hk. cbn [In] in Hk.
    repeat (destruct Hk as [<- | Hk];
            [ eexists; split; [reflexivity|];
              intros d Hd; cbn in Hd;
              repeat (destruct Hd as [<- | Hd];
                      [ split; [cbn; tauto|];
                        split; [vm_compute; lia|];
                        eexists; split; reflexivity |]);
              contradiction |]).
    contradiction.
  - intros k Hk. vm_compute in Hk. unfold stove_allowed. cbn [In].
    repeat (destruct Hk as [<- | Hk];
            [ split; [tauto|]; eexists; split; reflexivity |]).
    contradiction.
  - intros a p [[= <- <-] | [[= <- <-] | []]].
    + exists [Name "heatSource"]. split; [reflexivity|].
      intros k [<- | []]. split; [unfold stove_allowed; cbn [In]; tauto|].
      exists HeatSource. split; reflexivity.
    + exists [Name "cooked"]. split; [reflexivity|].
      intros k [<- | []]. split; [unfold stove_allowed; cbn [In]; tauto|].
      exists Cooked. split; reflexivity.
Qed.

Lemma required_dependencies_are_built_without_keywords_witness :
  exists states c,
    prepare_object_states stove_table 100 _DEFAULT_STATE_SET "stove"
      (Some stove_abilities) true = Some (Ok states) /\
    class_of (Name "heatSource") = Some c /\
    dict_get key_eqb (Name "heatSource") states =
    Some {| inst_class := c; inst_params := [] |}.
Proof.
  eexists.
  destruct (required_dependencies_are_built_without_keywords stove_table 100
              _DEFAULT_STATE_SET "stove" stove_abilities true stove_allowed
              stove_rank _ stove_servable (Permutation_refl _)
              ltac:(vm_compute; reflexivity)
              (Name "cooked") (Name "heatSource")) as [c [Hc Hget]].
  - apply expected_ability with "cookable" [] [Name "cooked"];
      [right; now left | reflexivity | now left].
  - cbn. now left.
  - exists c. split; [reflexivity|]. split; [exact Hc | exact Hget].
Defined.

(** ** The scene index *)

Lemma dict_mem_keys {V : Type} (k : state_key) (d : dict state_key V) :
  dict_mem key_eqb k d = mem k (dict_keys d).
Proof.
  unfold dict_mem. induction d as [|[k' v'] d IH]; [reflexivity|].
  cbn [dict_get dict_keys map fst]. change (mem k (k' :: map fst d))
    with (key_eqb k k' || mem k (dict_keys d)).
  destruct (key_eqb k k'); [reflexivity | exact IH].
Qed.

Lemma str_dict_set_fresh {V : Type} (n : string) (v : V)
    (d : dict string V) :
  ~ In n (dict_keys d) -> dict_set str_eqb n v d = d ++ [(n, v)].
Proof.
  induction d as [|[n' v'] d IH]; intros Hn; [reflexivity|].
  cbn [dict_set]. unfold str_eqb at 1.
  destruct (String.eqb n n') eqn:E.
  - apply String.eqb_eq in E. subst. exfalso. apply Hn. now left.
  - cbn [app]. rewrite IH; [reflexivity|]. intros H. apply Hn. now right.
Qed.

Lemma by_name_get (objs : list sim_object) (o : sim_object) :
  NoDup (map obj_name objs) -> In o objs ->
  dict_get str_eqb (obj_name o) (by_name objs) = Some o.
Proof.
  induction objs as [|x objs IH]; intros Hnd Hin; [contradiction|].
  inversion Hnd as [|? ? Hnotin Hnd']; subst.
  cbn [by_name map dict_get]. unfold str_eqb at 1.
  destruct (String.eqb (obj_name o) (obj_name x)) eqn:E.
  - destruct Hin as [-> | Hin]; [reflexivity|].
    apply String.eqb_eq in E. exfalso. apply Hnotin. rewrite <- E.
    now apply in_map.
  - destruct Hin as [-> | Hin]; [now rewrite String.eqb_refl in E|].
    now apply IH.
Qed.

Lemma deref_by_name (sc : scene) (objs l : list sim_object) :
  objects_by_name sc = by_name objs ->
  NoDup (map obj_name objs) ->
  (forall o, In o l -> In o objs) ->
  deref sc (map obj_name l) = l.
Proof.
  intros Hsc Hnd. unfold deref. rewrite Hsc.
  induction l as [|o l IH]; intros Hl; [reflexivity|].
  cbn [map flat_map]. rewrite by_name_get; [|assumption | apply Hl; now left].
  cbn [app]. f_equal. apply IH. intros o' Ho'. apply Hl. now right.
Qed.

(** What the loop over [obj.states] leaves in the index by state. *)
Lemma index_after_keys (name : string) (keys : list state_key) :
  NoDup keys ->
  forall idx : dict state_key (list string),
    NoDup (dict_keys idx) ->
    let idx' :=
      fold_left
        (fun idx state =>
           let idx :=
             if negb (dict_mem key_eqb state idx)
             then dict_set key_eqb state [] idx else idx in
           match dict_get key_eqb state idx with
           | Some l => dict_set key_eqb state (l ++ [name]) idx
           | None => idx
           end) keys idx in
    NoDup (dict_keys idx') /\
    forall k,
      dict_get key_eqb k idx' =
      if mem k keys
      then Some (match dict_get key_eqb k idx with
                 | Some l => l
                 | None => []
                 end ++ [name])
      else dict_get key_eqb k idx.
Proof.
  induction keys as [|s keys IH]; intros Hnd idx Hidx; cbn [fold_left].
  - split; [assumption | reflexivity].
  - inversion Hnd as [|? ? Hnotin Hnd']; subst.
    set (old := match dict_get key_eqb s idx with
                | Some l => l
                | None => []
                end).
    set (idx1 := if negb (dict_mem key_eqb s idx)
                 then dict_set key_eqb s [] idx else idx).
    assert (H1 : dict_get key_eqb s idx1 = Some old /\
                 NoDup (dict_keys idx1) /\
                 forall k, k <> s ->
                           dict_get key_eqb k idx1 = dict_get key_eqb k idx).
    { unfold idx1, old, dict_mem.
      destruct (dict_get key_eqb s idx) as [l|] eqn:E; cbn [negb].
      - auto.
      - split; [apply dict_get_set_same|].
        split; [now apply dict_keys_set_NoDup|].
        intros k Hk. now apply dict_get_set_other. }
    destruct H1 as [Hs [Hnd1 Hother]]. rewrite Hs.
    set (idx2 := dict_set key_eqb s (old ++ [name]) idx1).
    destruct (IH Hnd' idx2 (dict_keys_set_NoDup _ _ _ Hnd1))
      as [Hnd2 Hget].
    split; [exact Hnd2|].
    intros k. rewrite Hget.
    change (mem k (s :: keys)) with (key_eqb k s || mem k keys).
    destruct (key_eqb k s) eqn:E.
    + apply key_eqb_true in E. subst k. cbn [orb].
      rewrite (proj2 (mem_false s keys) Hnotin).
      unfold idx2. now rewrite dict_get_set_same.
    + apply key_eqb_false in E. cbn [orb].
      unfold idx2. rewrite dict_get_set_other by assumption.
      now rewrite Hother.
Qed.

Lemma filter_snoc {A : Type} (f : A -> bool) (l : list A) (x : A) :
  filter f (l ++ [x]) = filter f l ++ (if f x then [x] else []).
Proof.
  induction l as [|a l IH]; simpl.
  - destruct (f x); reflexivity.
  - rewrite IH. destruct (f a); reflexivity.
Qed.

(** Adding an object under a new name extends both indexes by it. *)
Lemma add_object_indexes (sc : scene) (objs : list sim_object)
    (o : sim_object) :
  objects_by_name sc = by_name objs ->
  NoDup (dict_keys (objects_by_state sc)) ->
  (forall k, dict_get key_eqb k (objects_by_state sc) = index_entry k objs) ->
  ~ In (obj_name o) (map obj_name objs) ->
  NoDup (dict_keys (obj_states o)) ->
  objects_by_name (add_object o sc) = by_name (objs ++ [o]) /\
  NoDup (dict_keys (objects_by_state (add_object o sc))) /\
  forall k, dict_get key_eqb k (objects_by_state (add_object o sc)) =
            index_entry k (objs ++ [o]).
Proof.
  intros Hnames Hnd Hidx Hfresh Hkeys. unfold add_object.
  cbn [objects_by_name objects_by_state].
  destruct (index_after_keys (obj_name o) (dict_keys (obj_states o)) Hkeys
              (objects_by_state sc) Hnd) as [Hnd' Hget].
  split; [| split; [exact Hnd'|]].
  - rewrite Hnames. unfold by_name at 2. rewrite map_app.
    apply str_dict_set_fresh. unfold by_name, dict_keys.
    rewrite map_map. exact Hfresh.
  - intros k. rewrite Hget, Hidx. unfold index_entry.
    rewrite filter_snoc.
    assert (Hc : carries k o = mem k (dict_keys (obj_states o)))
      by apply dict_mem_keys.
    rewrite Hc. destruct (mem k (dict_keys (obj_states o))).
    + destruct (filter (carries k) objs) as [|x l]; [reflexivity|].
      cbn [app map]. rewrite map_app. reflexivity.
    + rewrite app_nil_r. reflexivity.
Qed.

Lemma populate_indexes (objs : list sim_object) :
  NoDup (map obj_name objs) ->
  (forall o, In o objs -> NoDup (dict_keys (obj_states o))) ->
  objects_by_name (populate objs) = by_name objs /\
  NoDup (dict_keys (objects_by_state (populate objs))) /\
  forall k, dict_get key_eqb k (objects_by_state (populate objs)) =
            index_entry k objs.
Proof.
  unfold populate.
  assert (H : forall rest done sc,
             objects_by_name sc = by_name done ->
             NoDup (dict_keys (objects_by_state sc)) ->
             (forall k, dict_get key_eqb k (objects_by_state sc) =
                        index_entry k done) ->
             NoDup (map obj_name (done ++ rest)) ->
             (forall o, In o rest -> NoDup (dict_keys (obj_states o))) ->
             let sc' := fold_left (fun sc o => add_object o sc) rest sc in
             objects_by_name sc' = by_name (done ++ rest) /\
             NoDup (dict_keys (objects_by_state sc')) /\
             forall k, dict_get key_eqb k (objects_by_state sc') =
                       index_entry k (done ++ rest)).
  { induction rest as [|o rest IH]; intros done sc H1 H2 H3 Hnd Hk.
    - cbn [fold_left]. rewrite app_nil_r. auto.
    - cbn [fold_left].
      assert (Hfresh : ~ In (obj_name o) (map obj_name done)).
      { rewrite map_app in Hnd. cbn [map] in Hnd.
        apply NoDup_remove_2 in Hnd. intros Hin. apply Hnd.
        apply in_or_app. now left. }
      destruct (add_object_indexes sc done o H1 H2 H3 Hfresh
                  (Hk o (or_introl eq_refl))) as [H1' [H2' H3']].
      replace (done ++ o :: rest) with ((done ++ [o]) ++ rest) in *
        by (now rewrite <- app_assoc).
      apply IH; auto. intros o' Ho'. apply Hk. now right. }
  intros Hnd Hk.
  apply (H objs [] empty_scene); auto; try reflexivity. constructor.
Qed.

(** X6.  In a scene filled by adding objects under pairwise distinct names,
    the two lookups agree with the list of objects: [get_objects] returns
    the objects in the order they were added, and
    [get_objects_with_state(state)], although answered from the index,
    returns exactly the objects that carry the state, in that same order. *)
Theorem scene_index_agrees_with_scan (objs : list sim_object) :
  NoDup (map obj_name objs) ->
  (forall o, In o objs -> NoDup (dict_keys (obj_states o))) ->
  get_objects (populate objs) = objs /\
  forall state,
    get_objects_with_state (populate objs) state =
    filter (fun o => dict_mem key_eqb state (obj_states o)) objs.
Proof.
  intros Hnd Hk. destruct (populate_indexes objs Hnd Hk) as [H1 [_ H3]].
  split.
  - unfold get_objects. rewrite H1. unfold by_name. rewrite map_map.
    apply map_id.
  - intros state. unfold get_objects_with_state. rewrite H3.
    unfold index_entry. fold (carries state).
    destruct (filter (carries state) objs) as [|x l] eqn:E; [reflexivity|].
    apply (deref_by_name _ objs); [assumption | assumption |].
    intros o Ho. rewrite <- E in Ho. now apply filter_In in Ho.
Qed.

Lemma scene_index_agrees_with_scan_witness :
  get_objects (populate [sponge; mop]) = [sponge; mop] /\
  forall state,
    get_objects_with_state (populate [sponge; mop]) state =
    filter (fun o => dict_mem key_eqb state (obj_states o)) [sponge; mop].
Proof.
  apply (scene_index_agrees_with_scan [sponge; mop]).
  - repeat constructor; cbn; intuition discriminate.
  - intros o [<- | [<- | []]]; repeat constructor; cbn; intuition discriminate.
Defined.

(** ** The step of the simulator *)

Lemma physics_timestep_num_unforced (self : simulator)
    (forced_timestep : option Z) :
  forced_timestep = None \/ forced_timestep = Some 0%Z ->
  physics_timestep_num self forced_timestep =
  if Qeq_bool (physics_timestep self) 0 then Raise ZeroDivisionError
  else Ok (Z.max 1 (int_of_Q (render_timestep self / physics_timestep self))).
Proof. intros [-> | ->]; reflexivity. Qed.

(** X7.  Outside VR, a step that returns has begun with a physics substep
    and so has run at least one, whatever the two timesteps are, unless a
    negative number of substeps was forced: [max(1, ...)] covers the
    computed number, and a forced number is taken as it is. *)
Theorem step_runs_at_least_one_substep
    (self : simulator) (forced_timestep : option Z) (tr : list event) :
  can_access_vr_context self = false ->
  (forall n, forced_timestep = Some n -> (0 <= n)%Z) ->
  step self forced_timestep = Ok tr ->
  hd_error tr = Some StepSimulation /\ 1 <= count_substeps tr.
Proof.
  intros Hvr Hforced Hstep. unfold step in Hstep. rewrite Hvr in Hstep.
  destruct (physics_timestep_num self forced_timestep) as [n|] eqn:En;
    [|discriminate].
  cbn [bind] in Hstep. injection Hstep as <-.
  assert (Hn : (1 <= n)%Z).
  { unfold physics_timestep_num in En.
    destruct forced_timestep as [m|].
    - destruct (m =? 0)%Z eqn:Em.
      + destruct (Qeq_bool (physics_timestep self) 0); [discriminate|].
        injection En as <-. lia.
      + injection En as <-. apply Z.eqb_neq in Em.
        specialize (Hforced m eq_refl). lia.
    - destruct (Qeq_bool (physics_timestep self) 0); [discriminate|].
      injection En as <-. lia. }
  destruct (physics_loop_counts self (Z.to_nat n) [Sync] eq_refl) as [_ Hs].
  rewrite Hs. split; [|lia].
  destruct (Z.to_nat n) as [|k] eqn:Ek; [lia | reflexivity].
Qed.

Lemma step_runs_at_least_one_substep_witness :
  exists tr,
    step default_simulator None = Ok tr /\
    hd_error tr = Some StepSimulation /\ 1 <= count_substeps tr.
Proof.
  eexists. split; [vm_compute; reflexivity|].
  apply (step_runs_at_least_one_substep default_simulator None).
  - reflexivity.
  - intros n [=].
  - vm_compute. reflexivity.
Defined.

(** X8.  Outside VR, a negative [forced_timestep] is taken as it is: the
    loop over the substeps is empty, so the step runs no physics substep
    and no state update and only syncs the renderer. *)
Theorem step_with_negative_forced_timestep
    (self : simulator) (n : Z) :
  can_access_vr_context self = false ->
  (n < 0)%Z ->
  step self (Some n) = Ok [Sync].
Proof.
  intros Hvr Hn. unfold step, physics_timestep_num. rewrite Hvr.
  destruct (n =? 0)%Z eqn:E; [apply Z.eqb_eq in E; lia|].
  cbn [bind]. replace (Z.to_nat n) with 0 by lia. reflexivity.
Qed.

Lemma step_with_negative_forced_timestep_witness :
  step default_simulator (Some (-3)%Z) = Ok [Sync].
Proof.
  apply (step_with_negative_forced_timestep default_simulator (-3));
    [reflexivity | lia].
Defined.

(** X9.  Outside VR, with a physics timestep equal to zero and no forced
    number of substeps, the step raises ZeroDivisionError before any
    substep; forcing 0 substeps does not avoid the division, because 0
    counts as no forced number at all. *)
Theorem step_with_zero_physics_timestep
    (self : simulator) (forced_timestep : option Z) :
  can_access_vr_context self = false ->
  forced_timestep = None \/ forced_timestep = Some 0%Z ->
  (physics_timestep self == 0)%Q ->
  step self forced_timestep = Raise ZeroDivisionError.
Proof.
  intros Hvr Hforced Hzero. unfold step. rewrite Hvr.
  rewrite (physics_timestep_num_unforced self forced_timestep Hforced).
  apply Qeq_bool_iff in Hzero. now rewrite Hzero.
Qed.

Lemma step_with_zero_physics_timestep_witness :
  step stalled_simulator (Some 0%Z) = Raise ZeroDivisionError.
Proof.
  apply (step_with_zero_physics_timestep stalled_simulator (Some 0%Z)).
  - reflexivity.
  - now right.
  - reflexivity.
Defined.

(** ** The scheduler pass *)

Lemma pass_updates_blocks (self : simulator) :
  pass_updates self =
  flat_map (updates_of (get_objects (sim_scene self)))
           (object_state_names self).
Proof. reflexivity. Qed.

Lemma in_updates_of (objects : list sim_object) (k k' : state_key)
    (o : string) :
  In (k', o) (updates_of objects k) <->
  k' = k /\
  exists obj, In obj objects /\ obj_name obj = o /\
              dict_mem key_eqb k (obj_states obj) = true.
Proof.
  unfold updates_of. rewrite in_flat_map. split.
  - intros [obj [Hobj Hin]].
    destruct (dict_mem key_eqb k (obj_states obj)) eqn:E; [|contradiction].
    destruct Hin as [[= <- <-] | []]. split; [reflexivity|]. now exists obj.
  - intros [-> [obj [Hobj [<- Hc]]]]. exists obj. split; [assumption|].
    rewrite Hc. now left.
Qed.




(** The order returned has no repetition and puts every declared dependency
    before the state that declares it. *)
Lemma dependency_order_sorted
    (lifo : bool) (T : class_table) (all_iter order : list state_key) :
  Permutation all_iter (dict_keys _STATE_NAME_TO_CLASS_MAPPING) ->
  get_states_by_dependency_order lifo T all_iter = Some (Ok order) ->
  NoDup order /\
  forall state dep, depends_on T state dep -> before dep state order.
Proof.
  intros Hperm Hrun.
  destruct (dependency_graph_edges T all_iter Hperm) as [HG [Hwf Hedges]].
  unfold get_states_by_dependency_order in Hrun. rewrite HG in Hrun.
  destruct (topological_sort_outcome lifo _ Hwf)
    as [[sorted [Hsort [Hnd [_ Hfwd]]]] | [Hsort _]];
    rewrite Hsort in Hrun; [|discriminate].
  injection Hrun as <-. split; [now apply NoDup_rev|].
  intros state dep Hdep. apply before_rev; [assumption|].
  apply Hfwd. now apply Hedges.
Qed.

Lemma in_blocks (objects : list sim_object) (names : list state_key)
    (k : state_key) (o : string) :
  In (k, o) (flat_map (updates_of objects) names) -> In k names.
Proof.
  intros H. apply in_flat_map in H as [k' [Hk' Hin]].
  now apply in_updates_of in Hin as [-> _].
Qed.

(** Within a pass the calls come in the order of the list of identifiers. *)
Lemma blocks_follow_names (objects : list sim_object)
    (names : list state_key) :
  NoDup names ->
  forall l1 l2 a x b y,
    flat_map (updates_of objects) names = l1 ++ (a, x) :: l2 ->
    In (b, y) l2 ->
    index a names <= index b names.
Proof.
  induction names as [|k names IH]; intros Hnd l1 l2 a x b y Heq Hin.
  - destruct l1; discriminate.
  - inversion Hnd as [|? ? Hnotin Hnd']; subst. cbn [flat_map] in Heq.
    assert (Hrest : forall l,
               flat_map (updates_of objects) names = l ++ (a, x) :: l2 ->
               index a (k :: names) <= index b (k :: names)).
    { intros l Hl. pose proof (IH Hnd' l l2 a x b y Hl Hin) as Hle.
      assert (Ha : In a names).
      { apply in_blocks with objects x. rewrite Hl.
        apply in_or_app. right. now left. }
      assert (Hb : In b names).
      { apply in_blocks with objects y. rewrite Hl.
        apply in_or_app. right. now right. }
      cbn [index].
      replace (key_eqb a k) with false
        by (symmetry; apply key_eqb_false; intros ->; contradiction).
      replace (key_eqb b k) with false
        by (symmetry; apply key_eqb_false; intros ->; contradiction).
      lia. }
    apply app_eq_app in Heq as [l [[Hl1 Hl2] | [Hl1 Hl2]]].
    + destruct l as [|e l].
      * cbn [app] in Hl2. apply (Hrest []). now rewrite <- Hl2.
      * cbn [app] in Hl2. injection Hl2 as <- Hl2.
        assert (Ha : In (a, x) (updates_of objects k)).
        { rewrite Hl1. apply in_or_app. right. now left. }
        apply in_updates_of in Ha as [-> _].
        cbn [index]. rewrite key_eqb_refl. lia.
    + now apply (Hrest l).
Qed.

(** X11.  When the state identifiers of the simulator are the order that
    [get_states_by_dependency_order] returned, a pass never updates a
    dependency after a state that declares it: once [update] has been
    called for a state on some object, no later call of the pass is for one
    of its required or optional dependencies, on any object. *)
Theorem pass_updates_dependencies_first
    (lifo : bool) (T : class_table) (all_iter : list state_key)
    (self : simulator) :
  Permutation all_iter (dict_keys _STATE_NAME_TO_CLASS_MAPPING) ->
  get_states_by_dependency_order lifo T all_iter =
  Some (Ok (object_state_names self)) ->
  forall state dep,
    depends_on T state dep ->
    forall l1 l2 o1 o2,
      pass_updates self = l1 ++ (state, o1) :: l2 ->
      ~ In (dep, o2) l2.
Proof.
  intros Hperm Hrun state dep Hdep l1 l2 o1 o2 Heq Hin.
  destruct (dependency_order_sorted lifo T all_iter _ Hperm Hrun)
    as [Hnd Hbefore].
  destruct (Hbefore state dep Hdep) as [_ [_ Hlt]].
  rewrite pass_updates_blocks in Heq.
  pose proof (blocks_follow_names _ _ Hnd l1 l2 state o1 dep o2 Heq Hin).
  lia.
Qed.

Lemma pass_updates_dependencies_first_witness :
  ~ exists l1 l2 o1 o2,
      pass_updates scheduled_simulator =
      l1 ++ (Name "cleaning_tool", o1) :: l2 /\
      In (Name "aabb", o2) l2.
Proof.
  intros [l1 [l2 [o1 [o2 [Heq Hin]]]]].
  apply (pass_updates_dependencies_first true sample_table
           (dict_keys _STATE_NAME_TO_CLASS_MAPPING) scheduled_simulator
           (Permutation_refl _) ltac:(vm_compute; reflexivity)
           (Name "cleaning_tool") (Name "aabb")
           ltac:(split; vm_compute; tauto)
           l1 l2 o1 o2 Heq Hin).
Defined.

Example pass_updates_scheduled :
  pass_updates scheduled_simulator =
  [ (Name "aabb", "sponge"); (Name "aabb", "mop");
    (Name "onTop", "sponge"); (Name "open", "sponge");
    (Name "inside", "sponge"); (Name "nextTo", "sponge");
    (Name "under", "sponge"); (Name "touching", "sponge");
    (Name "soaked", "sponge");
    (Name "cleaning_tool", "sponge"); (Name "cleaning_tool", "mop") ].
Proof. vm_compute. reflexivity. Qed.

(** ** Sweeps and updates of the particle states *)

Lemma mapM_Forall2 {A B : Type} (f : A -> result B) (R : A -> B -> Prop) :
  (forall a b, f a = Ok b -> R a b) ->
  forall l l', mapM f l = Ok l' -> Forall2 R l l'.
Proof.
  intros Hf. induction l as [|a l IH]; intros l' H; cbn [mapM] in H.
  - injection H as <-. constructor.
  - destruct (f a) as [b|] eqn:Ea; [|discriminate]. cbn [bind] in H.
    destruct (mapM f l) as [bs|]; [|discriminate]. cbn [bind] in H.
    injection H as <-. constructor; [now apply Hf | now apply IH].
Qed.

Lemma Forall2_settled_trans (l1 l2 l3 : list particle) :
  Forall2 settled l1 l2 -> Forall2 settled l2 l3 -> Forall2 settled l1 l3.
Proof.
  intros H12. revert l3. induction H12 as [|p1 p2 l1 l2 Hp _ IH];
    intros l3 H23; inversion H23 as [|? p3 ? l3' Hp' Hrest]; subst;
    constructor.
  - destruct Hp as [-> | ->]; destruct Hp' as [-> | ->];
      [now left | now right | now right | now right].
  - now apply IH.
Qed.

Lemma sweep_all_settles (key : state_key) (visit : particle -> bool)
    (objects : list sim_object) :
  forall ps ps',
    sweep_all key visit objects ps = Ok ps' -> Forall2 settled ps ps'.
Proof.
  induction objects as [|o objects IH]; intros ps ps' H; cbn [sweep_all] in H.
  - injection H as <-. induction ps; constructor; [now left | assumption].
  - destruct (sweep key visit o ps) as [ps1|] eqn:E; [|discriminate].
    cbn [bind] in H. apply Forall2_settled_trans with ps1; [|now apply IH].
    unfold sweep in E. revert E. apply mapM_Forall2.
    intros p p' Hp. destruct (visit p); [|injection Hp as <-; now left].
    destruct (get_aabb_value key o) as [box|]; [|discriminate].
    cbn [bind] in Hp.
    destruct (strictly_within (position p) (inflate box));
      injection Hp as <-; [now right | now left].
Qed.

Lemma settled_counts (ps ps' : particle_system) :
  Forall2 settled ps ps' ->
  get_num ps' = get_num ps /\ get_num_active ps' <= get_num_active ps.
Proof.
  unfold get_num, get_num_active, get_active_particles.
  induction 1 as [|p p' ps ps' Hp _ [IHn IHa]]; [auto|].
  cbn [length filter]. split; [lia|].
  destruct Hp as [-> | ->].
  - destruct (active p); cbn [length]; lia.
  - cbn [stash_particle active]. destruct (active p); cbn [length]; lia.
Qed.

(** X12.  An update only ever stashes particles: after [Dirty.update],
    and after [Stained.update] on a stained state that was already stained
    at the previous update, every particle is either as it was or
    stashed, so the population keeps its size and the number of active
    particles does not grow. *)
Theorem updates_only_stash_particles :
  (forall sc self self',
      Dirty_update sc self = Ok self' ->
      Forall2 settled (dust self) (dust self') /\
      get_num (dust self') = get_num (dust self) /\
      get_num_active (dust self') <= get_num_active (dust self)) /\
  (forall env sc ps self',
      Stained_update env sc
        {| prev_value := true; stained_value := true; stain := Some ps |} =
      Ok self' ->
      exists ps',
        stain self' = Some ps' /\
        Forall2 settled ps ps' /\
        get_num ps' = get_num ps /\
        get_num_active ps' <= get_num_active ps).
Proof.
  split.
  - intros sc self self' H. unfold Dirty_update in H.
    destruct (sweep_all _ _ _ _) as [dust'|] eqn:E; [|discriminate].
    cbn [bind] in H. injection H as <-. cbn [dust].
    apply sweep_all_settles in E. split; [assumption|].
    now apply settled_counts.
  - intros env sc ps self' H. unfold Stained_update in H.
    cbn [stained_value prev_value stain negb andb] in H.
    destruct (sweep_all _ _ _ _) as [stain2|] eqn:E; [|discriminate].
    cbn [bind] in H. injection H as <-. exists stain2. cbn [stain].
    apply sweep_all_settles in E. split; [reflexivity|].
    split; [assumption|]. now apply settled_counts.
Qed.

Lemma updates_only_stash_particles_witness :
  exists self',
    Dirty_update kitchen
      {| dirty_value := true;
         dust := [speck origin; speck (5, 5, 5)%Q] |} = Ok self' /\
    get_num (dust self') = 2 /\
    get_num_active (dust self') <= 2.
Proof.
  destruct updates_only_stash_particles as [HD _].
  eexists. split; [vm_compute; reflexivity|].
  destruct (HD kitchen
              {| dirty_value := true;
                 dust := [speck origin; speck (5, 5, 5)%Q] |}
              _ ltac:(vm_compute; reflexivity)) as [_ [Hn Ha]].
  split; [exact Hn | exact Ha].
Defined.

(** X13.  When every cleaning tool of the scene carries a box under
    "aabb", [Dirty.update] returns; it stashes exactly the particles
    whose position lies strictly within the inflated box of some cleaning
    tool, leaves the others as they are, and sets the value to the outcome
    of the threshold test on the result. *)
Theorem Dirty_update_stashes_the_particles_hit
    (sc : scene) (self : Dirty_state) (boxes : list aabb) :
  map (get_aabb_value (Name "aabb"))
      (get_objects_with_state sc (Name "cleaning_tool")) = map Ok boxes ->
  exists dust',
    Dirty_update sc self =
    Ok {| dirty_value := above_threshold dust'; dust := dust' |} /\
    dust' = map (fun p => if hit boxes p then stash_particle p else p)
                (dust self).
Proof.
  intros Hboxes. eexists. split; [|reflexivity].
  unfold Dirty_update.
  rewrite (sweep_all_effect _ _ _ boxes (dust self) Hboxes). reflexivity.
Qed.

Lemma Dirty_update_stashes_the_particles_hit_witness :
  exists dust',
    Dirty_update kitchen
      {| dirty_value := true;
         dust := [speck origin; speck (5, 5, 5)%Q] |} =
    Ok {| dirty_value := above_threshold dust'; dust := dust' |} /\
    dust' = map (fun p => if hit [cube (-1) 1] p then stash_particle p
                          else p)
                [speck origin; speck (5, 5, 5)%Q].
Proof.
  apply (Dirty_update_stashes_the_particles_hit kitchen
           {| dirty_value := true;
              dust := [speck origin; speck (5, 5, 5)%Q] |}
           [cube (-1) 1]).
  reflexivity.
Defined.

(** X14.  [Dirty.update] is idempotent on an unchanged scene: when every
    cleaning tool carries a box, a second update right after the first
    returns the state that the first one left. *)
Theorem Dirty_update_twice
    (sc : scene) (self : Dirty_state) (boxes : list aabb) :
  map (get_aabb_value (Name "aabb"))
      (get_objects_with_state sc (Name "cleaning_tool")) = map Ok boxes ->
  exists self',
    Dirty_update sc self = Ok self' /\ Dirty_update sc self' = Ok self'.
Proof.
  intros Hboxes. unfold Dirty_update.
  rewrite (sweep_all_effect _ _ _ boxes (dust self) Hboxes). cbn [bind].
  eexists. split; [reflexivity|]. cbn [dust].
  rewrite (sweep_all_effect _ _ _ boxes _ Hboxes). cbn [bind].
  rewrite map_map.
  assert (Hmap : forall ps : particle_system,
             map (fun p =>
                    if true && hit boxes
                                 (if true && hit boxes p
                                  then stash_particle p else p)
                    then stash_particle
                           (if true && hit boxes p then stash_particle p
                            else p)
                    else if true && hit boxes p then stash_particle p else p)
                 ps =
             map (fun p => if true && hit boxes p then stash_particle p
                           else p) ps).
  { intros ps. apply map_ext. intros p. cbn [andb].
    destruct (hit boxes p) eqn:E.
    - destruct (hit boxes (stash_particle p)); reflexivity.
    - now rewrite E. }
  now rewrite Hmap.
Qed.

Lemma Dirty_update_twice_witness :
  exists self',
    Dirty_update kitchen
      {| dirty_value := true;
         dust := [speck origin; speck (5, 5, 5)%Q] |} = Ok self' /\
    Dirty_update kitchen self' = Ok self'.
Proof.
  apply (Dirty_update_twice kitchen
           {| dirty_value := true;
              dust := [speck origin; speck (5, 5, 5)%Q] |}
           [cube (-1) 1]).
  reflexivity.
Defined.

(** ** Dirty.set_value followed by an update *)

Lemma all_active_count (ps : particle_system) :
  get_num_active (map activate ps) = length ps /\
  get_num (map activate ps) = length ps.
Proof.
  unfold get_num_active, get_active_particles, get_num.
  rewrite length_map. split; [|reflexivity].
  induction ps as [|p ps IH]; [reflexivity|]. cbn. now rewrite IH.
Qed.

Lemma all_stashed_count (ps : particle_system) :
  get_num_active (map stash_particle ps) = 0 /\
  get_num (map stash_particle ps) = length ps.
Proof.
  unfold get_num_active, get_active_particles, get_num.
  rewrite length_map. split; [|reflexivity].
  induction ps as [|p ps IH]; [reflexivity|]. cbn. exact IH.
Qed.

(** X15.  In a scene without cleaning tool, [set_value(True)] followed by
    an update leaves every particle active, and the value is True exactly
    when the population is not empty: a Dirty state without particles
    falls back to False at the first update. *)
Theorem Dirty_set_true_then_update
    (env : particle_env) (sc : scene) (self : Dirty_state) :
  get_objects_with_state sc (Name "cleaning_tool") = [] ->
  Dirty_update sc (Dirty_set_value env true self) =
  Ok {| dirty_value := negb (length (attach env (dust self)) =? 0);
        dust := map activate (attach env (dust self)) |}.
Proof.
  intros Htools. unfold Dirty_update, Dirty_set_value. cbn [dust].
  rewrite Htools. cbn [sweep_all bind]. f_equal. f_equal.
  destruct (all_active_count (attach env (dust self))) as [Ha Hn].
  destruct (above_threshold _) eqn:E.
  - apply above_threshold_iff in E. rewrite Ha, Hn in E.
    symmetry. apply negb_true_iff, Nat.eqb_neq. lia.
  - symmetry. apply negb_false_iff, Nat.eqb_eq.
    destruct (Nat.eq_dec (length (attach env (dust self))) 0) as [H0 | H0];
      [assumption|].
    assert (Ht : above_threshold (map activate (attach env (dust self)))
                 = true).
    { apply above_threshold_iff. rewrite Ha, Hn. lia. }
    congruence.
Qed.

Lemma Dirty_set_true_then_update_witness :
  Dirty_update empty_scene
    (Dirty_set_value plain_env true
       {| dirty_value := false; dust := [stash_particle (speck origin)] |}) =
  Ok {| dirty_value := true; dust := [speck origin] |}.
Proof.
  apply (Dirty_set_true_then_update plain_env empty_scene
           {| dirty_value := false;
              dust := [stash_particle (speck origin)] |}).
  reflexivity.
Defined.

(** X16.  After [set_value(False)] every particle is stashed and none is
    lost; an update that follows returns False, with no active particle
    and the population at its size. *)
Theorem Dirty_set_false_then_update
    (env : particle_env) (sc : scene) (self self' : Dirty_state) :
  Dirty_update sc (Dirty_set_value env false self) = Ok self' ->
  dirty_value self' = false /\
  get_num_active (dust self') = 0 /\
  get_num (dust self') = get_num (dust self).
Proof.
  intros H. unfold Dirty_update, Dirty_set_value in H. cbn [dust] in H.
  destruct (sweep_all _ _ _ _) as [dust'|] eqn:E; [|discriminate].
  cbn [bind] in H. injection H as <-. cbn [dirty_value dust].
  apply sweep_all_settles, settled_counts in E as [Hn Ha].
  destruct (all_stashed_count (dust self)) as [Ha0 Hn0].
  rewrite Ha0 in Ha. rewrite Hn0 in Hn.
  assert (Hzero : get_num_active dust' = 0) by lia.
  split; [| split; [assumption | exact Hn]].
  destruct (above_threshold dust') eqn:Et; [|reflexivity].
  apply above_threshold_iff in Et. lia.
Qed.

Lemma Dirty_set_false_then_update_witness :
  exists self',
    Dirty_update kitchen
      (Dirty_set_value plain_env false
         {| dirty_value := true; dust := [speck origin; speck origin] |}) =
    Ok self' /\
    dirty_value self' = false /\
    get_num_active (dust self') = 0 /\
    get_num (dust self') = 2.
Proof.
  eexists. split; [vm_compute; reflexivity|].
  apply (Dirty_set_false_then_update plain_env kitchen
           {| dirty_value := true; dust := [speck origin; speck origin] |}).
  vm_compute. reflexivity.
Defined.

(** ** A cleaning tool without a box *)

Lemma sweep_missing_box (key : state_key) (visit : particle -> bool)
    (object : sim_object) (e : exn) (p : particle) (ps : particle_system) :
  get_aabb_value key object = Raise e -> visit p = true ->
  sweep key visit object (p :: ps) = Raise e.
Proof.
  intros Hb Hv. unfold sweep. cbn [mapM]. rewrite Hv, Hb. reflexivity.
Qed.

(** X17.  When some cleaning tool of the scene has no "aabb" state (and
    the others have a box or none), [Dirty.update] raises KeyError as soon
    as the population holds a particle; on an empty population it reads no
    box at all and returns, with the value False. *)
Theorem Dirty_update_without_box (sc : scene) (self : Dirty_state) :
  (forall tool,
      In tool (get_objects_with_state sc (Name "cleaning_tool")) ->
      (exists box, get_aabb_value (Name "aabb") tool = Ok box) \/
      get_aabb_value (Name "aabb") tool = Raise KeyError) ->
  (exists tool,
      In tool (get_objects_with_state sc (Name "cleaning_tool")) /\
      get_aabb_value (Name "aabb") tool = Raise KeyError) ->
  (dust self <> [] -> Dirty_update sc self = Raise KeyError) /\
  (dust self = [] ->
   Dirty_update sc self = Ok {| dirty_value := false; dust := [] |}).
Proof.
  intros Hall Hsome. unfold Dirty_update.
  generalize dependent (get_objects_with_state sc (Name "cleaning_tool")).
  intros tools Hall Hsome. split.
  - intros Hne.
    assert (H : forall ps, ps <> [] ->
               sweep_all (Name "aabb") (fun _ => true) tools ps =
               Raise KeyError).
    { induction tools as [|tool tools IH]; intros ps Hps.
      - destruct Hsome as [t [[] _]].
      - cbn [sweep_all].
        destruct (Hall tool (or_introl eq_refl)) as [[box Hbox] | Hmiss].
        + rewrite (sweep_effect _ _ _ box ps Hbox). cbn [bind].
          apply IH.
          * intros t Ht. apply Hall. now right.
          * destruct Hsome as [t [[<- | Ht] Hm]]; [congruence|].
            now exists t.
          * destruct ps; [contradiction | discriminate].
        + destruct ps as [|p ps]; [contradiction|].
          now rewrite (sweep_missing_box _ _ _ KeyError p ps Hmiss eq_refl). }
    now rewrite (H (dust self) Hne).
  - intros ->.
    assert (H : sweep_all (Name "aabb") (fun _ : particle => true) tools []
                = Ok []).
    { clear. induction tools as [|tool tools IH]; [reflexivity|].
      cbn [sweep_all sweep mapM bind]. exact IH. }
    rewrite H. reflexivity.
Qed.

Lemma Dirty_update_without_box_witness :
  Dirty_update (populate [sponge; rag])
    {| dirty_value := true; dust := [speck (5, 5, 5)%Q] |} = Raise KeyError /\
  Dirty_update (populate [sponge; rag])
    {| dirty_value := true; dust := [] |} =
  Ok {| dirty_value := false; dust := [] |}.
Proof.
  destruct (Dirty_update_without_box (populate [sponge; rag])
              {| dirty_value := true; dust := [speck (5, 5, 5)%Q] |})
    as [Hne _].
  - intros tool Ht. vm_compute in Ht. destruct Ht as [<- | [<- | []]];
      [left; eexists; reflexivity | right; reflexivity].
  - exists rag. split; [vm_compute; right; now left | reflexivity].
  - destruct (Dirty_update_without_box (populate [sponge; rag])
                {| dirty_value := true; dust := [] |}) as [_ He].
    + intros tool Ht. vm_compute in Ht. destruct Ht as [<- | [<- | []]];
        [left; eexists; reflexivity | right; reflexivity].
    + exists rag. split; [vm_compute; right; now left | reflexivity].
    + split; [apply Hne; discriminate | apply He; reflexivity].
Defined.

(** ** The inflated box *)

Lemma strictly_within_inflate (p : vec3) (box : aabb) :
  strictly_within p (inflate box) = true <->
  (fst (inflate_axis (coord_x (fst box)) (coord_x (snd box))) < coord_x p /\
   coord_x p < snd (inflate_axis (coord_x (fst box)) (coord_x (snd box))))%Q
  /\
  (fst (inflate_axis (coord_y (fst box)) (coord_y (snd box))) < coord_y p /\
   coord_y p < snd (inflate_axis (coord_y (fst box)) (coord_y (snd box))))%Q
  /\
  (fst (inflate_axis (coord_z (fst box)) (coord_z (snd box))) < coord_z p /\
   coord_z p < snd (inflate_axis (coord_z (fst box)) (coord_z (snd box))))%Q.
Proof.
  destruct box as [lower upper].
  unfold strictly_within, inflate, inflate_axis.
  cbn [fst snd coord_x coord_y coord_z].
  rewrite !andb_true_iff, !Qltb_lt. tauto.
Qed.

(** X18.  When the box of a tool has a positive extent along each axis,
    every point of the box, faces included, lies strictly within the
    inflated box: a particle that touches the tool is always removed. *)
Theorem inflated_box_covers_the_box (p : vec3) (box : aabb) :
  (coord_x (fst box) < coord_x (snd box))%Q ->
  (coord_y (fst box) < coord_y (snd box))%Q ->
  (coord_z (fst box) < coord_z (snd box))%Q ->
  within (coord_x (fst box)) (coord_x p) (coord_x (snd box)) ->
  within (coord_y (fst box)) (coord_y p) (coord_y (snd box)) ->
  within (coord_z (fst box)) (coord_z p) (coord_z (snd box)) ->
  strictly_within p (inflate box) = true.
Proof.
  intros Hx Hy Hz [Hx1 Hx2] [Hy1 Hy2] [Hz1 Hz2].
  apply strictly_within_inflate.
  unfold inflate_axis. cbn [fst snd]. repeat split; lra.
Qed.

Lemma inflated_box_covers_the_box_witness :
  strictly_within (1, 1, 1)%Q (inflate (cube 0 1)) = true.
Proof.
  apply (inflated_box_covers_the_box (1, 1, 1)%Q (cube 0 1));
    try reflexivity; split; cbn; unfold Qle; simpl; lia.
Defined.

(** X19.  A tool whose box has no extent along some axis, or has its
    bounds the wrong way round, removes nothing: a position can lie
    strictly within the inflated box only if the box has a positive
    extent along each of the three axes. *)
Theorem flat_box_removes_nothing (p : vec3) (box : aabb) :
  strictly_within p (inflate box) = true ->
  (coord_x (fst box) < coord_x (snd box))%Q /\
  (coord_y (fst box) < coord_y (snd box))%Q /\
  (coord_z (fst box) < coord_z (snd box))%Q.
Proof.
  intros H. apply strictly_within_inflate in H.
  unfold inflate_axis in H. cbn [fst snd] in H.
  destruct H as [[Hx1 Hx2] [[Hy1 Hy2] [Hz1 Hz2]]].
  repeat split; lra.
Qed.

Lemma flat_box_removes_nothing_witness :
  (coord_x (fst (cube 0 1)) < coord_x (snd (cube 0 1)))%Q /\
  (coord_y (fst (cube 0 1)) < coord_y (snd (cube 0 1)))%Q /\
  (coord_z (fst (cube 0 1)) < coord_z (snd (cube 0 1)))%Q.
Proof.
  apply (flat_box_removes_nothing (1, 1, 1)%Q (cube 0 1)). reflexivity.
Defined.

(** ** Stained.update when the tools are found *)

(** X20.  With the states of the tools stored under the class objects, an
    update of a stained state that was already stained returns whenever
    every wet cleaning tool carries a box; it stashes exactly the active
    particles that lie strictly within the inflated box of a wet tool,
    ignores the tools that are not soaked, and sets the value to the
    outcome of the threshold test. *)
Theorem Stained_update_stashes_the_particles_hit
    (env : particle_env) (sc : scene) (ps : particle_system)
    (boxes : list aabb) :
  map (get_aabb_value (Class AABB))
      (filter is_wet (get_objects_with_state sc (Class CleaningTool))) =
  map Ok boxes ->
  exists ps',
    Stained_update env sc
      {| prev_value := true; stained_value := true; stain := Some ps |} =
    Ok {| prev_value := true; stained_value := above_threshold ps';
          stain := Some ps' |} /\
    ps' = map (fun p => if active p && hit boxes p then stash_particle p
                        else p) ps.
Proof.
  intros Hboxes. eexists. split; [|reflexivity].
  unfold Stained_update. cbn [stained_value prev_value stain negb andb].
  rewrite (sweep_all_effect _ _ _ boxes ps Hboxes). reflexivity.
Qed.

Lemma Stained_update_stashes_the_particles_hit_witness :
  exists ps',
    Stained_update plain_env (populate [sponge_by_class; dry_cloth])
      {| prev_value := true; stained_value := true;
         stain := Some [speck origin; speck (5, 5, 5)%Q] |} =
    Ok {| prev_value := true; stained_value := above_threshold ps';
          stain := Some ps' |} /\
    ps' = map (fun p => if active p && hit [cube (-1) 1] p
                        then stash_particle p else p)
              [speck origin; speck (5, 5, 5)%Q].
Proof.
  apply (Stained_update_stashes_the_particles_hit plain_env
           (populate [sponge_by_class; dry_cloth])
           [speck origin; speck (5, 5, 5)%Q] [cube (-1) 1]).
  vm_compute. reflexivity.
Defined.

(** ** More on Inside.get_value *)

(** X21.  For a box with a positive height the second case of
    [Inside.get_value] never applies: the result is true exactly when the
    centre of A's box lies within B's box, A's volume is strictly smaller
    and at least two extents of A fit. *)
Theorem Inside_on_boxes_with_height (a b : aabb) :
  (coord_z (fst a) < coord_z (snd a))%Q ->
  (inside_of_boxes a b = true <->
   center_within a b /\ volume_smaller a b /\ two_extents_fit a b).
Proof.
  intros Hheight. rewrite inside_of_boxes_iff. unfold computed_inside.
  split; [|auto]. intros [H | [Hc Habove]]; [assumption|].
  exfalso.
  destruct (above_case_is_flat a b (Qlt_le_weak _ _ Hheight) Hc Habove)
    as [H1 H2].
  rewrite H1, H2 in Hheight. now apply (Qlt_irrefl (coord_z (snd b))).
Qed.

Lemma Inside_on_boxes_with_height_witness :
  inside_of_boxes (cube 0 1) (cube (-1) 2) = true <->
  center_within (cube 0 1) (cube (-1) 2) /\
  volume_smaller (cube 0 1) (cube (-1) 2) /\
  two_extents_fit (cube 0 1) (cube (-1) 2).
Proof.
  apply (Inside_on_boxes_with_height (cube 0 1) (cube (-1) 2)).
  reflexivity.
Defined.




(** X23.  [Inside.get_value] looks the boxes up under the class object
    AABB.  On an object whose states are all stored under name strings, as
    the factory stores them, the first assertion fails, whatever the other
    object is; and so does the second when the other object is the one
    keyed by names. *)
Theorem Inside_get_value_on_name_keys (obj other : sim_object) :
  (forall k, In k (dict_keys (obj_states obj)) -> exists s, k = Name s) ->
  Inside_get_value obj other = Raise AssertionError /\
  Inside_get_value other obj = Raise AssertionError.
Proof.
  intros Hnames.
  assert (Hmiss : dict_mem key_eqb (Class AABB) (obj_states obj) = false).
  { rewrite dict_mem_keys. apply mem_false. intros Hin.
    destruct (Hnames _ Hin) as [s Hs]. discriminate. }
  unfold Inside_get_value. rewrite Hmiss. cbn [negb]. split; [reflexivity|].
  destruct (negb (dict_mem key_eqb (Class AABB) (obj_states other)));
    reflexivity.
Qed.

Lemma Inside_get_value_on_name_keys_witness :
  Inside_get_value sponge (boxed "box" unit_cube) = Raise AssertionError /\
  Inside_get_value (boxed "box" unit_cube) sponge = Raise AssertionError.
Proof.
  apply (Inside_get_value_on_name_keys sponge (boxed "box" unit_cube)).
  intros k Hk. cbn in Hk.
  repeat (destruct Hk as [<- | Hk]; [eexists; reflexivity|]). contradiction.
Defined.
